(** * Edge-TTS worker: the segmenter, the SSML builder, the credential cache
    and the batch pipeline of [workers.js], embedded and verified.

  Strings are JavaScript strings: sequences of UTF-16 code units, a code
  unit being an [N] below 65536.  Lengths and loop indices are JavaScript
  numbers restricted to the integers, hence [Z]. *)

From Stdlib Require Import ZArith NArith Lia ZifyNat Bool String Ascii DecimalString.
From stdpp Require Import base tactics option list numbers sorting.

Local Open Scope Z_scope.

(** ** JavaScript built-ins used by the worker *)

Module JS.

Abbreviation JSString := (list N).

(** An ASCII literal as a JavaScript string. *)
Definition js (s : string) : JSString :=
  map N_of_ascii (list_ascii_of_string s).

(** [s.length], [a.length]. *)
Definition jslength {A} (l : list A) : Z := Z.of_nat (length l).

(** Truthiness of a string: only the empty string is falsy. *)
Definition truthy (s : JSString) : bool :=
  match s with [] => false | _ :: _ => true end.

(** ECMAScript WhiteSpace and LineTerminator code points, the ones
    [String.prototype.trim] strips. *)
Definition isWhiteSpace (c : N) : bool :=
  ((9 <=? c) && (c <=? 13) || (c =? 32) || (c =? 160) || (c =? 5760)
   || (8192 <=? c) && (c <=? 8202) || (c =? 8232) || (c =? 8233)
   || (c =? 8239) || (c =? 8287) || (c =? 12288) || (c =? 65279))%N.

Fixpoint trimStart (s : JSString) : JSString :=
  match s with
  | [] => []
  | c :: s' => if isWhiteSpace c then trimStart s' else s
  end.

Definition trimEnd (s : JSString) : JSString :=
  reverse (trimStart (reverse s)).

(** [s.trim()]. *)
Definition trim (s : JSString) : JSString := trimEnd (trimStart s).

(** Relative index of [Array.prototype.slice]: negative counts from the
    end, everything is clamped to [0, len]. *)
Definition relIndex (len k : Z) : Z :=
  if k <? 0 then Z.max (len + k) 0 else Z.min k len.

(** [a.slice(start, end)]. *)
Definition slice {A} (a : list A) (start end_ : Z) : list A :=
  let len := jslength a in
  let k := relIndex len start in
  let final := relIndex len end_ in
  take (Z.to_nat (final - k)) (drop (Z.to_nat k) a).

(** [s.substring(start, end)]: both bounds clamped to [0, len], swapped
    when out of order. *)
Definition substring (s : JSString) (start end_ : Z) : JSString :=
  let len := jslength s in
  let finalStart := Z.min (Z.max start 0) len in
  let finalEnd := Z.min (Z.max end_ 0) len in
  let from := Z.min finalStart finalEnd in
  let to := Z.max finalStart finalEnd in
  take (Z.to_nat (to - from)) (drop (Z.to_nat from) s).

(** [s.replace(/c/g, by)] for a one-character pattern. *)
Definition replaceAll (c : N) (by_ : JSString) (s : JSString) : JSString :=
  mbind (M := list) (λ x, if (x =? c)%N then by_ else [x]) s.

Definition whitespaceOnly (s : JSString) : Prop :=
  Forall (λ c, isWhiteSpace c = true) s.

(** Whitespace normalisation used to compare texts: all whitespace is
    removed, the other code units keep their order. *)
Definition stripWhiteSpace (s : JSString) : JSString :=
  filter (λ c, isWhiteSpace c = false) s.

End JS.
Import JS.

(** ** The segmenter: [smartChunkText] *)

Module Segmenter.

(** The character class of the split pattern
    [/([.?!,;:\n。？！，；：\r]+)/g]. *)
Definition isBoundary (c : N) : bool :=
  ((c =? 46) || (c =? 63) || (c =? 33) || (c =? 44) || (c =? 59)
   || (c =? 58) || (c =? 10) || (c =? 12290) || (c =? 65311)
   || (c =? 65281) || (c =? 65292) || (c =? 65307) || (c =? 65306)
   || (c =? 13))%N.

(** [String.prototype.split] with a pattern that is one capture group
    around a greedy, never-empty run of boundary characters: the text is
    scanned left to right, [piece] (reversed) is the part being read and
    [inRun] tells whether it is a run of boundary characters.  The result
    alternates plain pieces and captured runs and starts and ends with a
    (possibly empty) plain piece. *)
Fixpoint splitScan (s : JSString) (piece : JSString) (inRun : bool)
  : list JSString :=
  match s with
  | [] => if inRun then [reverse piece; []] else [reverse piece]
  | c :: s' =>
      if isBoundary c then
        if inRun then splitScan s' (c :: piece) true
        else reverse piece :: splitScan s' [c] true
      else
        if inRun then reverse piece :: splitScan s' [c] false
        else splitScan s' (c :: piece) false
  end.

Definition split (text : JSString) : list JSString :=
  splitScan text [] false.

(** [if (currentChunk.trim()) chunks.push(currentChunk.trim())]. *)
Definition pushTrimmed (chunks : list JSString) (currentChunk : JSString)
  : list JSString :=
  if truthy (trim currentChunk) then chunks ++ [trim currentChunk] else chunks.

(** One turn of [for (const part of sentences)], on the pair
    [(chunks, currentChunk)]. *)
Definition chunkStep (maxChunkLength : Z)
    (st : list JSString * JSString) (part : JSString)
  : list JSString * JSString :=
  let '(chunks, currentChunk) := st in
  if jslength currentChunk + jslength part <=? maxChunkLength then
    (chunks, currentChunk ++ part)
  else (pushTrimmed chunks currentChunk, part).

(** [for (let i = 0; i < text.length; i += maxChunkLength)
       chunks.push(text.substring(i, i + maxChunkLength))].
    The loop does not end when [maxChunkLength <= 0]; [None] is a run
    that is still looping when the fuel is spent. *)
Fixpoint fallbackLoop (fuel : nat) (text : JSString) (maxChunkLength i : Z)
    (chunks : list JSString) : option (list JSString) :=
  match fuel with
  | O => None
  | S fuel' =>
      if i <? jslength text then
        fallbackLoop fuel' text maxChunkLength (i + maxChunkLength)
          (chunks ++ [substring text i (i + maxChunkLength)])
      else Some chunks
  end.

(** The boundary-aware pass: the greedy loop and the final flush. *)
Definition boundaryPass (text : JSString) (maxChunkLength : Z)
  : list JSString :=
  let sentences := split text in
  let '(chunks, currentChunk) :=
    fold_left (chunkStep maxChunkLength) sentences ([], []) in
  pushTrimmed chunks currentChunk.

(** Whether the fixed-width fallback is taken. *)
Definition fallbackTaken (text : JSString) (maxChunkLength : Z) : bool :=
  (jslength (boundaryPass text maxChunkLength) =? 0) && (0 <? jslength text).

Definition smartChunkTextFuel (fuel : nat) (text : JSString)
    (maxChunkLength : Z) : option (list JSString) :=
  if negb (truthy text) then Some []
  else
    let chunks := boundaryPass text maxChunkLength in
    chunks' ← (if fallbackTaken text maxChunkLength
               then fallbackLoop fuel text maxChunkLength 0 chunks
               else Some chunks);
    Some (filter (λ c, 0 < jslength c) chunks').

(** The fallback loop runs at most [text.length] turns when it ends at
    all, so this much fuel is enough. *)
Definition smartChunkText (text : JSString) (maxChunkLength : Z)
  : option (list JSString) :=
  smartChunkTextFuel (S (length text)) text maxChunkLength.

(** What the greedy pass guarantees on the length of a chunk [c]: it is
    within the maximum, or it is one part of the split, longer than the
    maximum, trimmed. *)
Definition boundedOrWholePart (text : JSString) (maxChunkLength : Z)
    (c : JSString) : Prop :=
  jslength c <= maxChunkLength
  ∨ ∃ part, part ∈ split text ∧ maxChunkLength < jslength part ∧ c = trim part.

(** [woven chunks text]: the text is the chunks, in their order, with
    nothing but whitespace before, between and after them. *)
Inductive woven : list JSString → JSString → Prop :=
| woven_nil (gap : JSString) :
    whitespaceOnly gap → woven [] gap
| woven_cons (gap c : JSString) (chunks : list JSString) (rest : JSString) :
    whitespaceOnly gap → woven chunks rest →
    woven (c :: chunks) (gap ++ c ++ rest).

End Segmenter.
Import Segmenter.

(** ** The SSML builder: [getSsml] *)

Module Ssml.

(** A double quote, as a one-character string. *)
Definition dq : JSString := [34%N].

(** [text.replace(/&/g, '&').replace(/</g, '<').replace(/>/g, '>')]:
    the three replacement strings are the source's, character for
    character. *)
Definition sanitize (text : JSString) : JSString :=
  replaceAll 62 (js ">") (replaceAll 60 (js "<") (replaceAll 38 (js "&") text)).

Definition ssmlHead (voiceName rate pitch style : JSString) : JSString :=
  js "<speak xmlns=" ++ dq ++ js "http://www.w3.org/2001/10/synthesis" ++ dq
  ++ js " xmlns:mstts=" ++ dq ++ js "http://www.w3.org/2001/mstts" ++ dq
  ++ js " version=" ++ dq ++ js "1.0" ++ dq
  ++ js " xml:lang=" ++ dq ++ js "en-US" ++ dq
  ++ js "><voice name=" ++ dq ++ voiceName ++ dq
  ++ js "><mstts:express-as style=" ++ dq ++ style ++ dq
  ++ js "><prosody rate=" ++ dq ++ rate ++ js "%" ++ dq
  ++ js " pitch=" ++ dq ++ pitch ++ js "%" ++ dq ++ js ">".

Definition ssmlTail : JSString :=
  js "</prosody></mstts:express-as></voice></speak>".

Definition getSsml (text voiceName rate pitch style : JSString) : JSString :=
  let sanitizedText := sanitize text in
  ssmlHead voiceName rate pitch style ++ sanitizedText ++ ssmlTail.

(** Whether [s] starts with [p]. *)
Fixpoint startsWith (p s : JSString) : bool :=
  match p, s with
  | [], _ => true
  | _ :: _, [] => false
  | a :: p', b :: s' => (a =? b)%N && startsWith p' s'
  end.

(** XML character data with [&], [<] and [>] escaped: no [<], no [>],
    and every [&] opens one of the entities [&amp;], [&lt;], [&gt;]. *)
Fixpoint markupEscaped (s : JSString) : bool :=
  match s with
  | [] => true
  | c :: s' =>
      (if (c =? 60)%N || (c =? 62)%N then false
       else if (c =? 38)%N then
         startsWith (js "amp;") s' || startsWith (js "lt;") s'
         || startsWith (js "gt;") s'
       else true)
      && markupEscaped s'
  end.

End Ssml.
Import Ssml.

(** ** The credential cache: [tokenInfo] and [getEndpoint] *)

Module Credential.

(** An error value, identified with its message. *)
Abbreviation Error := JSString.

(** The JSON body of the identity service's answer: region [r] and
    token [t]. *)
Record Endpoint := { r : JSString; t : JSString }.

(** [tokenInfo]; [None] is [null] (or an absent [exp] claim). *)
Record TokenInfo := {
  endpoint : option Endpoint;
  token : option JSString;
  expiredAt : option Z
}.

(** [let tokenInfo = { endpoint: null, token: null, expiredAt: null }]. *)
Definition initialTokenInfo : TokenInfo :=
  {| endpoint := None; token := None; expiredAt := None |}.

Definition TOKEN_REFRESH_BEFORE_EXPIRY : Z := 5 * 60.

Definition endpointUrl : JSString :=
  js "https://dev.microsofttranslator.com/apps/endpoint?api-version=1.0".

(** What the [try] block of [getEndpoint] meets up to the assignment of
    [tokenInfo]: either something throws before it (the fetch rejects,
    the status is not ok, the body is not JSON, the token is not a
    decodable JWT), or [data] and [decodedJwt.exp] are obtained. *)
Inductive Exchange :=
| ExchangeFailed (error : Error)
| ExchangeOk (data : Endpoint) (exp : option Z).

Inductive Completion (A : Type) :=
| Returned (a : A)
| Thrown (error : Error).
Arguments Returned {A} a.
Arguments Thrown {A} error.

(** Truthiness of [tokenInfo.token] and of [tokenInfo.expiredAt]. *)
Definition tokenTruthy (o : option JSString) : bool :=
  match o with Some s => truthy s | None => false end.

Definition numberTruthy (o : option Z) : bool :=
  match o with Some n => negb (n =? 0) | None => false end.

(** [now < tokenInfo.expiredAt - TOKEN_REFRESH_BEFORE_EXPIRY] with
    [now = Date.now() / 1000]: the comparison of the quotient with an
    integer number of seconds, stated on the milliseconds. *)
Definition beforeRefresh (nowMs : Z) (o : option Z) : bool :=
  match o with
  | Some e => nowMs <? (e - TOKEN_REFRESH_BEFORE_EXPIRY) * 1000
  | None => false
  end.

(** The outcome of one call: the value returned or the error thrown,
    [tokenInfo] afterwards, and the URLs fetched. *)
Record Run := {
  result : Completion (option Endpoint);
  cache : TokenInfo;
  fetched : list JSString
}.

Definition getEndpoint (tokenInfo : TokenInfo) (nowMs : Z) (net : Exchange)
  : Run :=
  if tokenTruthy (token tokenInfo) && numberTruthy (expiredAt tokenInfo)
     && beforeRefresh nowMs (expiredAt tokenInfo)
  then {| result := Returned (endpoint tokenInfo);
          cache := tokenInfo; fetched := [] |}
  else
    match net with
    | ExchangeOk data exp =>
        {| result := Returned (Some data);
           cache := {| endpoint := Some data; token := Some (t data);
                       expiredAt := exp |};
           fetched := [endpointUrl] |}
    | ExchangeFailed error =>
        {| result := (if tokenTruthy (token tokenInfo)
                      then Returned (endpoint tokenInfo)
                      else Thrown error);
           cache := tokenInfo; fetched := [endpointUrl] |}
    end.

End Credential.
Import Credential.

(** ** The batch pipeline: [getAudioChunk], [getVoice],
       [pipeChunksToStream], [streamVoice]

    The asynchronous functions are computations over a [World] that
    counts the calls of [getAudioChunk] started so far, records the trace
    of events and holds the state of the stream writer.  The network is an
    oracle: how the [n]-th call ends and how long it takes.  Every call
    that is started settles; the promises of a batch settle in the order
    of their latencies.  The [for] loops take fuel, one unit per turn; a
    run that exhausts it is a run that is still looping. *)

Module Pipeline.

(** Audio bytes. *)
Abbreviation Blob := (list Byte.byte).

Inductive Response :=
| AudioResponse (body : Blob)
| StreamResponse
| ErrorResponse (message : JSString) (status : Z) (code : JSString).

(** What a run does, in the order it does it: the [n]-th call of
    [getAudioChunk] is started, an awaited batch settles, the stream
    writer is written to, aborted or closed, a [Response] is produced. *)
Inductive Event :=
| EvDispatch (n : nat) (text : JSString)
| EvBatchSettled (fulfilled : bool)
| EvWrite (bytes : Blob)
| EvAbort (reason : Error)
| EvClose
| EvResponse (response : Response).

(** The state of the writable side of the [TransformStream]. *)
Inductive WriterState :=
| Writable
| Closed
| Errored (reason : Error).

Record World := {
  calls : nat;
  trace : list Event;
  writer : WriterState
}.

Definition initialWorld : World :=
  {| calls := 0; trace := []; writer := Writable |}.

(** How a piece of code ends: normally, by a throw, or not at all
    ([Diverge]: still running when the fuel is spent). *)
Inductive Outcome (A : Type) :=
| Normal (a : A)
| Throw (error : Error)
| Diverge.
Arguments Normal {A} a.
Arguments Throw {A} error.
Arguments Diverge {A}.

Definition M (A : Type) : Type := World → Outcome A * World.

#[global] Instance M_ret : MRet M := λ A a w, (Normal a, w).

#[global] Instance M_bind : MBind M := λ A B f m w,
  match m w with
  | (Normal a, w') => f a w'
  | (Throw error, w') => (Throw error, w')
  | (Diverge, w') => (Diverge, w')
  end.

Definition throw {A} (error : Error) : M A := λ w, (Throw error, w).

Definition diverge {A} : M A := λ w, (Diverge, w).

Definition logEvent (ev : Event) (w : World) : World :=
  {| calls := calls w; trace := trace w ++ [ev]; writer := writer w |}.

Definition emit (ev : Event) : M unit := λ w, (Normal tt, logEvent ev w).

(** [try { body } catch (error) { handler error }]. *)
Definition tryCatch {A} (body : M A) (handler : Error → M A) : M A := λ w,
  match body w with
  | (Throw error, w') => handler error w'
  | other => other
  end.

(** [try { body } finally { cleanup }]: the cleanup runs on every exit of
    the body and its own throw replaces the body's completion. *)
Definition tryFinally {A} (body : M A) (cleanup : M unit) : M A := λ w,
  match body w with
  | (Diverge, w') => (Diverge, w')
  | (completion, w') =>
      match cleanup w' with
      | (Normal _, w'') => (completion, w'')
      | (Throw error, w'') => (Throw error, w'')
      | (Diverge, w'') => (Diverge, w'')
      end
  end.

(** [writer.write(bytes)]: the returned promise is not awaited, so the
    call never throws; the trace records it. *)
Definition writerWrite (bytes : Blob) : M unit := emit (EvWrite bytes).

(** [writer.abort(reason)]: a writable stream becomes errored. *)
Definition writerAbort (reason : Error) : M unit := λ w,
  (Normal tt,
   {| calls := calls w; trace := trace w ++ [EvAbort reason];
      writer := match writer w with Writable => Errored reason | s => s end |}).

(** [writer.close()]: a writable stream becomes closed; on an errored or
    closed one the returned promise rejects, and nobody awaits it. *)
Definition writerClose : M unit := λ w,
  (Normal tt,
   {| calls := calls w; trace := trace w ++ [EvClose];
      writer := match writer w with Writable => Closed | s => s end |}).

(** [return new Response(...)]. *)
Definition respond (response : Response) : M Response :=
  _ ← emit (EvResponse response); mret response.

Definition errorResponse (message : JSString) (status : Z) (code : JSString)
  : Response := ErrorResponse message status code.

(** A pending call of [getAudioChunk]: its number and how it will settle. *)
Abbreviation Promise := (nat * Completion Blob)%type.

(** State of the promise returned by [Promise.all]. *)
Inductive PromiseState :=
| Fulfilled (values : list Blob)
| Rejected (reason : Error)
| Pending.

(** [await p]. *)
Definition await (p : PromiseState) : M (list Blob) :=
  match p with
  | Fulfilled values => _ ← emit (EvBatchSettled true); mret values
  | Rejected reason => _ ← emit (EvBatchSettled false); throw reason
  | Pending => diverge
  end.

(** [Promise.all] as the promises settle one after the other in [order]:
    a fulfilment stores its value at the promise's own index, the first
    rejection rejects the whole. *)
Fixpoint settle (order : list nat) (promises : list Promise)
    (values : list (option Blob)) : Completion (list (option Blob)) :=
  match order with
  | [] => Returned values
  | k :: order' =>
      match promises !! k with
      | Some (_, Returned v) => settle order' promises (<[k := Some v]> values)
      | Some (_, Thrown reason) => Thrown reason
      | None => settle order' promises values
      end
  end.

(** [a] settles no later than [b]; both are (index in the batch, time). *)
Definition settlesBefore (a b : nat * nat) : Prop := (a.2 ≤ b.2)%nat.

#[global] Instance settlesBefore_dec a b : Decision (settlesBefore a b) :=
  decide (a.2 ≤ b.2)%nat.

Section Backend.

(** The network: [backend n text] is how the [n]-th call of
    [getAudioChunk] of the run, made for [text], ends (the blob of the
    response, or the error thrown on a non-ok status or a failed
    credential), and [latency n] is the time it takes. *)
Variable backend : nat → JSString → Completion Blob.
Variable latency : nat → nat.

(** [getAudioChunk(chunk, ...ttsArgs)]: starts the call and returns its
    promise. *)
Definition getAudioChunk (text : JSString) : M Promise := λ w,
  (Normal (calls w, backend (calls w) text),
   {| calls := S (calls w); trace := trace w ++ [EvDispatch (calls w) text];
      writer := writer w |}).

(** The order in which the promises of a batch settle: by latency. *)
Definition completionOrder (promises : list Promise) : list nat :=
  fst <$> merge_sort settlesBefore
            (imap (λ k (p : Promise), (k, latency p.1)) promises).

Definition promiseAll (promises : list Promise) : PromiseState :=
  match settle (completionOrder promises) promises
          (replicate (length promises) None) with
  | Thrown reason => Rejected reason
  | Returned values =>
      match mapM id values with
      | Some values => Fulfilled values
      | None => Pending
      end
  end.

(** The [for] loop of [getVoice], from index [i] on. *)
Fixpoint getVoiceLoop (fuel : nat) (textChunks : list JSString)
    (concurrency i : Z) (allAudioBlobs : list Blob) : M (list Blob) :=
  match fuel with
  | O => diverge
  | S fuel' =>
      if i <? jslength textChunks then
        let batch := slice textChunks i (i + concurrency) in
        audioPromises ← mapM getAudioChunk batch;
        audioBlobs ← await (promiseAll audioPromises);
        getVoiceLoop fuel' textChunks concurrency (i + concurrency)
          (allAudioBlobs ++ audioBlobs)
      else mret allAudioBlobs
  end.

Definition getVoice (fuel : nat) (textChunks : list JSString)
    (concurrency : Z) : M Response :=
  tryCatch
    (allAudioBlobs ← getVoiceLoop fuel textChunks concurrency 0 [];
     let concatenatedAudio := concat allAudioBlobs in
     respond (AudioResponse concatenatedAudio))
    (λ error, respond (errorResponse error 500 (js "tts_generation_error"))).

(** The [for] loop of [pipeChunksToStream], from index [i] on. *)
Fixpoint pipeLoop (fuel : nat) (chunks : list JSString)
    (concurrency i : Z) : M unit :=
  match fuel with
  | O => diverge
  | S fuel' =>
      if i <? jslength chunks then
        let batch := slice chunks i (i + concurrency) in
        audioPromises ← mapM getAudioChunk batch;
        audioBlobs ← await (promiseAll audioPromises);
        _ ← mapM writerWrite audioBlobs;
        pipeLoop fuel' chunks concurrency (i + concurrency)
      else mret tt
  end.

Definition pipeChunksToStream (fuel : nat) (chunks : list JSString)
    (concurrency : Z) : M unit :=
  tryFinally
    (tryCatch (pipeLoop fuel chunks concurrency 0)
       (λ error, _ ← writerAbort error; throw error))
    writerClose.

Definition streamVoice (fuel : nat) (textChunks : list JSString)
    (concurrency : Z) : M Response :=
  tryCatch
    (_ ← pipeChunksToStream fuel textChunks concurrency;
     respond StreamResponse)
    (λ error, respond (errorResponse error 500 (js "tts_generation_error"))).

(** The fields of the request body the pipeline depends on; [None] is an
    absent field. *)
Record RequestBody := {
  body_input : JSString;
  body_stream : option bool;
  body_concurrency : option Z;
  body_chunk_size : option Z
}.

Definition DEFAULT_CONCURRENCY : Z := 10.
Definition DEFAULT_CHUNK_SIZE : Z := 300.

(** The text-cleaning pipeline, with the cleaning options of the request
    applied. *)
Variable cleanText : JSString → JSString.

(** [handleSpeechRequest] after the method check and the JSON parse. *)
Definition handleSpeechRequest (fuel : nat) (requestBody : RequestBody)
  : M Response :=
  if negb (truthy (body_input requestBody)) then
    respond (errorResponse (js "'input' is a required parameter.") 400
               (js "invalid_request_error"))
  else
    let stream := default false (body_stream requestBody) in
    let concurrency := default DEFAULT_CONCURRENCY (body_concurrency requestBody) in
    let chunk_size := default DEFAULT_CHUNK_SIZE (body_chunk_size requestBody) in
    let cleanedInput := cleanText (body_input requestBody) in
    match smartChunkText cleanedInput chunk_size with
    | None => diverge
    | Some textChunks =>
        if stream then streamVoice fuel textChunks concurrency
        else getVoice fuel textChunks concurrency
    end.

End Backend.

(** The batches the specification speaks of: consecutive slices of [size]
    elements, the last one possibly shorter. *)
Fixpoint batchesFuel {A} (fuel : nat) (size : nat) (l : list A) : list (list A) :=
  match fuel, l with
  | _, [] => []
  | O, _ => []
  | S fuel', _ => take size l :: batchesFuel fuel' size (drop size l)
  end.

Definition batches {A} (size : nat) (l : list A) : list (list A) :=
  batchesFuel (length l) size l.

(** The elements of a list with their numbers, counted from [base]. *)
Fixpoint number {A} (base : nat) (l : list A) : list (nat * A) :=
  match l with
  | [] => []
  | x :: l' => (base, x) :: number (S base) l'
  end.

(** How the calls made for [chunks] end when they are the calls number
    [base], [base + 1], ... of the run. *)
Definition outcomes (backend : nat → JSString → Completion Blob)
    (base : nat) (chunks : list JSString) : list (Completion Blob) :=
  (λ job : nat * JSString, backend job.1 job.2) <$> number base chunks.

(** The promises of a batch whose first call is number [base]. *)
Definition promisesOf (backend : nat → JSString → Completion Blob)
    (base : nat) (batch : list JSString) : list Promise :=
  (λ job : nat * JSString, (job.1, backend job.1 job.2)) <$> number base batch.

Definition dispatchEvents (jobs : list (nat * JSString)) : list Event :=
  (λ job : nat * JSString, EvDispatch job.1 job.2) <$> jobs.

(** The events of one batch that succeeds: its calls are started, the
    batch settles, and in streaming mode its blobs are written. *)
Definition batchEvents (stream : bool) (jobs : list (nat * JSString))
    (values : list Blob) : list Event :=
  dispatchEvents jobs ++ [EvBatchSettled true]
  ++ (if stream then EvWrite <$> values else []).

(** The events of a run whose batches all succeed. *)
Definition batchesTrace (stream : bool) (size : nat)
    (jobs : list (nat * JSString)) (values : list Blob) : list Event :=
  concat (zip_with (batchEvents stream) (batches size jobs) (batches size values)).

(** The world after the calls of the batch at position [n] have been
    started, as the calls number [base + n] and on, and the batch has
    settled. *)
Definition afterBatch (chunks : list JSString) (concurrency : Z)
    (base n : nat) (fulfilled : bool) (w : World) : World :=
  {| calls := base + n + length (take (Z.to_nat concurrency) (drop n chunks));
     trace := trace w
              ++ dispatchEvents
                   (take (Z.to_nat concurrency) (drop n (number base chunks)))
              ++ [EvBatchSettled fulfilled];
     writer := writer w |}.

(** The calls started and the blobs written, read off a trace. *)
Definition dispatched (tr : list Event) : list (nat * JSString) :=
  omap (λ ev, match ev with EvDispatch n text => Some (n, text) | _ => None end) tr.

Definition written (tr : list Event) : list Blob :=
  omap (λ ev, match ev with EvWrite bytes => Some bytes | _ => None end) tr.

(** A run, as a function of the fuel, ends or never ends. *)
Definition terminates {A} (run : nat → M A) (w : World) : Prop :=
  ∃ fuel, (run fuel w).1 ≠ Diverge.

Definition neverTerminates {A} (run : nat → M A) (w : World) : Prop :=
  ∀ fuel, (run fuel w).1 = Diverge.

Definition isSettled (ev : Event) : bool :=
  match ev with EvBatchSettled _ => true | _ => false end.

Definition isResponse (ev : Event) : bool :=
  match ev with EvResponse _ => true | _ => false end.

(** A [Response] is produced while a batch has still to settle: in the
    trace, some batch settles after a [Response] event. *)
Fixpoint respondsBeforeLastBatch (tr : list Event) : bool :=
  match tr with
  | [] => false
  | EvResponse _ :: post => existsb isSettled post || respondsBeforeLastBatch post
  | _ :: post => respondsBeforeLastBatch post
  end.

(** A backend for the examples: call [n] answers [n + 1] bytes. *)
Definition sampleBackend (n : nat) (text : JSString) : Completion Blob :=
  Returned (replicate (S n) Byte.x2a).

(** The same backend, with a non-ok status for call [bad]. *)
Definition failingBackend (bad : nat) (n : nat) (text : JSString)
  : Completion Blob :=
  if (n =? bad)%nat then Thrown (js "Edge TTS API error: 500")
  else sampleBackend n text.

(** Latencies for the examples: the later a call starts, the sooner it
    completes. *)
Definition sampleLatency (n : nat) : nat := (10 - n)%nat.

End Pipeline.
Import Pipeline.

(** ** Further notions on the segmenter *)

Module SegmenterSpec.

(** A part without a boundary character, and a part made of boundary
    characters only. *)
Definition plainPart (part : JSString) : Prop :=
  Forall (λ c, isBoundary c = false) part.

Definition boundaryRun (part : JSString) : Prop :=
  part ≠ [] ∧ Forall (λ c, isBoundary c = true) part.

(** The shape of the result of the split: a plain part, then runs of
    boundary characters and plain parts in turn. *)
Fixpoint alternating (parts : list JSString) : Prop :=
  match parts with
  | [] => False
  | [p] => plainPart p
  | p :: r :: rest => plainPart p ∧ boundaryRun r ∧ alternating rest
  end.

(** Each part that does not trim to nothing, trimmed, on its own. *)
Definition ownChunks (parts : list JSString) : list JSString :=
  omap (λ part, if truthy (trim part) then Some (trim part) else None) parts.

End SegmenterSpec.
Import SegmenterSpec.

(** ** Further notions on the credential cache *)

Module CredentialSpec.

(** Successive calls of [getEndpoint], each with its time and the
    exchange it meets, [tokenInfo] being handed from one to the next. *)
Fixpoint getEndpointRuns (tokenInfo : TokenInfo)
    (callList : list (Z * Exchange)) : list Run :=
  match callList with
  | [] => []
  | (nowMs, net) :: rest =>
      let run := getEndpoint tokenInfo nowMs net in
      run :: getEndpointRuns (cache run) rest
  end.

(** [tokenInfo] is as it was at the start, or holds the answer of one
    exchange together with that answer's token. *)
Definition coherent (tokenInfo : TokenInfo) : Prop :=
  match endpoint tokenInfo, token tokenInfo with
  | None, None => True
  | Some data, Some tok => tok = t data
  | _, _ => False
  end.

(** The cache is usable without a fetch at time [nowMs]. *)
Definition cacheFresh (tokenInfo : TokenInfo) (nowMs : Z) : Prop :=
  ∃ tok exp,
    token tokenInfo = Some tok ∧ tok ≠ []
    ∧ expiredAt tokenInfo = Some exp ∧ exp ≠ 0
    ∧ nowMs < (exp - 5 * 60) * 1000.

End CredentialSpec.
Import CredentialSpec.

(** ** The text cleaning: [cleanText] *)

Module Cleaning.

(** The cleaning options in force. *)
Record CleaningOptions := {
  remove_markdown : bool;
  remove_emoji : bool;
  remove_urls : bool;
  remove_line_breaks : bool;
  remove_citation_numbers : bool;
  custom_keywords : JSString
}.

(** [cleaning_options] of the request body; [None] is an absent field. *)
Record CleaningRequest := {
  req_remove_markdown : option bool;
  req_remove_emoji : option bool;
  req_remove_urls : option bool;
  req_remove_line_breaks : option bool;
  req_remove_citation_numbers : option bool;
  req_custom_keywords : option JSString
}.

(** [{ remove_markdown: true, ..., custom_keywords: "", ...cleaning_options }]. *)
Definition finalCleaningOptions (cleaning_options : CleaningRequest)
  : CleaningOptions :=
  {| remove_markdown := default true (req_remove_markdown cleaning_options);
     remove_emoji := default true (req_remove_emoji cleaning_options);
     remove_urls := default true (req_remove_urls cleaning_options);
     remove_line_breaks := default true (req_remove_line_breaks cleaning_options);
     remove_citation_numbers :=
       default true (req_remove_citation_numbers cleaning_options);
     custom_keywords := default [] (req_custom_keywords cleaning_options) |}.

(** The replacements of the stages 1 to 4, which are regular expression
    replacements this development does not interpret: whatever functions
    on strings they are, the properties below hold.  [stripKeywords]
    takes the keyword list, as the string of the option, first. *)
Record Stages := {
  stripUrls : JSString → JSString;
  stripMarkdown : JSString → JSString;
  stripKeywords : JSString → JSString → JSString;
  stripEmoji : JSString → JSString;
  stripCitations : JSString → JSString
}.

(** [cleanText(text, options)].  Stage 5 is [replace(/\s+/g, '')], which
    removes every whitespace character; stage 6 is the final [trim]. *)
Definition cleanText (stages : Stages) (text : JSString)
    (options : CleaningOptions) : JSString :=
  let cleanedText := text in
  let cleanedText :=
    if remove_urls options then stripUrls stages cleanedText else cleanedText in
  let cleanedText :=
    if remove_markdown options then stripMarkdown stages cleanedText
    else cleanedText in
  let cleanedText :=
    if truthy (custom_keywords options)
    then stripKeywords stages (custom_keywords options) cleanedText
    else cleanedText in
  let cleanedText :=
    if remove_emoji options then stripEmoji stages cleanedText else cleanedText in
  let cleanedText :=
    if remove_citation_numbers options then stripCitations stages cleanedText
    else cleanedText in
  let cleanedText :=
    if remove_line_breaks options then stripWhiteSpace cleanedText
    else cleanedText in
  trim cleanedText.

End Cleaning.
Import Cleaning.

(** ** One synthesis call in full: [getAudioChunk] *)

Module Synthesis.

(** The request sent to the speech service. *)
Record TtsRequest := {
  req_url : JSString;
  req_authorization : JSString;
  req_outputFormat : JSString;
  req_body : JSString
}.

(** What the [fetch] of the speech service meets: a rejection, or a
    response with its status, status text and body, the body being read
    as a text or as a blob. *)
Inductive TtsReply :=
| FetchRejected (error : Error)
| HttpReply (status : Z) (statusText : JSString) (bodyText : JSString)
    (bodyBlob : Blob).

(** [response.ok]. *)
Definition statusOk (status : Z) : bool := (200 <=? status) && (status <=? 299).

(** A number in a template literal. *)
Definition decimal (n : Z) : JSString := js (NilZero.string_of_int (Z.to_int n)).

(** The error thrown by [endpoint.r] when [endpoint] is [null]. *)
Definition nullEndpointError : Error :=
  js "Cannot read properties of null (reading 'r')".

(** The outcome of one call: the blob or the error, [tokenInfo]
    afterwards, the URLs fetched for the credential, and the requests
    sent to the speech service. *)
Record AudioRun := {
  audio : Completion Blob;
  tokenAfter : TokenInfo;
  credentialFetches : list JSString;
  requests : list TtsRequest
}.

Definition getAudioChunkFull (tokenInfo : TokenInfo) (nowMs : Z)
    (net : Exchange) (reply : TtsReply)
    (text voiceName rate pitch style outputFormat : JSString) : AudioRun :=
  let run := getEndpoint tokenInfo nowMs net in
  match result run with
  | Thrown error =>
      {| audio := Thrown error; tokenAfter := cache run;
         credentialFetches := fetched run; requests := [] |}
  | Returned None =>
      {| audio := Thrown nullEndpointError; tokenAfter := cache run;
         credentialFetches := fetched run; requests := [] |}
  | Returned (Some endpoint) =>
      let url := js "https://" ++ r endpoint
                 ++ js ".tts.speech.microsoft.com/cognitiveservices/v1" in
      let ssml := getSsml text voiceName rate pitch style in
      let request :=
        {| req_url := url; req_authorization := t endpoint;
           req_outputFormat := outputFormat; req_body := ssml |} in
      {| audio :=
           match reply with
           | FetchRejected error => Thrown error
           | HttpReply status statusText bodyText bodyBlob =>
               if negb (statusOk status) then
                 Thrown (js "Edge TTS API error: " ++ decimal status ++ js " "
                         ++ statusText ++ js " - " ++ bodyText)
               else Returned bodyBlob
           end;
         tokenAfter := cache run;
         credentialFetches := fetched run;
         requests := [request] |}
  end.

End Synthesis.
Import Synthesis.

(** ** Further notions on the pipeline *)

Module PipelineSpec.

(** The texts the calls started in a trace were made for. *)
Definition dispatchTexts (tr : list Event) : list JSString :=
  (λ job : nat * JSString, job.2) <$> dispatched tr.

(** The longest run of calls started without a batch settling in
    between, [current] being the length of the run under way. *)
Fixpoint dispatchRuns (tr : list Event) (current : nat) : nat :=
  match tr with
  | [] => current
  | EvDispatch _ _ :: tr' => dispatchRuns tr' (S current)
  | EvBatchSettled _ :: tr' => Nat.max current (dispatchRuns tr' 0)
  | _ :: tr' => dispatchRuns tr' current
  end.

Definition longestDispatchRun (tr : list Event) : nat := dispatchRuns tr 0.

(** What a loop over [chunks] adds to the world, whatever the outcomes
    of the calls and the fuel: events, among which the calls started are
    for texts of [chunks] and, when the concurrency is not negative, come
    in runs of at most [concurrency]; the writer is left alone. *)
Definition loopEvents (chunks : list JSString) (concurrency : Z)
    (w w' : World) : Prop :=
  ∃ evs,
    trace w' = trace w ++ evs
    ∧ writer w' = writer w
    ∧ Forall (λ job : nat * JSString, job.2 ∈ chunks) (dispatched evs)
    ∧ (0 <= concurrency → (dispatchRuns evs 0 ≤ Z.to_nat concurrency)%nat)
    ∧ Forall (λ ev, match ev with
                    | EvDispatch _ _ | EvBatchSettled _ | EvWrite _ => True
                    | _ => False
                    end) evs.

End PipelineSpec.
Import PipelineSpec.

(** ** The entry point: [handleRequest], [handleOptions],
       [handleModelsRequest] and the head of [handleSpeechRequest] *)

Module Router.

(** [a === b] on strings. *)
Fixpoint jsEq (a b : JSString) : bool :=
  match a, b with
  | [], [] => true
  | x :: a', y :: b' => (x =? y)%N && jsEq a' b'
  | _, _ => false
  end.

(** A parsed request body: the fields the pipeline reads and the
    cleaning options. *)
Record SpeechBody := {
  speech_fields : RequestBody;
  speech_cleaning : CleaningRequest
}.

(** An incoming request: method, [authorization] header, path of the
    URL, [Access-Control-Request-Headers] header, and how
    [request.json()] ends.  [None] is an absent header. *)
Record HttpRequest := {
  http_method : JSString;
  http_authorization : option JSString;
  http_pathname : JSString;
  http_requestHeaders : option JSString;
  http_json : Completion SpeechBody
}.

(** The responses of the worker: the answer to a preflight request, with
    the value given for [Access-Control-Allow-Headers]; the list of
    models, by their ids; the others. *)
Inductive RouterResponse :=
| Preflight (allowHeaders : option JSString)
| Models (ids : list JSString)
| Plain (response : Response).

(** [Object.keys(OPENAI_VOICE_MAP)]. *)
Definition OPENAI_VOICE_NAMES : list JSString :=
  [js "shimmer"; js "alloy"; js "fable"; js "onyx"; js "nova"; js "echo"].

(** [handleOptions]: the header of the request is handed to
    [makeCORSHeaders] as it is, [null] when absent, and the default of the
    parameter stands in for [undefined] only. *)
Definition handleOptions (request : HttpRequest) : RouterResponse :=
  Preflight (http_requestHeaders request).

Definition handleModelsRequest : RouterResponse :=
  Models ([js "tts-1"; js "tts-1-hd"]
          ++ ((λ v, js "tts-1-" ++ v) <$> OPENAI_VOICE_NAMES)).

(** The test of the [authorization] header against the key. *)
Definition authorized (apiKey : JSString) (authHeader : option JSString) : bool :=
  match authHeader with
  | None => false
  | Some h => truthy h && startsWith (js "Bearer ") h && jsEq (drop 7 h) apiKey
  end.

Section Worker.

Variable backend : nat → JSString → Completion Blob.
Variable latency : nat → nat.
Variable stages : Stages.

(** [handleSpeechRequest] from its first line: the method check and the
    parse of the body, then the rest. *)
Definition handleSpeechRequestEntry (fuel : nat) (request : HttpRequest)
  : M RouterResponse :=
  if negb (jsEq (http_method request) (js "POST")) then
    response ← respond (errorResponse (js "Method Not Allowed") 405
                          (js "method_not_allowed"));
    mret (Plain response)
  else
    match http_json request with
    | Thrown error => throw error
    | Returned requestBody =>
        response ←
          handleSpeechRequest backend latency
            (λ text, cleanText stages text
                       (finalCleaningOptions (speech_cleaning requestBody)))
            fuel (speech_fields requestBody);
        mret (Plain response)
    end.

(** [handleRequest]; [API_KEY] is [None] when the global is not set. *)
Definition handleRequest (API_KEY : option JSString) (fuel : nat)
    (request : HttpRequest) : M RouterResponse :=
  if jsEq (http_method request) (js "OPTIONS") then mret (handleOptions request)
  else
    let keyFails :=
      match API_KEY with
      | Some key => truthy key && negb (authorized key (http_authorization request))
      | None => false
      end in
    if keyFails then
      response ← respond (errorResponse (js "Invalid API key.") 401
                            (js "invalid_api_key"));
      mret (Plain response)
    else
      routed ←
        tryCatch
          (if jsEq (http_pathname request) (js "/v1/audio/speech") then
             response ← handleSpeechRequestEntry fuel request;
             mret (Some response)
           else if jsEq (http_pathname request) (js "/v1/models") then
             mret (Some handleModelsRequest)
           else mret None)
          (λ err,
             response ← respond (errorResponse err 500
                                   (js "internal_server_error"));
             mret (Some (Plain response)));
      match routed with
      | Some response => mret response
      | None =>
          response ← respond (errorResponse (js "Not Found") 404 (js "not_found"));
          mret (Plain response)
      end.

End Worker.

End Router.
Import Router.

(** ** Base64: [btoa], [atob], [bytesToBase64], [base64ToBytes] *)

Module Base64.











(** A [Uint8Array], and what storing a number in it keeps. *)
Abbreviation Bytes := (list Byte.byte).






End Base64.
Import Base64.

(** * Properties *)

(** ** Facts on the built-ins *)

Module JSFacts.

Lemma jslength_app {A} (l k : list A) :
  jslength (l ++ k) = jslength l + jslength k.
Proof. unfold jslength. rewrite length_app. lia. Qed.

Lemma jslength_nonneg {A} (l : list A) : 0 <= jslength l.
Proof. unfold jslength. lia. Qed.

Lemma truthy_true (s : JSString) : truthy s = true ↔ s ≠ [].
Proof. destruct s; simpl; split; congruence. Qed.

Lemma truthy_false (s : JSString) : truthy s = false ↔ s = [].
Proof. destruct s; simpl; split; congruence. Qed.

Lemma strip_app (s u : JSString) :
  stripWhiteSpace (s ++ u) = stripWhiteSpace s ++ stripWhiteSpace u.
Proof. apply filter_app. Qed.

Lemma strip_trimStart (s : JSString) :
  stripWhiteSpace (trimStart s) = stripWhiteSpace s.
Proof.
  induction s as [|c s IH]; [done|].
  simpl. destruct (isWhiteSpace c) eqn:E; [|done].
  rewrite IH. unfold stripWhiteSpace. rewrite filter_cons_False; [done|].
  congruence.
Qed.

Lemma strip_reverse (s : JSString) :
  stripWhiteSpace (reverse s) = reverse (stripWhiteSpace s).
Proof. apply filter_reverse. Qed.

Lemma strip_trimEnd (s : JSString) :
  stripWhiteSpace (trimEnd s) = stripWhiteSpace s.
Proof.
  unfold trimEnd.
  by rewrite strip_reverse, strip_trimStart, strip_reverse, reverse_involutive.
Qed.

(** Trimming removes whitespace only. *)
Lemma strip_trim (s : JSString) : stripWhiteSpace (trim s) = stripWhiteSpace s.
Proof. unfold trim. by rewrite strip_trimEnd, strip_trimStart. Qed.

Lemma trimStart_nil (s : JSString) :
  trimStart s = [] ↔ stripWhiteSpace s = [].
Proof.
  induction s as [|c s IH]; [done|].
  simpl. unfold stripWhiteSpace in *.
  destruct (isWhiteSpace c) eqn:E.
  - rewrite filter_cons_False by congruence. done.
  - rewrite filter_cons_True by done. done.
Qed.

(** A string trims to nothing exactly when it is all whitespace. *)
Lemma trim_nil (s : JSString) : trim s = [] ↔ stripWhiteSpace s = [].
Proof.
  unfold trim, trimEnd.
  rewrite <- (strip_trimStart s).
  set (u := trimStart s).
  split.
  - intros H. apply (f_equal reverse) in H.
    rewrite reverse_involutive in H. simpl in H.
    apply trimStart_nil in H. rewrite strip_reverse in H.
    apply (f_equal reverse) in H. by rewrite reverse_involutive in H.
  - intros H.
    assert (trimStart (reverse u) = []) as ->; [|done].
    apply trimStart_nil. by rewrite strip_reverse, H.
Qed.

Lemma trim_trim_nonempty (s : JSString) : trim s ≠ [] → trim (trim s) ≠ [].
Proof. rewrite !trim_nil, strip_trim. done. Qed.

Lemma whitespaceOnly_strip (s : JSString) :
  whitespaceOnly s ↔ stripWhiteSpace s = [].
Proof.
  unfold whitespaceOnly, stripWhiteSpace.
  induction s as [|c s IH]; [done|].
  rewrite Forall_cons, IH. destruct (isWhiteSpace c) eqn:E.
  - rewrite filter_cons_False by congruence. split; [by intros [_ ?]|done].
  - rewrite filter_cons_True by done. split; [by intros [? _]|done].
Qed.

Lemma trimStart_split (s : JSString) :
  ∃ lead, s = lead ++ trimStart s ∧ whitespaceOnly lead.
Proof.
  induction s as [|c s (lead & Hs & Hlead)].
  - exists []. by split; [|constructor].
  - simpl. destruct (isWhiteSpace c) eqn:E.
    + exists (c :: lead). split; [simpl; by f_equal|by constructor].
    + exists []. by split; [|constructor].
Qed.

(** A string is its trimmed form with whitespace before and after. *)
Lemma trim_split (s : JSString) :
  ∃ lead trail,
    s = lead ++ trim s ++ trail ∧ whitespaceOnly lead ∧ whitespaceOnly trail.
Proof.
  destruct (trimStart_split s) as (lead & Hs & Hlead).
  destruct (trimStart_split (reverse (trimStart s))) as (rtrail & Hr & Htrail).
  exists lead, (reverse rtrail). split; [|split; [done|]].
  - rewrite Hs at 1. f_equal. unfold trim, trimEnd.
    rewrite <- reverse_app, <- Hr. by rewrite reverse_involutive.
  - unfold whitespaceOnly. by rewrite Forall_reverse.
Qed.

Lemma trimStart_length (s : JSString) : (length (trimStart s) ≤ length s)%nat.
Proof.
  induction s as [|c s IH]; simpl; [lia|].
  destruct (isWhiteSpace c); simpl; lia.
Qed.

Lemma trim_length (s : JSString) : jslength (trim s) <= jslength s.
Proof.
  unfold jslength, trim, trimEnd. rewrite length_reverse.
  pose proof (trimStart_length (reverse (trimStart s))) as H1.
  pose proof (trimStart_length s) as H2.
  rewrite length_reverse in H1. lia.
Qed.

(** Inside the string and with a positive width, [substring] is a
    [take] after a [drop]. *)
Lemma substring_window (s : JSString) (i width : Z) :
  0 <= i → 0 < width →
  substring s i (i + width) = take (Z.to_nat width) (drop (Z.to_nat i) s).
Proof.
  intros Hi Hw. unfold substring, jslength.
  destruct (Z.le_gt_cases (Z.of_nat (length s)) i) as [Hout|Hin].
  - rewrite !drop_ge by lia. by rewrite !take_nil.
  - replace (Z.min (Z.min (Z.max i 0) (Z.of_nat (length s)))
               (Z.min (Z.max (i + width) 0) (Z.of_nat (length s)))) with i by lia.
    destruct (Z.le_gt_cases (i + width) (Z.of_nat (length s))).
    + f_equal. lia.
    + rewrite !take_ge; [done| |]; rewrite length_drop; lia.
Qed.

Example trim_example : trim (js "  a b ") = js "a b".
Proof. reflexivity. Qed.

Example slice_negative_end : slice [1; 2; 3; 4; 5] 0 (-1) = [1; 2; 3; 4].
Proof. reflexivity. Qed.

Example slice_negative_start : slice [1; 2; 3; 4; 5] (-1) (-2) = [].
Proof. reflexivity. Qed.

Example slice_past_end : slice [1; 2; 3; 4; 5] 4 6 = [5].
Proof. reflexivity. Qed.

Example substring_past_end : substring (js "abcde") 3 6 = js "de".
Proof. reflexivity. Qed.

End JSFacts.
Import JSFacts.

(** ** The segmenter *)

Module SegmenterFacts.

Example split_example :
  split (js "ab. cd,,e") = [js "ab"; js "."; js " cd"; js ",,"; js "e"].
Proof. reflexivity. Qed.

Example split_boundary_at_both_ends :
  split (js ".ab.") = [[]; js "."; js "ab"; js "."; []].
Proof. reflexivity. Qed.

Example smartChunkText_example :
  smartChunkText (js "Hello world. How are you? Fine, thanks") 12
  = Some [js "Hello world."; js "How are you"; js "? Fine,"; js "thanks"].
Proof. reflexivity. Qed.

Lemma concat_splitScan (s piece : JSString) (inRun : bool) :
  concat (splitScan s piece inRun) = reverse piece ++ s.
Proof.
  revert piece inRun.
  induction s as [|c s IH]; intros piece inRun; simpl.
  - destruct inRun; simpl; by rewrite ?app_nil_r.
  - destruct (isBoundary c), inRun; simpl; rewrite IH;
      rewrite ?reverse_cons, ?reverse_singleton; by rewrite <- ?app_assoc.
Qed.

(** The parts of the split, put back together, are the text. *)
Lemma concat_split (text : JSString) : concat (split text) = text.
Proof. unfold split. by rewrite concat_splitScan. Qed.

Lemma strip_pushTrimmed (chunks : list JSString) (currentChunk : JSString) :
  stripWhiteSpace (concat (pushTrimmed chunks currentChunk))
  = stripWhiteSpace (concat chunks) ++ stripWhiteSpace currentChunk.
Proof.
  unfold pushTrimmed.
  destruct (truthy (trim currentChunk)) eqn:E.
  - rewrite concat_app, strip_app. simpl.
    by rewrite app_nil_r, strip_trim.
  - apply truthy_false, trim_nil in E. by rewrite E, app_nil_r.
Qed.

(** The greedy loop neither loses nor reorders a non-whitespace
    character. *)
Lemma strip_fold (maxChunkLength : Z) (parts : list JSString) :
  ∀ chunks currentChunk,
    let st := fold_left (chunkStep maxChunkLength) parts (chunks, currentChunk) in
    stripWhiteSpace (concat st.1) ++ stripWhiteSpace st.2
    = stripWhiteSpace (concat chunks) ++ stripWhiteSpace currentChunk
      ++ stripWhiteSpace (concat parts).
Proof.
  induction parts as [|part parts IH]; intros chunks currentChunk; simpl.
  - by rewrite app_nil_r.
  - destruct (jslength currentChunk + jslength part <=? maxChunkLength).
    + cbv zeta in IH. rewrite IH, !strip_app. by rewrite <- !app_assoc.
    + cbv zeta in IH. rewrite IH, strip_pushTrimmed, !strip_app.
      by rewrite <- !app_assoc.
Qed.

Lemma strip_boundaryPass (text : JSString) (maxChunkLength : Z) :
  stripWhiteSpace (concat (boundaryPass text maxChunkLength))
  = stripWhiteSpace text.
Proof.
  unfold boundaryPass.
  pose proof (strip_fold maxChunkLength (split text) [] []) as H.
  cbv zeta in H.
  destruct (fold_left (chunkStep maxChunkLength) (split text) ([], []))
    as [chunks currentChunk].
  rewrite strip_pushTrimmed. simpl in H. by rewrite H, concat_split.
Qed.

(** With a positive width the fallback loop ends within the fuel that
    [smartChunkText] gives it, and cuts the rest of the text into
    non-empty slices of at most that width. *)
Lemma fallbackLoop_slices (text : JSString) (maxChunkLength : Z) :
  0 < maxChunkLength →
  ∀ fuel i chunks,
    0 <= i → Z.max 0 (jslength text - i) < Z.of_nat fuel →
    ∃ slices,
      fallbackLoop fuel text maxChunkLength i chunks = Some (chunks ++ slices)
      ∧ concat slices = drop (Z.to_nat i) text
      ∧ Forall (λ c, 0 < jslength c <= maxChunkLength) slices.
Proof.
  intros Hmax. induction fuel as [|fuel IH]; intros i chunks Hi Hfuel.
  - lia.
  - simpl. destruct (i <? jslength text) eqn:E.
    + apply Z.ltb_lt in E.
      destruct (IH (i + maxChunkLength)
                  (chunks ++ [substring text i (i + maxChunkLength)]))
        as (slices & Hrun & Hcat & Hall); [lia|lia|].
      exists (substring text i (i + maxChunkLength) :: slices).
      split; [|split].
      * rewrite Hrun. by rewrite <- app_assoc.
      * simpl. rewrite Hcat, substring_window by lia.
        rewrite Z2Nat.inj_add by lia.
        rewrite <- drop_drop. apply take_drop.
      * constructor; [|done].
        rewrite substring_window by lia. unfold jslength in *.
        rewrite length_take, length_drop. lia.
    + apply Z.ltb_ge in E. exists []. rewrite app_nil_r.
      split; [done|]. split; [|done].
      unfold jslength in E. rewrite drop_ge by lia. done.
Qed.

(** More fuel does not change the result of a run that ended. *)
Lemma fallbackLoop_fuel_mono (text : JSString) (maxChunkLength : Z) :
  ∀ fuel fuel' i chunks result,
    fallbackLoop fuel text maxChunkLength i chunks = Some result →
    (fuel ≤ fuel')%nat →
    fallbackLoop fuel' text maxChunkLength i chunks = Some result.
Proof.
  induction fuel as [|fuel IH]; intros fuel' i chunks result Hrun Hle;
    [done|].
  destruct fuel' as [|fuel']; [lia|].
  simpl in *. destruct (i <? jslength text); [|done].
  apply IH; [done|lia].
Qed.

Lemma concat_filter_nonempty (chunks : list JSString) :
  concat (filter (λ c, 0 < jslength c) chunks) = concat chunks.
Proof.
  induction chunks as [|c chunks IH]; [done|].
  destruct c as [|x c].
  - rewrite filter_cons_False; [done|]. unfold jslength. simpl. lia.
  - rewrite filter_cons_True; [|unfold jslength; simpl; lia].
    simpl. by rewrite IH.
Qed.

(** An invariant of a left fold holds at its end. *)
Lemma fold_left_invariant {S X} (Inv : S → Prop) (f : S → X → S) (l : list X) :
  (∀ s x, x ∈ l → Inv s → Inv (f s x)) →
  ∀ s, Inv s → Inv (fold_left f l s).
Proof.
  induction l as [|x l IH]; intros Hstep s Hs; simpl; [done|].
  apply IH.
  - intros s' x' Hx'. apply Hstep. by right.
  - apply Hstep; [by left|done].
Qed.

Lemma pushTrimmed_bounded (text : JSString) (maxChunkLength : Z)
    (chunks : list JSString) (currentChunk : JSString) :
  Forall (boundedOrWholePart text maxChunkLength) chunks →
  (jslength currentChunk <= maxChunkLength
   ∨ (currentChunk ∈ split text ∧ maxChunkLength < jslength currentChunk)) →
  Forall (boundedOrWholePart text maxChunkLength) (pushTrimmed chunks currentChunk).
Proof.
  intros Hchunks Hcur. unfold pushTrimmed.
  destruct (truthy (trim currentChunk)); [|done].
  apply Forall_app. split; [done|].
  constructor; [|done].
  destruct Hcur as [Hle|[Hin Hgt]].
  - left. pose proof (trim_length currentChunk). lia.
  - right. by exists currentChunk.
Qed.

Lemma boundaryPass_bounded (text : JSString) (maxChunkLength : Z) :
  0 <= maxChunkLength →
  Forall (boundedOrWholePart text maxChunkLength) (boundaryPass text maxChunkLength).
Proof.
  intros Hmax. unfold boundaryPass.
  pose proof (fold_left_invariant
    (λ st : list JSString * JSString,
       Forall (boundedOrWholePart text maxChunkLength) st.1
       ∧ (jslength st.2 <= maxChunkLength
          ∨ (st.2 ∈ split text ∧ maxChunkLength < jslength st.2)))
    (chunkStep maxChunkLength) (split text)) as H.
  destruct (fold_left (chunkStep maxChunkLength) (split text) ([], []))
    as [chunks currentChunk] eqn:E.
  destruct (H) with (s := ([] : list JSString, [] : JSString)) as [H1 H2].
  - intros [chunks' cur'] part Hpart [Hc Hcur]. simpl in *.
    destruct (jslength cur' + jslength part <=? maxChunkLength) eqn:Ele; simpl.
    + apply Z.leb_le in Ele. split; [done|]. left.
      rewrite jslength_app. lia.
    + apply Z.leb_gt in Ele. split.
      * by apply pushTrimmed_bounded.
      * destruct (Z.le_gt_cases (jslength part) maxChunkLength); [by left|].
        right. split; [done|lia].
  - simpl. split; [done|]. left. unfold jslength. simpl. lia.
  - rewrite E in H1, H2. simpl in *. by apply pushTrimmed_bounded.
Qed.

Lemma pushTrimmed_trims (chunks : list JSString) (currentChunk : JSString) :
  Forall (λ c, trim c ≠ []) chunks →
  Forall (λ c, trim c ≠ []) (pushTrimmed chunks currentChunk).
Proof.
  intros H. unfold pushTrimmed.
  destruct (truthy (trim currentChunk)) eqn:E; [|done].
  apply Forall_app. split; [done|].
  constructor; [|done]. by apply trim_trim_nonempty, truthy_true.
Qed.

(** Every chunk of the greedy pass has something left after a trim. *)
Lemma boundaryPass_trims (text : JSString) (maxChunkLength : Z) :
  Forall (λ c, trim c ≠ []) (boundaryPass text maxChunkLength).
Proof.
  unfold boundaryPass.
  pose proof (fold_left_invariant
    (λ st : list JSString * JSString, Forall (λ c, trim c ≠ []) st.1)
    (chunkStep maxChunkLength) (split text)) as H.
  destruct (fold_left (chunkStep maxChunkLength) (split text) ([], []))
    as [chunks currentChunk] eqn:E.
  apply pushTrimmed_trims.
  specialize (H) with (s := ([] : list JSString, [] : JSString)).
  rewrite E in H. apply H; [|by constructor].
  intros [chunks' cur'] part _ Hc. simpl in *.
  destruct (jslength cur' + jslength part <=? maxChunkLength); simpl; [done|].
  by apply pushTrimmed_trims.
Qed.

(** The fallback is taken exactly on a non-empty text that the greedy
    pass leaves without a chunk. *)
Lemma fallbackTaken_true (text : JSString) (maxChunkLength : Z) :
  fallbackTaken text maxChunkLength = true ↔
  boundaryPass text maxChunkLength = [] ∧ text ≠ [].
Proof.
  unfold fallbackTaken, jslength.
  rewrite andb_true_iff, Z.eqb_eq, Z.ltb_lt.
  destruct (boundaryPass text maxChunkLength), text; simpl;
    split; intros [? ?]; (split; [try done; lia|try done; lia]).
Qed.

(** ... which happens on whitespace-only texts and on no other. *)
Lemma fallbackTaken_whitespace (text : JSString) (maxChunkLength : Z) :
  fallbackTaken text maxChunkLength = true → stripWhiteSpace text = [].
Proof.
  intros [H _]%fallbackTaken_true.
  by rewrite <- (strip_boundaryPass text maxChunkLength), H.
Qed.

Lemma woven_app_gap (chunks : list JSString) (text gap : JSString) :
  woven chunks text → whitespaceOnly gap → woven chunks (text ++ gap).
Proof.
  intros Hw Hgap. induction Hw as [g Hg|g c chunks rest Hg Hw IH].
  - constructor. by apply Forall_app.
  - rewrite <- !app_assoc. by constructor.
Qed.

Lemma woven_gap_app (chunks : list JSString) (text gap : JSString) :
  whitespaceOnly gap → woven chunks text → woven chunks (gap ++ text).
Proof.
  intros Hgap Hw. destruct Hw as [g Hg|g c chunks rest Hg Hw].
  - constructor. by apply Forall_app.
  - rewrite app_assoc. constructor; [by apply Forall_app|done].
Qed.

Lemma woven_snoc (chunks : list JSString) (text lead c trail : JSString) :
  woven chunks text → whitespaceOnly lead → whitespaceOnly trail →
  woven (chunks ++ [c]) (text ++ lead ++ c ++ trail).
Proof.
  intros Hw Hlead Htrail. induction Hw as [g Hg|g c' chunks rest Hg Hw IH].
  - rewrite app_assoc. simpl.
    constructor; [by apply Forall_app|by constructor].
  - rewrite <- !app_assoc. simpl. by constructor.
Qed.

Lemma woven_concat (chunks : list JSString) : woven chunks (concat chunks).
Proof.
  induction chunks as [|c chunks IH]; simpl.
  - by repeat constructor.
  - by apply (woven_cons [] c); [constructor|].
Qed.

Lemma woven_filter_nonempty (chunks : list JSString) (text : JSString) :
  woven chunks text → woven (filter (λ c, 0 < jslength c) chunks) text.
Proof.
  induction 1 as [g Hg|g c chunks rest Hg Hw IH]; [by constructor|].
  destruct c as [|x c].
  - rewrite filter_cons_False by (unfold jslength; simpl; lia).
    simpl. by apply woven_gap_app.
  - rewrite filter_cons_True by (unfold jslength; simpl; lia).
    by constructor.
Qed.

Lemma woven_strip (chunks : list JSString) (text : JSString) :
  woven chunks text → stripWhiteSpace (concat chunks) = stripWhiteSpace text.
Proof.
  induction 1 as [g Hg|g c chunks rest Hg Hw IH].
  - apply whitespaceOnly_strip in Hg. by rewrite Hg.
  - apply whitespaceOnly_strip in Hg. simpl.
    by rewrite !strip_app, Hg, IH.
Qed.

Lemma woven_pushTrimmed (chunks : list JSString) (text currentChunk : JSString) :
  woven chunks text →
  woven (pushTrimmed chunks currentChunk) (text ++ currentChunk).
Proof.
  intros Hw. unfold pushTrimmed.
  destruct (truthy (trim currentChunk)) eqn:E.
  - destruct (trim_split currentChunk) as (lead & trail & Hs & Hlead & Htrail).
    rewrite Hs at 2. by apply woven_snoc.
  - apply woven_app_gap; [done|].
    by apply whitespaceOnly_strip, trim_nil, truthy_false.
Qed.

(** The greedy loop keeps the parts read so far woven from the chunks,
    followed by the buffer. *)
Lemma woven_fold (maxChunkLength : Z) (parts : list JSString) :
  ∀ chunks currentChunk done_,
    woven chunks done_ →
    let st := fold_left (chunkStep maxChunkLength) parts (chunks, currentChunk) in
    ∃ done', woven st.1 done'
             ∧ done' ++ st.2 = done_ ++ currentChunk ++ concat parts.
Proof.
  induction parts as [|part parts IH]; intros chunks currentChunk done_ Hw; simpl.
  - exists done_. by rewrite app_nil_r.
  - destruct (jslength currentChunk + jslength part <=? maxChunkLength).
    + destruct (IH chunks (currentChunk ++ part) done_ Hw) as (done' & Hw' & Heq).
      exists done'. split; [done|]. by rewrite Heq, <- !app_assoc.
    + destruct (IH (pushTrimmed chunks currentChunk) part (done_ ++ currentChunk))
        as (done' & Hw' & Heq); [by apply woven_pushTrimmed|].
      exists done'. split; [done|]. by rewrite Heq, <- !app_assoc.
Qed.

(** The text is woven from the chunks of the greedy pass. *)
Lemma woven_boundaryPass (text : JSString) (maxChunkLength : Z) :
  woven (boundaryPass text maxChunkLength) text.
Proof.
  unfold boundaryPass.
  destruct (woven_fold maxChunkLength (split text) [] [] [])
    as (done' & Hw & Heq); [by repeat constructor|].
  destruct (fold_left (chunkStep maxChunkLength) (split text) ([], []))
    as [chunks currentChunk].
  simpl in *. rewrite concat_split in Heq. rewrite <- Heq.
  by apply woven_pushTrimmed.
Qed.

(** With a positive width the segmenter returns, and what it returns on
    each of its two paths. *)
Lemma smartChunkText_paths (text : JSString) (maxChunkLength : Z) :
  0 < maxChunkLength →
  ∃ chunks,
    smartChunkText text maxChunkLength = Some (filter (λ c, 0 < jslength c) chunks)
    ∧ (if fallbackTaken text maxChunkLength
       then concat chunks = text
            ∧ Forall (λ c, 0 < jslength c <= maxChunkLength) chunks
       else chunks = boundaryPass text maxChunkLength).
Proof.
  intros Hmax. unfold smartChunkText, smartChunkTextFuel.
  destruct (truthy text) eqn:Et; cbn [negb].
  - destruct (fallbackTaken text maxChunkLength) eqn:Ef.
    + destruct (fallbackLoop_slices text maxChunkLength Hmax
                  (S (length text)) 0 (boundaryPass text maxChunkLength))
        as (slices & Hrun & Hcat & Hall); [lia|unfold jslength; lia|].
      apply fallbackTaken_true in Ef as [Hnil _].
      rewrite Hrun, Hnil. simpl. exists slices. simpl in Hcat. done.
    + simpl. by exists (boundaryPass text maxChunkLength).
  - apply truthy_false in Et. subst text. exists [].
    split; [done|].
    replace (fallbackTaken [] maxChunkLength) with false
      by (unfold fallbackTaken; symmetry; apply andb_false_r).
    unfold boundaryPass, split. simpl.
    by destruct (_ <=? maxChunkLength).
Qed.

End SegmenterFacts.
Import SegmenterFacts.

Module SegmenterClaims.

Lemma Forall_filter_keep {A} (P Q : A → Prop) `{∀ x, Decision (Q x)} (l : list A) :
  Forall P l → Forall P (filter Q l).
Proof.
  rewrite !Forall_forall. intros Hall x [_ Hx]%list_elem_of_filter. by apply Hall.
Qed.

(** C3, as the specification states it, does not hold: on the
    boundary-aware path (the fallback is not taken) the text [aaaa] with
    a maximum of 3 comes back as the single chunk [aaaa], of length 4. *)
Lemma smartChunkText_boundary_path_exceeds :
  ¬ (∀ (text : JSString) (maxChunkLength : Z) (chunks : list JSString),
       text ≠ [] → 0 < maxChunkLength →
       smartChunkText text maxChunkLength = Some chunks →
       fallbackTaken text maxChunkLength = false →
       Forall (λ c, jslength c <= maxChunkLength) chunks).
Proof.
  intros H.
  specialize (H (js "aaaa") 3 [js "aaaa"]).
  assert (Forall (λ c : JSString, jslength c <= 3) [js "aaaa"]) as Hall.
  { apply H; [done|lia|by vm_compute|by vm_compute]. }
  apply Forall_inv in Hall. vm_compute in Hall. by apply Hall.
Qed.

(** C3, amended: for every text and every positive maximum the segmenter
    returns, and each chunk has length at most the maximum unless it is
    the trimmed form of one part of the split that is itself longer than
    the maximum; the chunks of the fallback path never exceed it. *)
Theorem smartChunkText_length_bound (text : JSString) (maxChunkLength : Z) :
  0 < maxChunkLength →
  ∃ chunks,
    smartChunkText text maxChunkLength = Some chunks
    ∧ Forall (boundedOrWholePart text maxChunkLength) chunks
    ∧ (fallbackTaken text maxChunkLength = true →
       Forall (λ c, jslength c <= maxChunkLength) chunks).
Proof.
  intros Hmax.
  destruct (smartChunkText_paths text maxChunkLength Hmax) as (chunks & Hrun & Hpath).
  eexists. split; [exact Hrun|].
  destruct (fallbackTaken text maxChunkLength).
  - destruct Hpath as [_ Hall].
    assert (Forall (λ c : JSString, jslength c <= maxChunkLength) chunks) as Hle.
    { eapply Forall_impl; [exact Hall|]. simpl. intros c Hc. lia. }
    split.
    + apply Forall_filter_keep.
      eapply Forall_impl; [exact Hle|]. intros c Hc. by left.
    + intros _. by apply Forall_filter_keep.
  - subst chunks. split; [|done].
    apply Forall_filter_keep, boundaryPass_bounded. lia.
Qed.

Lemma smartChunkText_length_bound_witness :
  ∃ chunks,
    smartChunkText (js "aaaa. b") 3 = Some chunks
    ∧ Forall (boundedOrWholePart (js "aaaa. b") 3) chunks
    ∧ (fallbackTaken (js "aaaa. b") 3 = true →
       Forall (λ c, jslength c <= 3) chunks).
Proof. apply (smartChunkText_length_bound (js "aaaa. b") 3). lia. Defined.

(** C4: for every text and every positive maximum the segmenter returns;
    the text is its chunks, in their order, with nothing but whitespace
    before, between and after them; hence the concatenation of the
    chunks, with whitespace removed, is the text with whitespace removed:
    no other character is lost, duplicated or moved. *)
Theorem smartChunkText_preserves_content (text : JSString) (maxChunkLength : Z) :
  0 < maxChunkLength →
  ∃ chunks,
    smartChunkText text maxChunkLength = Some chunks
    ∧ woven chunks text
    ∧ stripWhiteSpace (concat chunks) = stripWhiteSpace text.
Proof.
  intros Hmax.
  destruct (smartChunkText_paths text maxChunkLength Hmax) as (chunks & Hrun & Hpath).
  eexists. split; [exact Hrun|].
  assert (woven (filter (λ c, 0 < jslength c) chunks) text) as Hw.
  { apply woven_filter_nonempty.
    destruct (fallbackTaken text maxChunkLength).
    - destruct Hpath as [<- _]. apply woven_concat.
    - subst chunks. apply woven_boundaryPass. }
  split; [done|]. by apply woven_strip.
Qed.

Lemma smartChunkText_preserves_content_witness :
  ∃ chunks,
    smartChunkText (js "Hi there. How are you? Fine, thanks") 12 = Some chunks
    ∧ woven chunks (js "Hi there. How are you? Fine, thanks")
    ∧ stripWhiteSpace (concat chunks)
      = stripWhiteSpace (js "Hi there. How are you? Fine, thanks").
Proof.
  apply (smartChunkText_preserves_content
           (js "Hi there. How are you? Fine, thanks") 12).
  lia.
Defined.

(** C9, as the specification states it, does not hold: a text of one
    space comes back as one chunk, the space, which trims to nothing. *)
Lemma smartChunkText_whitespace_only_chunk :
  ¬ (∀ (text : JSString) (maxChunkLength : Z) (chunks : list JSString),
       0 < maxChunkLength →
       smartChunkText text maxChunkLength = Some chunks →
       Forall (λ c, trim c ≠ []) chunks).
Proof.
  intros H.
  specialize (H (js " ") 5 [js " "]).
  assert (Forall (λ c : JSString, trim c ≠ []) [js " "]) as Hall.
  { apply H; [lia|by vm_compute]. }
  apply Forall_inv in Hall. by apply Hall.
Qed.

(** C9, amended: for every text and every positive maximum the segmenter
    returns, no chunk has length zero, and when the text has a character
    that is not whitespace every chunk is non-empty after trimming. *)
Theorem smartChunkText_chunks_nonempty (text : JSString) (maxChunkLength : Z) :
  0 < maxChunkLength →
  ∃ chunks,
    smartChunkText text maxChunkLength = Some chunks
    ∧ Forall (λ c, c ≠ []) chunks
    ∧ (stripWhiteSpace text ≠ [] → Forall (λ c, trim c ≠ []) chunks).
Proof.
  intros Hmax.
  destruct (smartChunkText_paths text maxChunkLength Hmax) as (chunks & Hrun & Hpath).
  eexists. split; [exact Hrun|]. split.
  - apply Forall_forall. intros c [Hc _]%list_elem_of_filter ->.
    unfold jslength in Hc. simpl in Hc. lia.
  - intros Htext.
    destruct (fallbackTaken text maxChunkLength) eqn:Ef.
    + by apply fallbackTaken_whitespace in Ef.
    + subst chunks. apply Forall_filter_keep, boundaryPass_trims.
Qed.

Lemma smartChunkText_chunks_nonempty_witness :
  ∃ chunks,
    smartChunkText (js " a. b ") 2 = Some chunks
    ∧ Forall (λ c, c ≠ []) chunks
    ∧ (stripWhiteSpace (js " a. b ") ≠ [] → Forall (λ c, trim c ≠ []) chunks).
Proof. apply (smartChunkText_chunks_nonempty (js " a. b ") 2). lia. Defined.

End SegmenterClaims.

(** ** The SSML builder *)

Module SsmlClaims.

Lemma replaceAll_self (c : N) (s : JSString) : replaceAll c [c] s = s.
Proof.
  unfold replaceAll. induction s as [|x s IH]; [done|].
  change (mbind ?f (x :: s)) with (f x ++ mbind f s).
  rewrite IH. destruct (N.eqb_spec x c) as [->|]; done.
Qed.

(** Each of the three replacements puts back the character it matched. *)
Lemma sanitize_id (text : JSString) : sanitize text = text.
Proof.
  unfold sanitize.
  change (js ">") with [62%N]. change (js "<") with [60%N].
  change (js "&") with [38%N].
  by rewrite !replaceAll_self.
Qed.

(** C6 fails on the code: [getSsml] puts the chunk text into the SSML
    body as it is, whatever the text, and for the text [a<b] what it
    puts there has an unescaped [<]. *)
Theorem getSsml_embeds_text_unescaped :
  (∀ text voiceName rate pitch style,
     getSsml text voiceName rate pitch style
     = ssmlHead voiceName rate pitch style ++ text ++ ssmlTail)
  ∧ sanitize (js "a<b") = js "a<b"
  ∧ markupEscaped (sanitize (js "a<b")) = false.
Proof.
  split; [|split].
  - intros. unfold getSsml. cbv zeta. by rewrite sanitize_id.
  - apply sanitize_id.
  - by vm_compute.
Qed.

End SsmlClaims.

(** ** The credential cache *)

Module CredentialClaims.

(** C7: when a token is cached and the time is before its expiry minus
    five minutes, [getEndpoint] returns the cached endpoint, fetches
    nothing and leaves [tokenInfo] as it was, whatever the network would
    have answered. *)
Theorem getEndpoint_fresh_cache_hit (tokenInfo : TokenInfo) (nowMs : Z)
    (net : Exchange) (tok : JSString) (exp : Z) :
  token tokenInfo = Some tok → tok ≠ [] →
  expiredAt tokenInfo = Some exp →
  0 <= nowMs → nowMs < (exp - 5 * 60) * 1000 →
  getEndpoint tokenInfo nowMs net
  = {| result := Returned (endpoint tokenInfo);
       cache := tokenInfo;
       fetched := [] |}.
Proof.
  intros Htok Hne Hexp Hnow Hfresh. unfold getEndpoint.
  rewrite Htok, Hexp. simpl.
  apply truthy_true in Hne. rewrite Hne. simpl.
  assert (exp ≠ 0) as Hexp0 by lia.
  apply Z.eqb_neq in Hexp0. rewrite Hexp0. simpl.
  unfold TOKEN_REFRESH_BEFORE_EXPIRY.
  apply Z.ltb_lt in Hfresh. by rewrite Hfresh.
Qed.

Lemma getEndpoint_fresh_cache_hit_witness :
  let data := {| r := js "eastus"; t := js "h.p.s" |} in
  let tokenInfo :=
    {| endpoint := Some data; token := Some (js "h.p.s");
       expiredAt := Some 2000 |} in
  getEndpoint tokenInfo 1000000 (ExchangeFailed (js "offline"))
  = {| result := Returned (Some data); cache := tokenInfo; fetched := [] |}.
Proof.
  intros data tokenInfo.
  apply (getEndpoint_fresh_cache_hit tokenInfo 1000000
           (ExchangeFailed (js "offline")) (js "h.p.s") 2000);
    [reflexivity|discriminate|reflexivity|lia|lia].
Defined.

(** C8: a call whose exchange with the identity service fails leaves
    [tokenInfo] as it was; it returns the cached endpoint when a token is
    cached, expired or not, and otherwise throws the error of the failed
    exchange, after having tried the exchange.  Whatever the exchange, a
    call that changes [tokenInfo] is one whose exchange succeeded. *)
Theorem getEndpoint_refresh_failure (tokenInfo : TokenInfo) (nowMs : Z) :
  (∀ error,
     let run := getEndpoint tokenInfo nowMs (ExchangeFailed error) in
     cache run = tokenInfo
     ∧ (if tokenTruthy (token tokenInfo)
        then result run = Returned (endpoint tokenInfo)
        else result run = Thrown error ∧ fetched run = [endpointUrl]))
  ∧ (∀ net,
       cache (getEndpoint tokenInfo nowMs net) = tokenInfo
       ∨ ∃ data exp,
           net = ExchangeOk data exp
           ∧ fetched (getEndpoint tokenInfo nowMs net) = [endpointUrl]
           ∧ cache (getEndpoint tokenInfo nowMs net)
             = {| endpoint := Some data; token := Some (t data);
                  expiredAt := exp |}).
Proof.
  split.
  - intros error run. subst run. unfold getEndpoint.
    destruct (tokenTruthy (token tokenInfo)) eqn:Etok; simpl.
    + by destruct (numberTruthy (expiredAt tokenInfo)
                   && beforeRefresh nowMs (expiredAt tokenInfo)).
    + done.
  - intros net. unfold getEndpoint.
    destruct (tokenTruthy (token tokenInfo) && numberTruthy (expiredAt tokenInfo)
              && beforeRefresh nowMs (expiredAt tokenInfo)); simpl.
    + by left.
    + destruct net as [error|data exp]; simpl; [by left|].
      right. by exists data, exp.
Qed.

End CredentialClaims.

(** ** The batch pipeline *)

Module PipelineFacts.

(** *** Numbered lists, slices and batches *)

Lemma number_length {A} (base : nat) (l : list A) :
  length (number base l) = length l.
Proof. revert base. induction l; intros; simpl; auto. Qed.

Lemma number_snd {A} (base : nat) (l : list A) : (number base l).*2 = l.
Proof. revert base. induction l; intros; simpl; f_equal; auto. Qed.

Lemma number_take {A} (base n : nat) (l : list A) :
  take n (number base l) = number base (take n l).
Proof.
  revert base n. induction l as [|x l IH]; intros base [|n]; simpl; try done.
  by rewrite IH.
Qed.

Lemma number_drop {A} (base n : nat) (l : list A) :
  drop n (number base l) = number (base + n) (drop n l).
Proof.
  revert base n. induction l as [|x l IH]; intros base [|n]; simpl; try done.
  - by rewrite Nat.add_0_r.
  - by rewrite IH, Nat.add_succ_r.
Qed.

Lemma number_lookup {A} (base j : nat) (l : list A) :
  number base l !! j = (λ x, (base + j, x)%nat) <$> l !! j.
Proof.
  revert base j. induction l as [|x l IH]; intros base [|j]; simpl; try done.
  - by rewrite Nat.add_0_r.
  - by rewrite IH, Nat.add_succ_r.
Qed.

(** From an index inside the array and with a positive width, [slice]
    is a [take] after a [drop]. *)
Lemma slice_window {A} (a : list A) (n : nat) (c : Z) :
  1 <= c →
  slice a (Z.of_nat n) (Z.of_nat n + c) = take (Z.to_nat c) (drop n a).
Proof.
  intros Hc. unfold slice, relIndex, jslength.
  destruct (Z.ltb_spec (Z.of_nat n) 0); [lia|].
  destruct (Z.ltb_spec (Z.of_nat n + c) 0); [lia|].
  destruct (Nat.le_gt_cases (length a) n) as [Hout|Hin].
  - rewrite !drop_ge by lia. by rewrite !take_nil.
  - replace (Z.to_nat (Z.of_nat n `min` Z.of_nat (length a))) with n by lia.
    destruct (Z.le_gt_cases (Z.of_nat n + c) (Z.of_nat (length a))).
    + f_equal. lia.
    + rewrite !take_ge; [done| |]; rewrite length_drop; lia.
Qed.

Lemma batchesFuel_enough {A} (size : nat) :
  (1 ≤ size)%nat →
  ∀ fuel1 fuel2 (l : list A),
    (length l ≤ fuel1)%nat → (length l ≤ fuel2)%nat →
    batchesFuel fuel1 size l = batchesFuel fuel2 size l.
Proof.
  intros Hsize. induction fuel1 as [|fuel1 IH]; intros fuel2 l H1 H2.
  - destruct l; [|simpl in H1; lia]. by destruct fuel2.
  - destruct l as [|x l]; [by destruct fuel2|].
    destruct fuel2 as [|fuel2]; [simpl in H2; lia|].
    cbn [batchesFuel]. f_equal.
    apply IH; rewrite length_drop; simpl in *; lia.
Qed.

Lemma batches_nil {A} (size : nat) : batches size ([] : list A) = [].
Proof. done. Qed.

Lemma batches_cons {A} (size : nat) (l : list A) :
  (1 ≤ size)%nat → l ≠ [] →
  batches size l = take size l :: batches size (drop size l).
Proof.
  intros Hsize Hl. unfold batches.
  destruct l as [|x l]; [done|].
  cbn [length batchesFuel]. f_equal.
  apply batchesFuel_enough; [done| |done].
  rewrite length_drop. simpl. lia.
Qed.

(** Induction along the batches of a list. *)
Lemma batches_ind {A} (size : nat) (P : list A → Prop) :
  (1 ≤ size)%nat →
  P [] →
  (∀ l, l ≠ [] → P (drop size l) → P l) →
  ∀ l, P l.
Proof.
  intros Hsize Hnil Hstep l.
  remember (length l) as n eqn:Hn.
  revert l Hn. induction n as [n IH] using lt_wf_ind. intros l Hn.
  destruct l as [|x l]; [done|].
  apply Hstep; [done|].
  apply (IH (length (drop size (x :: l)))); [|done].
  rewrite length_drop. simpl in *. lia.
Qed.

(** The batches are consecutive slices: put back together they are the
    list. *)
Lemma batches_concat {A} (size : nat) (l : list A) :
  (1 ≤ size)%nat → concat (batches size l) = l.
Proof.
  intros Hsize. pattern l. apply (batches_ind size); [done|done|].
  clear l. intros l Hl IH.
  rewrite batches_cons by done. simpl. rewrite IH. apply take_drop.
Qed.

(** No batch is empty and none has more than [size] elements. *)
Lemma batches_sizes {A} (size : nat) (l : list A) :
  (1 ≤ size)%nat →
  Forall (λ b, (0 < length b ≤ size)%nat) (batches size l).
Proof.
  intros Hsize. pattern l. apply (batches_ind size); [done|by constructor|].
  clear l. intros l Hl IH.
  rewrite batches_cons by done. constructor; [|done].
  rewrite length_take. destruct l; [done|]. simpl. lia.
Qed.

(** *** [Promise.all] *)

Lemma completionOrder_Permutation (latency : nat → nat) (promises : list Promise) :
  completionOrder latency promises ≡ₚ seq 0 (length promises).
Proof.
  unfold completionOrder. rewrite merge_sort_Permutation.
  rewrite fmap_imap.
  rewrite (imap_ext _ (λ k _, k)) by done.
  by rewrite (imap_seq_0 promises (λ k, k)), list_fmap_id.
Qed.

(** When every promise fulfils, the values end up at the promises' own
    indices, in whatever order the promises settle. *)
Lemma settle_fulfilled (promises : list Promise) (vs : list Blob) :
  promises.*2 = Returned <$> vs →
  ∀ order values,
    length values = length vs →
    ∃ values',
      settle order promises values = Returned values'
      ∧ length values' = length vs
      ∧ ∀ j, values' !! j
             = if decide (j ∈ order) then Some <$> vs !! j else values !! j.
Proof.
  intros Hps. induction order as [|k order IH]; intros values Hlen.
  - exists values. split; [done|]. split; [done|]. intros j.
    destruct (decide (j ∈ [])) as [Hin|]; [|done]. by apply elem_of_nil in Hin.
  - simpl.
    assert (promises.*2 !! k = Returned <$> vs !! k) as Hk.
    { by rewrite Hps, list_lookup_fmap. }
    rewrite list_lookup_fmap in Hk.
    destruct (promises !! k) as [[n [v|reason]]|] eqn:Ek; simpl in Hk.
    + destruct (vs !! k) as [v'|] eqn:Ev; simplify_eq/=.
      destruct (IH (<[k:=Some v']> values)) as (values' & Hrun & Hlen' & Hlook).
      { by rewrite length_insert. }
      exists values'. split; [done|]. split; [done|]. intros j.
      rewrite Hlook.
      destruct (decide (j ∈ order)) as [Hin|Hnin].
      * rewrite decide_True; [done|]. by right.
      * destruct (decide (j = k)) as [->|Hne].
        -- rewrite decide_True by (by left).
           rewrite list_lookup_insert_eq; [by rewrite Ev|].
           apply lookup_lt_Some in Ev. lia.
        -- rewrite list_lookup_insert_ne by done.
           rewrite decide_False; [done|].
           intros [?|?]%elem_of_cons; done.
    + destruct (vs !! k); simplify_eq/=.
    + destruct (IH values Hlen) as (values' & Hrun & Hlen' & Hlook).
      exists values'. split; [done|]. split; [done|]. intros j.
      rewrite Hlook.
      destruct (decide (j ∈ order)) as [Hin|Hnin].
      * rewrite decide_True; [done|]. by right.
      * destruct (decide (j = k)) as [->|Hne].
        -- rewrite decide_True by (by left).
           destruct (vs !! k); simplify_eq/=.
           apply lookup_ge_None. apply lookup_ge_None in Ek.
           apply (f_equal length) in Hps.
           rewrite !length_fmap in Hps. lia.
        -- rewrite decide_False; [done|].
           intros [?|?]%elem_of_cons; done.
Qed.

(** [Promise.all] of promises that all fulfil is fulfilled with their
    values in the order of the promises, whatever the latencies. *)
Lemma promiseAll_fulfilled (latency : nat → nat) (promises : list Promise)
    (vs : list Blob) :
  promises.*2 = Returned <$> vs →
  promiseAll latency promises = Fulfilled vs.
Proof.
  intros Hps. unfold promiseAll.
  assert (length promises = length vs) as Hlen.
  { apply (f_equal length) in Hps. by rewrite !length_fmap in Hps. }
  destruct (settle_fulfilled promises vs Hps (completionOrder latency promises)
              (replicate (length promises) None))
    as (values' & Hrun & Hlen' & Hlook).
  { by rewrite length_replicate. }
  rewrite Hrun.
  assert (values' = Some <$> vs) as ->.
  { apply list_eq. intros j. rewrite Hlook, list_lookup_fmap.
    destruct (decide (j ∈ completionOrder latency promises)) as [Hin|Hnin];
      [done|].
    rewrite completionOrder_Permutation, elem_of_seq in Hnin.
    assert (replicate (length promises) (None : option Blob) !! j = None)
      as -> by (apply lookup_replicate_None; lia).
    symmetry. apply fmap_None, lookup_ge_None. lia. }
  assert (mapM id (Some <$> vs) = Some vs) as ->; [|done].
  apply mapM_Some. clear. induction vs; by constructor.
Qed.

Lemma settle_rejected (promises : list Promise) :
  ∀ order values,
    (∃ k n reason, k ∈ order ∧ promises !! k = Some (n, Thrown reason)) →
    ∃ reason,
      settle order promises values = Thrown reason
      ∧ Thrown reason ∈ promises.*2.
Proof.
  induction order as [|k order IH]; intros values (k' & n & reason & Hin & Hk').
  - by apply elem_of_nil in Hin.
  - simpl. destruct (promises !! k) as [[m [v|reason']]|] eqn:Ek.
    + apply IH. exists k', n, reason. split; [|done].
      apply elem_of_cons in Hin as [->|?]; [|done]. congruence.
    + exists reason'. split; [done|].
      apply list_elem_of_fmap. exists (m, Thrown reason'). split; [done|].
      by eapply list_elem_of_lookup_2.
    + apply IH. exists k', n, reason. split; [|done].
      apply elem_of_cons in Hin as [->|?]; [|done]. congruence.
Qed.

(** [Promise.all] of promises one of which rejects is rejected, with the
    reason of one of them. *)
Lemma promiseAll_rejected (latency : nat → nat) (promises : list Promise)
    (reason : Error) :
  Thrown reason ∈ promises.*2 →
  ∃ reason',
    promiseAll latency promises = Rejected reason'
    ∧ Thrown reason' ∈ promises.*2.
Proof.
  intros Hin. unfold promiseAll.
  apply list_elem_of_fmap in Hin as ([n c] & Hc & Hin). simpl in Hc. subst c.
  apply list_elem_of_lookup in Hin as [k Hk].
  destruct (settle_rejected promises (completionOrder latency promises)
              (replicate (length promises) None)) as (reason' & Hrun & Hin').
  { exists k, n, reason. split; [|done].
    rewrite completionOrder_Permutation, elem_of_seq.
    apply lookup_lt_Some in Hk. lia. }
  exists reason'. by rewrite Hrun.
Qed.

(** The completions of a list are all values, or one of them is a
    throw. *)
Lemma completions_cases (cs : list (Completion Blob)) :
  (∃ vs, cs = Returned <$> vs) ∨ (∃ reason, Thrown reason ∈ cs).
Proof.
  induction cs as [|[v|reason] cs IH].
  - left. by exists [].
  - destruct IH as [[vs ->]|[reason Hin]].
    + left. by exists (v :: vs).
    + right. exists reason. by right.
  - right. exists reason. by left.
Qed.

(** [Promise.all] always settles. *)
Lemma promiseAll_settles (latency : nat → nat) (promises : list Promise) :
  promiseAll latency promises ≠ Pending.
Proof.
  destruct (completions_cases promises.*2) as [[vs Hvs]|[reason Hin]].
  - by rewrite (promiseAll_fulfilled latency promises vs Hvs).
  - destruct (promiseAll_rejected latency promises reason Hin) as (r & -> & _).
    done.
Qed.

End PipelineFacts.
Import PipelineFacts.

(** *** Runs of the loops *)

Module PipelineRuns.

Lemma dispatched_app (tr1 tr2 : list Event) :
  dispatched (tr1 ++ tr2) = dispatched tr1 ++ dispatched tr2.
Proof. apply omap_app. Qed.

Lemma written_app (tr1 tr2 : list Event) :
  written (tr1 ++ tr2) = written tr1 ++ written tr2.
Proof. apply omap_app. Qed.

Lemma dispatched_dispatchEvents (jobs : list (nat * JSString)) :
  dispatched (dispatchEvents jobs) = jobs.
Proof.
  induction jobs as [|[n text] jobs IH]; [done|].
  change (dispatched (dispatchEvents ((n, text) :: jobs)))
    with ((n, text) :: dispatched (dispatchEvents jobs)).
  by rewrite IH.
Qed.

Lemma written_dispatchEvents (jobs : list (nat * JSString)) :
  written (dispatchEvents jobs) = [].
Proof. induction jobs as [|[n text] jobs IH]; done. Qed.

Lemma dispatched_settled (fulfilled : bool) :
  dispatched [EvBatchSettled fulfilled] = [].
Proof. done. Qed.

Lemma written_settled (fulfilled : bool) :
  written [EvBatchSettled fulfilled] = [].
Proof. done. Qed.

Lemma dispatched_writes (vs : list Blob) : dispatched (EvWrite <$> vs) = [].
Proof. induction vs; done. Qed.

Lemma written_writes (vs : list Blob) : written (EvWrite <$> vs) = vs.
Proof.
  induction vs as [|v vs IH]; [done|].
  change (written (EvWrite <$> v :: vs)) with (v :: written (EvWrite <$> vs)).
  by rewrite IH.
Qed.

(** How a bind runs. *)
Lemma bind_run {A B} (m : M A) (f : A → M B) (w : World) :
  (m ≫= f) w
  = match m w with
    | (Normal a, w') => f a w'
    | (Throw error, w') => (Throw error, w')
    | (Diverge, w') => (Diverge, w')
    end.
Proof. done. Qed.

Section Runs.

Variable backend : nat → JSString → Completion Blob.
Variable latency : nat → nat.

Lemma promisesOf_outcomes (base : nat) (batch : list JSString) :
  (promisesOf backend base batch).*2 = outcomes backend base batch.
Proof. unfold promisesOf, outcomes. by rewrite <- list_fmap_compose. Qed.

(** Starting the calls of a batch: one dispatch per chunk, in the order
    of the chunks. *)
Lemma mapM_getAudioChunk (batch : list JSString) (w : World) :
  mapM (getAudioChunk backend) batch w
  = (Normal (promisesOf backend (calls w) batch),
     {| calls := calls w + length batch;
        trace := trace w ++ dispatchEvents (number (calls w) batch);
        writer := writer w |}).
Proof.
  revert w. induction batch as [|text batch IH]; intros w.
  - destruct w. simpl. unfold mret, M_ret. simpl.
    by rewrite Nat.add_0_r, app_nil_r.
  - change (mapM (getAudioChunk backend) (text :: batch) w)
      with (match getAudioChunk backend text w with
            | (Normal y, w') =>
                match mapM (getAudioChunk backend) batch w' with
                | (Normal k, w'') => (Normal (y :: k), w'')
                | (Throw error, w'') => (Throw error, w'')
                | (Diverge, w'') => (Diverge, w'')
                end
            | (Throw error, w') => (Throw error, w')
            | (Diverge, w') => (Diverge, w')
            end).
    unfold getAudioChunk at 1. cbv beta iota.
    rewrite IH. simpl. unfold promisesOf. simpl.
    f_equal. f_equal; [lia|]. by rewrite <- app_assoc.
Qed.

(** Writing the blobs of a batch: one write per blob, in their order. *)
Lemma mapM_writerWrite (vs : list Blob) (w : World) :
  ∃ units,
    mapM writerWrite vs w
    = (Normal units,
       {| calls := calls w; trace := trace w ++ (EvWrite <$> vs);
          writer := writer w |}).
Proof.
  revert w. induction vs as [|v vs IH]; intros w.
  - exists []. destruct w. simpl. unfold mret, M_ret. simpl.
    by rewrite app_nil_r.
  - destruct (IH (logEvent (EvWrite v) w)) as [units Hrun].
    exists (tt :: units).
    change (mapM writerWrite (v :: vs) w)
      with (match writerWrite v w with
            | (Normal y, w') =>
                match mapM writerWrite vs w' with
                | (Normal k, w'') => (Normal (y :: k), w'')
                | (Throw error, w'') => (Throw error, w'')
                | (Diverge, w'') => (Diverge, w'')
                end
            | (Throw error, w') => (Throw error, w')
            | (Diverge, w') => (Diverge, w')
            end).
    unfold writerWrite at 1, emit. cbv beta iota.
    rewrite Hrun. simpl. by rewrite <- app_assoc.
Qed.

(** One turn of either loop up to the [await]: the calls of the batch
    are started, then the turn goes on with the values, throws, or
    hangs, as [Promise.all] decides. *)
Lemma batch_turn {B} (batch : list JSString) (w : World) (k : list Blob → M B) :
  let w1 := {| calls := calls w + length batch;
               trace := trace w ++ dispatchEvents (number (calls w) batch);
               writer := writer w |} in
  (audioPromises ← mapM (getAudioChunk backend) batch;
   audioBlobs ← await (promiseAll latency audioPromises);
   k audioBlobs) w
  = match promiseAll latency (promisesOf backend (calls w) batch) with
    | Fulfilled vs => k vs (logEvent (EvBatchSettled true) w1)
    | Rejected reason => (Throw reason, logEvent (EvBatchSettled false) w1)
    | Pending => (Diverge, w1)
    end.
Proof.
  intros w1. unfold mbind at 1, M_bind at 1.
  rewrite mapM_getAudioChunk. fold w1.
  by destruct (promiseAll latency (promisesOf backend (calls w) batch)).
Qed.

(** The outcomes of the batch at position [n] are a window of the
    outcomes of all the chunks. *)
Lemma outcomes_window (base n size : nat) (chunks : list JSString) :
  outcomes backend (base + n) (take size (drop n chunks))
  = take size (drop n (outcomes backend base chunks)).
Proof.
  unfold outcomes. by rewrite <- fmap_drop, <- fmap_take, number_drop, number_take.
Qed.

Lemma batchesTrace_nil (stream : bool) (size : nat) :
  batchesTrace stream size [] [] = [].
Proof. done. Qed.

Lemma batchesTrace_cons (stream : bool) (size : nat)
    (jobs : list (nat * JSString)) (vs : list Blob) :
  (1 ≤ size)%nat → jobs ≠ [] → vs ≠ [] →
  batchesTrace stream size jobs vs
  = batchEvents stream (take size jobs) (take size vs)
    ++ batchesTrace stream size (drop size jobs) (drop size vs).
Proof.
  intros Hsize Hjobs Hvs. unfold batchesTrace.
  by rewrite (batches_cons size jobs), (batches_cons size vs).
Qed.

(** A window inside a prefix is a window of the whole list. *)
Lemma take_drop_take {A} (size n j : nat) (l : list A) :
  (n + size ≤ j)%nat → take size (drop n (take j l)) = take size (drop n l).
Proof.
  intros H. replace j with (n + (j - n))%nat by lia.
  rewrite <- take_drop_commute, take_take. f_equal. lia.
Qed.

Section Turn.

Variable chunks : list JSString.
Variable concurrency : Z.
Variable base : nat.
Hypothesis concurrency_pos : 1 <= concurrency.

(** The turn at position [n], as [Promise.all] decides. *)
Lemma turn_at {B} (n : nat) (w : World) (k : list Blob → M B) :
  calls w = (base + n)%nat →
  let batch := take (Z.to_nat concurrency) (drop n chunks) in
  (audioPromises ← mapM (getAudioChunk backend)
                     (slice chunks (Z.of_nat n) (Z.of_nat n + concurrency));
   audioBlobs ← await (promiseAll latency audioPromises);
   k audioBlobs) w
  = match promiseAll latency (promisesOf backend (base + n) batch) with
    | Fulfilled vs => k vs (afterBatch chunks concurrency base n true w)
    | Rejected reason => (Throw reason, afterBatch chunks concurrency base n false w)
    | Pending =>
        (Diverge,
         {| calls := base + n + length batch;
            trace := trace w ++ dispatchEvents (number (base + n) batch);
            writer := writer w |})
    end.
Proof.
  intros Hcalls batch. rewrite batch_turn, slice_window by done.
  fold batch. rewrite Hcalls. unfold afterBatch, logEvent. simpl.
  rewrite number_drop, number_take. fold batch.
  destruct (promiseAll latency (promisesOf backend (base + n) batch));
    by rewrite <- ?app_assoc.
Qed.

(** When the calls of the batch at position [n] all succeed, the turn
    goes on with their blobs. *)
Lemma turn_fulfilled {B} (n : nat) (w : World) (k : list Blob → M B)
    (vs : list Blob) :
  calls w = (base + n)%nat →
  take (Z.to_nat concurrency) (drop n (outcomes backend base chunks))
  = Returned <$> vs →
  (audioPromises ← mapM (getAudioChunk backend)
                     (slice chunks (Z.of_nat n) (Z.of_nat n + concurrency));
   audioBlobs ← await (promiseAll latency audioPromises);
   k audioBlobs) w
  = k vs (afterBatch chunks concurrency base n true w).
Proof.
  intros Hcalls Hvs. rewrite turn_at by done. cbv zeta.
  rewrite (promiseAll_fulfilled latency _ vs); [done|].
  by rewrite promisesOf_outcomes, outcomes_window.
Qed.

End Turn.

Section Success.

(** All the calls made for [chunks] succeed, with the blobs [blobs]. *)
Variable chunks : list JSString.
Variable concurrency : Z.
Variable base : nat.
Variable blobs : list Blob.
Hypothesis concurrency_pos : 1 <= concurrency.
Hypothesis all_succeed : outcomes backend base chunks = Returned <$> blobs.

Lemma blobs_length : length blobs = length chunks.
Proof.
  apply (f_equal length) in all_succeed.
  unfold outcomes in all_succeed.
  by rewrite !length_fmap, number_length in all_succeed.
Qed.

Lemma window_succeeds (n : nat) :
  take (Z.to_nat concurrency) (drop n (outcomes backend base chunks))
  = Returned <$> take (Z.to_nat concurrency) (drop n blobs).
Proof. by rewrite all_succeed, <- fmap_drop, <- fmap_take. Qed.

Lemma getVoiceLoop_success :
  ∀ fuel n acc w,
    calls w = (base + n `min` length chunks)%nat →
    (length chunks - n < fuel)%nat →
    getVoiceLoop backend latency fuel chunks concurrency (Z.of_nat n) acc w
    = (Normal (acc ++ drop n blobs),
       {| calls := base + length chunks;
          trace := trace w
                   ++ batchesTrace false (Z.to_nat concurrency)
                        (drop n (number base chunks)) (drop n blobs);
          writer := writer w |}).
Proof.
  pose proof blobs_length as Hlen.
  induction fuel as [|fuel IH]; intros n acc w Hcalls Hfuel; [lia|].
  cbn [getVoiceLoop]. unfold jslength.
  destruct (Z.ltb_spec (Z.of_nat n) (Z.of_nat (length chunks))) as [Hin|Hout].
  - cbv zeta.
    rewrite (turn_fulfilled chunks concurrency base concurrency_pos n w _
               (take (Z.to_nat concurrency) (drop n blobs)))
      by (first [lia | apply window_succeeds]).
    unfold afterBatch.
    replace (Z.of_nat n + concurrency)
      with (Z.of_nat (n + Z.to_nat concurrency)) by lia.
    rewrite IH; [| simpl; rewrite length_take, length_drop; lia | lia].
    simpl. f_equal.
    + f_equal. rewrite <- app_assoc. f_equal.
      rewrite <- drop_drop. by rewrite take_drop.
    + f_equal. rewrite <- !app_assoc. f_equal.
      rewrite (batchesTrace_cons false _ (drop n (number base chunks))
                 (drop n blobs)); [|lia| |].
      * unfold batchEvents. rewrite !drop_drop, app_nil_r.
        by rewrite <- !app_assoc.
      * intros H%(f_equal length).
        rewrite length_drop, number_length in H. simpl in H. lia.
      * intros H%(f_equal length). rewrite length_drop in H. simpl in H. lia.
  - unfold mret, M_ret. rewrite !drop_ge by (rewrite ?number_length; lia).
    rewrite batchesTrace_nil, !app_nil_r.
    destruct w. simpl in *. f_equal. f_equal. lia.
Qed.

Lemma pipeLoop_success :
  ∀ fuel n w,
    calls w = (base + n `min` length chunks)%nat →
    (length chunks - n < fuel)%nat →
    pipeLoop backend latency fuel chunks concurrency (Z.of_nat n) w
    = (Normal tt,
       {| calls := base + length chunks;
          trace := trace w
                   ++ batchesTrace true (Z.to_nat concurrency)
                        (drop n (number base chunks)) (drop n blobs);
          writer := writer w |}).
Proof.
  pose proof blobs_length as Hlen.
  induction fuel as [|fuel IH]; intros n w Hcalls Hfuel; [lia|].
  cbn [pipeLoop]. unfold jslength.
  destruct (Z.ltb_spec (Z.of_nat n) (Z.of_nat (length chunks))) as [Hin|Hout].
  - cbv zeta.
    rewrite (turn_fulfilled chunks concurrency base concurrency_pos n w _
               (take (Z.to_nat concurrency) (drop n blobs)))
      by (first [lia | apply window_succeeds]).
    rewrite bind_run.
    destruct (mapM_writerWrite (take (Z.to_nat concurrency) (drop n blobs))
                (afterBatch chunks concurrency base n true w)) as [units ->].
    unfold afterBatch.
    replace (Z.of_nat n + concurrency)
      with (Z.of_nat (n + Z.to_nat concurrency)) by lia.
    rewrite IH; [| simpl; rewrite length_take, length_drop; lia | lia].
    simpl. f_equal. f_equal. rewrite <- !app_assoc. f_equal.
    rewrite (batchesTrace_cons true _ (drop n (number base chunks))
               (drop n blobs)); [|lia| |].
    + unfold batchEvents. rewrite !drop_drop.
      by rewrite <- !app_assoc.
    + intros H%(f_equal length).
      rewrite length_drop, number_length in H. simpl in H. lia.
    + intros H%(f_equal length). rewrite length_drop in H. simpl in H. lia.
  - unfold mret, M_ret. rewrite !drop_ge by (rewrite ?number_length; lia).
    rewrite batchesTrace_nil, !app_nil_r.
    destruct w. simpl in *. f_equal. f_equal. lia.
Qed.

End Success.

Section Failure.

(** The call made for chunk [j] fails, the calls made for the chunks
    before it succeed with the blobs [vs], and chunk [j] lies in batch
    number [K]. *)
Variable chunks : list JSString.
Variable concurrency : Z.
Variable base : nat.
Variable j K : nat.
Variable reason : Error.
Variable vs : list Blob.
Hypothesis concurrency_pos : 1 <= concurrency.
Hypothesis fails_at : outcomes backend base chunks !! j = Some (Thrown reason).
Hypothesis succeed_before :
  take j (outcomes backend base chunks) = Returned <$> vs.
Hypothesis in_batch :
  (K * Z.to_nat concurrency ≤ j < K * Z.to_nat concurrency + Z.to_nat concurrency)%nat.

(** What [Promise.all] rejects the failing batch with. *)
Variable reason' : Error.
Hypothesis rejected_with :
  promiseAll latency
    (promisesOf backend (base + K * Z.to_nat concurrency)
       (take (Z.to_nat concurrency) (drop (K * Z.to_nat concurrency) chunks)))
  = Rejected reason'.

Lemma failing_index_in_range : (j < length chunks)%nat.
Proof.
  apply lookup_lt_Some in fails_at.
  unfold outcomes in fails_at.
  by rewrite length_fmap, number_length in fails_at.
Qed.

Lemma vs_length : length vs = j.
Proof.
  pose proof failing_index_in_range as Hj.
  pose proof (f_equal length succeed_before) as H.
  unfold outcomes in H.
  rewrite length_take, !length_fmap, number_length in H. lia.
Qed.

(** A batch before the failing one succeeds. *)
Lemma window_before (q : nat) :
  (q < K)%nat →
  take (Z.to_nat concurrency)
    (drop (q * Z.to_nat concurrency) (outcomes backend base chunks))
  = Returned <$> take (Z.to_nat concurrency) (drop (q * Z.to_nat concurrency) vs).
Proof.
  intros Hq.
  rewrite <- (take_drop_take _ _ j) by nia.
  by rewrite succeed_before, <- fmap_drop, <- fmap_take.
Qed.

(** The calls started from batch [q] up to the failing batch. *)
Lemma started_until_failure (q : nat) :
  (q < K)%nat →
  let size := Z.to_nat concurrency in
  take size (drop (q * size) (number base chunks))
  ++ drop (S q * size) (take (K * size + size) (number base chunks))
  = drop (q * size) (take (K * size + size) (number base chunks)).
Proof.
  intros Hq size.
  rewrite <- (take_drop_take size (q * size) (K * size + size)) by nia.
  replace (S q * size)%nat with (q * size + size)%nat by lia.
  rewrite <- drop_drop. apply take_drop.
Qed.

Lemma written_until_failure (q : nat) :
  (q < K)%nat →
  let size := Z.to_nat concurrency in
  take size (drop (q * size) vs) ++ drop (S q * size) (take (K * size) vs)
  = drop (q * size) (take (K * size) vs).
Proof.
  intros Hq size.
  rewrite <- (take_drop_take size (q * size) (K * size)) by nia.
  replace (S q * size)%nat with (q * size + size)%nat by lia.
  rewrite <- drop_drop. apply take_drop.
Qed.

(** The loop of [getVoice], entered at batch [q], throws in batch [K]
    after having started the calls up to the end of that batch and no
    other. *)
Lemma getVoiceLoop_failure :
  let size := Z.to_nat concurrency in
  ∀ fuel q acc w,
    (q ≤ K)%nat → (K - q < fuel)%nat →
    calls w = (base + q * size)%nat →
    ∃ w',
      getVoiceLoop backend latency fuel chunks concurrency
        (Z.of_nat (q * size)) acc w = (Throw reason', w')
      ∧ calls w' = (base + length (take (K * size + size) chunks))%nat
      ∧ dispatched (trace w')
        = dispatched (trace w)
          ++ drop (q * size) (take (K * size + size) (number base chunks))
      ∧ writer w' = writer w.
Proof.
  intros size. pose proof failing_index_in_range as Hj.
  induction fuel as [|fuel IH]; intros q acc w Hq Hfuel Hcalls; [lia|].
  cbn [getVoiceLoop]. unfold jslength.
  destruct (Z.ltb_spec (Z.of_nat (q * size)) (Z.of_nat (length chunks)))
    as [Hin|Hout]; [|nia].
  cbv zeta. destruct (decide (q = K)) as [->|Hne].
  - rewrite (turn_at chunks concurrency base concurrency_pos) by done.
    cbv zeta. unfold size. rewrite rejected_with. fold size.
    eexists. split; [done|]. unfold afterBatch. simpl. fold size.
    split; [|split; [|done]].
    + rewrite !length_take, !length_drop. lia.
    + rewrite !dispatched_app, dispatched_dispatchEvents. simpl.
      rewrite app_nil_r. f_equal.
      by rewrite take_drop_commute.
  - rewrite (turn_fulfilled chunks concurrency base concurrency_pos _ w _
               (take size (drop (q * size) vs)))
      by (first [done | apply window_before; lia]).
    replace (Z.of_nat (q * size) + concurrency)
      with (Z.of_nat (S q * size)) by lia.
    destruct (IH (S q) (acc ++ take size (drop (q * size) vs))
                (afterBatch chunks concurrency base (q * size) true w))
      as (w' & Hrun & Hcalls' & Hdisp & Hwriter); [lia|lia| |].
    { unfold afterBatch. simpl. fold size.
      rewrite length_take, length_drop. nia. }
    exists w'. split; [done|]. split; [done|]. split; [|done].
    rewrite Hdisp. unfold afterBatch. simpl. fold size.
    rewrite !dispatched_app, dispatched_dispatchEvents. simpl.
    rewrite app_nil_r, <- app_assoc. f_equal.
    apply started_until_failure. lia.
Qed.

(** The loop of [pipeChunksToStream] likewise, having written the blobs
    of the batches before [K] and no other. *)
Lemma pipeLoop_failure :
  let size := Z.to_nat concurrency in
  ∀ fuel q w,
    (q ≤ K)%nat → (K - q < fuel)%nat →
    calls w = (base + q * size)%nat →
    ∃ w',
      pipeLoop backend latency fuel chunks concurrency
        (Z.of_nat (q * size)) w = (Throw reason', w')
      ∧ calls w' = (base + length (take (K * size + size) chunks))%nat
      ∧ dispatched (trace w')
        = dispatched (trace w)
          ++ drop (q * size) (take (K * size + size) (number base chunks))
      ∧ written (trace w')
        = written (trace w) ++ drop (q * size) (take (K * size) vs)
      ∧ writer w' = writer w.
Proof.
  intros size. pose proof failing_index_in_range as Hj.
  induction fuel as [|fuel IH]; intros q w Hq Hfuel Hcalls; [lia|].
  cbn [pipeLoop]. unfold jslength.
  destruct (Z.ltb_spec (Z.of_nat (q * size)) (Z.of_nat (length chunks)))
    as [Hin|Hout]; [|nia].
  cbv zeta. destruct (decide (q = K)) as [->|Hne].
  - rewrite (turn_at chunks concurrency base concurrency_pos) by done.
    cbv zeta. unfold size. rewrite rejected_with. fold size.
    eexists. split; [done|]. unfold afterBatch. simpl. fold size.
    split; [|split; [|split; [|done]]].
    + rewrite !length_take, !length_drop. lia.
    + rewrite !dispatched_app, dispatched_dispatchEvents. simpl.
      rewrite app_nil_r. f_equal.
      by rewrite take_drop_commute.
    + rewrite !written_app, written_dispatchEvents. simpl.
      rewrite drop_ge; [done|]. rewrite length_take. lia.
  - rewrite (turn_fulfilled chunks concurrency base concurrency_pos _ w _
               (take size (drop (q * size) vs)))
      by (first [done | apply window_before; lia]).
    rewrite bind_run.
    destruct (mapM_writerWrite (take size (drop (q * size) vs))
                (afterBatch chunks concurrency base (q * size) true w))
      as [units ->].
    replace (Z.of_nat (q * size) + concurrency)
      with (Z.of_nat (S q * size)) by lia.
    match goal with
    | |- context [pipeLoop _ _ _ _ _ _ ?w1] =>
        destruct (IH (S q) w1)
          as (w' & Hrun & Hcalls' & Hdisp & Hwrit & Hwriter)
    end; [lia|lia| |].
    { unfold afterBatch. simpl. fold size.
      rewrite length_take, length_drop. nia. }
    exists w'. split; [done|]. split; [done|].
    unfold afterBatch in *. cbn [trace writer] in *.
    fold size in Hdisp, Hwrit.
    split; [|split; [|done]].
    + rewrite Hdisp.
      rewrite !dispatched_app, dispatched_dispatchEvents, dispatched_writes,
        dispatched_settled.
      rewrite !app_nil_r, <- app_assoc. f_equal.
      apply started_until_failure. lia.
    + rewrite Hwrit.
      rewrite !written_app, written_dispatchEvents, written_writes,
        written_settled.
      rewrite !app_nil_r, <- app_assoc. f_equal.
      apply written_until_failure. lia.
Qed.

End Failure.

(** With a concurrency of at least one both loops end: each turn moves
    the index forward and [Promise.all] always settles. *)
Lemma getVoiceLoop_ends (chunks : list JSString) (concurrency : Z) :
  1 <= concurrency →
  ∀ fuel n acc w,
    (length chunks - n < fuel)%nat →
    (getVoiceLoop backend latency fuel chunks concurrency (Z.of_nat n) acc w).1
    ≠ Diverge.
Proof.
  intros Hc. induction fuel as [|fuel IH]; intros n acc w Hfuel; [lia|].
  cbn [getVoiceLoop]. unfold jslength.
  destruct (Z.ltb_spec (Z.of_nat n) (Z.of_nat (length chunks))) as [Hin|Hout];
    [|done].
  cbv zeta. rewrite batch_turn.
  destruct (promiseAll latency _) as [vs|reason|] eqn:E.
  - replace (Z.of_nat n + concurrency)
      with (Z.of_nat (n + Z.to_nat concurrency)) by lia.
    apply IH. lia.
  - done.
  - by apply promiseAll_settles in E.
Qed.

Lemma pipeLoop_ends (chunks : list JSString) (concurrency : Z) :
  1 <= concurrency →
  ∀ fuel n w,
    (length chunks - n < fuel)%nat →
    (pipeLoop backend latency fuel chunks concurrency (Z.of_nat n) w).1
    ≠ Diverge.
Proof.
  intros Hc. induction fuel as [|fuel IH]; intros n w Hfuel; [lia|].
  cbn [pipeLoop]. unfold jslength.
  destruct (Z.ltb_spec (Z.of_nat n) (Z.of_nat (length chunks))) as [Hin|Hout];
    [|done].
  cbv zeta. rewrite batch_turn.
  destruct (promiseAll latency _) as [vs|reason|] eqn:E.
  - rewrite bind_run.
    match goal with
    | |- context [mapM writerWrite vs ?w1] =>
        destruct (mapM_writerWrite vs w1) as [units ->]
    end.
    replace (Z.of_nat n + concurrency)
      with (Z.of_nat (n + Z.to_nat concurrency)) by lia.
    apply IH. lia.
  - done.
  - by apply promiseAll_settles in E.
Qed.

(** With a concurrency of zero or less every batch but the first one of
    a negative concurrency is empty. *)
Lemma slice_none {A} (a : list A) (concurrency i : Z) :
  concurrency <= 0 → i <= 0 → (i < 0 ∨ concurrency = 0) →
  slice a i (i + concurrency) = [].
Proof.
  intros Hc Hi Hcase. unfold slice, relIndex.
  pose proof (jslength_nonneg a) as Hlen.
  replace (Z.to_nat _) with 0%nat; [done|].
  destruct (Z.ltb_spec i 0), (Z.ltb_spec (i + concurrency) 0); lia.
Qed.

Lemma promiseAll_nil : promiseAll latency [] = Fulfilled [].
Proof. by apply promiseAll_fulfilled. Qed.

(** ... and the loops turn for ever on empty batches. *)
Lemma getVoiceLoop_spins (chunks : list JSString) (concurrency : Z) :
  chunks ≠ [] → concurrency <= 0 →
  ∀ fuel i acc w,
    i <= 0 → (i < 0 ∨ concurrency = 0) →
    (getVoiceLoop backend latency fuel chunks concurrency i acc w).1 = Diverge.
Proof.
  intros Hne Hc. induction fuel as [|fuel IH]; intros i acc w Hi Hcase; [done|].
  cbn [getVoiceLoop]. unfold jslength.
  destruct (Z.ltb_spec i (Z.of_nat (length chunks))) as [Hin|Hout].
  - cbv zeta. rewrite batch_turn, slice_none by done.
    change (promisesOf backend (calls w) []) with ([] : list Promise).
    rewrite promiseAll_nil. apply IH; lia.
  - destruct chunks; [done|]. simpl in Hout. lia.
Qed.

Lemma pipeLoop_spins (chunks : list JSString) (concurrency : Z) :
  chunks ≠ [] → concurrency <= 0 →
  ∀ fuel i w,
    i <= 0 → (i < 0 ∨ concurrency = 0) →
    (pipeLoop backend latency fuel chunks concurrency i w).1 = Diverge.
Proof.
  intros Hne Hc. induction fuel as [|fuel IH]; intros i w Hi Hcase; [done|].
  cbn [pipeLoop]. unfold jslength.
  destruct (Z.ltb_spec i (Z.of_nat (length chunks))) as [Hin|Hout].
  - cbv zeta. rewrite batch_turn, slice_none by done.
    change (promisesOf backend (calls w) []) with ([] : list Promise).
    rewrite promiseAll_nil. rewrite bind_run.
    match goal with
    | |- context [mapM writerWrite [] ?w1] =>
        destruct (mapM_writerWrite [] w1) as [units ->]
    end.
    apply IH; lia.
  - destruct chunks; [done|]. simpl in Hout. lia.
Qed.

(** The first turn of a run with a concurrency of zero or less: the
    loops go on spinning when its calls succeed and throw when one of
    them fails. *)
Lemma getVoiceLoop_nonpositive (chunks : list JSString) (concurrency : Z)
    (w : World) :
  chunks ≠ [] → concurrency <= 0 →
  let first := outcomes backend (calls w) (slice chunks 0 concurrency) in
  ((∃ vs, first = Returned <$> vs) →
   ∀ fuel, (getVoiceLoop backend latency fuel chunks concurrency 0 [] w).1
           = Diverge)
  ∧ ((∃ reason, Thrown reason ∈ first) →
     ∀ fuel, ∃ reason' w',
       getVoiceLoop backend latency (S fuel) chunks concurrency 0 [] w
       = (Throw reason', w')).
Proof.
  intros Hne Hc first. split.
  - intros [vs Hvs] [|fuel]; [done|].
    cbn [getVoiceLoop]. unfold jslength.
    destruct (Z.ltb_spec 0 (Z.of_nat (length chunks))) as [Hin|Hout].
    + cbv zeta. rewrite batch_turn. rewrite Z.add_0_l.
      rewrite (promiseAll_fulfilled latency _ vs)
        by (by rewrite promisesOf_outcomes).
      destruct (decide (concurrency = 0)) as [->|Hneg].
      * apply getVoiceLoop_spins; [done|lia|lia|by right].
      * apply getVoiceLoop_spins; [done|lia|lia|left; lia].
    + destruct chunks; [done|]. simpl in Hout. lia.
  - intros [reason Hin] fuel.
    cbn [getVoiceLoop]. unfold jslength.
    destruct (Z.ltb_spec 0 (Z.of_nat (length chunks))) as [Hpos|Hout].
    + cbv zeta. rewrite batch_turn. rewrite Z.add_0_l.
      destruct (promiseAll_rejected latency
                  (promisesOf backend (calls w) (slice chunks 0 concurrency))
                  reason) as (reason' & -> & _).
      { by rewrite promisesOf_outcomes. }
      by eexists _, _.
    + destruct chunks; [done|]. simpl in Hout. lia.
Qed.

Lemma pipeLoop_nonpositive (chunks : list JSString) (concurrency : Z)
    (w : World) :
  chunks ≠ [] → concurrency <= 0 →
  let first := outcomes backend (calls w) (slice chunks 0 concurrency) in
  ((∃ vs, first = Returned <$> vs) →
   ∀ fuel, (pipeLoop backend latency fuel chunks concurrency 0 w).1 = Diverge)
  ∧ ((∃ reason, Thrown reason ∈ first) →
     ∀ fuel, ∃ reason' w',
       pipeLoop backend latency (S fuel) chunks concurrency 0 w
       = (Throw reason', w')).
Proof.
  intros Hne Hc first. split.
  - intros [vs Hvs] [|fuel]; [done|].
    cbn [pipeLoop]. unfold jslength.
    destruct (Z.ltb_spec 0 (Z.of_nat (length chunks))) as [Hin|Hout].
    + cbv zeta. rewrite batch_turn. rewrite Z.add_0_l.
      rewrite (promiseAll_fulfilled latency _ vs)
        by (by rewrite promisesOf_outcomes).
      rewrite bind_run.
      match goal with
      | |- context [mapM writerWrite vs ?w1] =>
          destruct (mapM_writerWrite vs w1) as [units ->]
      end.
      destruct (decide (concurrency = 0)) as [->|Hneg].
      * apply pipeLoop_spins; [done|lia|lia|by right].
      * apply pipeLoop_spins; [done|lia|lia|left; lia].
    + destruct chunks; [done|]. simpl in Hout. lia.
  - intros [reason Hin] fuel.
    cbn [pipeLoop]. unfold jslength.
    destruct (Z.ltb_spec 0 (Z.of_nat (length chunks))) as [Hpos|Hout].
    + cbv zeta. rewrite batch_turn. rewrite Z.add_0_l.
      destruct (promiseAll_rejected latency
                  (promisesOf backend (calls w) (slice chunks 0 concurrency))
                  reason) as (reason' & -> & _).
      { by rewrite promisesOf_outcomes. }
      by eexists _, _.
    + destruct chunks; [done|]. simpl in Hout. lia.
Qed.

(** A loop that has ended gives the same result with more fuel. *)
Lemma getVoiceLoop_fuel_mono (chunks : list JSString) (concurrency : Z) :
  ∀ fuel fuel' i acc w,
    (fuel ≤ fuel')%nat →
    (getVoiceLoop backend latency fuel chunks concurrency i acc w).1 ≠ Diverge →
    getVoiceLoop backend latency fuel' chunks concurrency i acc w
    = getVoiceLoop backend latency fuel chunks concurrency i acc w.
Proof.
  induction fuel as [|fuel IH]; intros fuel' i acc w Hle Hend; [done|].
  destruct fuel' as [|fuel']; [lia|].
  cbn [getVoiceLoop] in *.
  destruct (i <? jslength chunks); [|done].
  cbv zeta in *. rewrite batch_turn in Hend. rewrite !batch_turn.
  destruct (promiseAll latency _); [|done..].
  apply IH; [lia|done].
Qed.

Lemma pipeLoop_fuel_mono (chunks : list JSString) (concurrency : Z) :
  ∀ fuel fuel' i w,
    (fuel ≤ fuel')%nat →
    (pipeLoop backend latency fuel chunks concurrency i w).1 ≠ Diverge →
    pipeLoop backend latency fuel' chunks concurrency i w
    = pipeLoop backend latency fuel chunks concurrency i w.
Proof.
  induction fuel as [|fuel IH]; intros fuel' i w Hle Hend; [done|].
  destruct fuel' as [|fuel']; [lia|].
  cbn [pipeLoop] in *.
  destruct (i <? jslength chunks); [|done].
  cbv zeta in *. rewrite batch_turn in Hend. rewrite !batch_turn.
  destruct (promiseAll latency _) as [vs|reason|]; [|done..].
  rewrite bind_run in Hend. rewrite !bind_run.
  match goal with
  | |- context [mapM writerWrite vs ?w1] =>
      destruct (mapM_writerWrite vs w1) as [units Hwrite]
  end.
  rewrite Hwrite in Hend. rewrite Hwrite.
  apply IH; [lia|done].
Qed.

(** *** The functions around the loops *)

Lemma getVoice_run (fuel : nat) (textChunks : list JSString)
    (concurrency : Z) (w : World) :
  getVoice backend latency fuel textChunks concurrency w
  = match getVoiceLoop backend latency fuel textChunks concurrency 0 [] w with
    | (Normal allAudioBlobs, w') =>
        (Normal (AudioResponse (concat allAudioBlobs)),
         logEvent (EvResponse (AudioResponse (concat allAudioBlobs))) w')
    | (Throw error, w') =>
        (Normal (ErrorResponse error 500 (js "tts_generation_error")),
         logEvent
           (EvResponse (ErrorResponse error 500 (js "tts_generation_error"))) w')
    | (Diverge, w') => (Diverge, w')
    end.
Proof.
  unfold getVoice, tryCatch. rewrite bind_run.
  by destruct (getVoiceLoop backend latency fuel textChunks concurrency 0 [] w)
    as [[allAudioBlobs|error|] w'].
Qed.

Lemma pipeChunksToStream_run (fuel : nat) (chunks : list JSString)
    (concurrency : Z) (w : World) :
  pipeChunksToStream backend latency fuel chunks concurrency w
  = match pipeLoop backend latency fuel chunks concurrency 0 w with
    | (Normal _, w') =>
        (Normal tt,
         {| calls := calls w'; trace := trace w' ++ [EvClose];
            writer := match writer w' with Writable => Closed | s => s end |})
    | (Throw error, w') =>
        (Throw error,
         {| calls := calls w';
            trace := (trace w' ++ [EvAbort error]) ++ [EvClose];
            writer := match writer w' with
                      | Writable => Errored error
                      | s => s
                      end |})
    | (Diverge, w') => (Diverge, w')
    end.
Proof.
  unfold pipeChunksToStream, tryFinally, tryCatch.
  destruct (pipeLoop backend latency fuel chunks concurrency 0 w)
    as [[[]|error|] w']; [done| |done].
  rewrite bind_run. simpl. by destruct (writer w').
Qed.

Lemma streamVoice_run (fuel : nat) (textChunks : list JSString)
    (concurrency : Z) (w : World) :
  streamVoice backend latency fuel textChunks concurrency w
  = match pipeChunksToStream backend latency fuel textChunks concurrency w with
    | (Normal _, w') =>
        (Normal StreamResponse, logEvent (EvResponse StreamResponse) w')
    | (Throw error, w') =>
        (Normal (ErrorResponse error 500 (js "tts_generation_error")),
         logEvent
           (EvResponse (ErrorResponse error 500 (js "tts_generation_error"))) w')
    | (Diverge, w') => (Diverge, w')
    end.
Proof.
  unfold streamVoice, tryCatch. rewrite bind_run.
  by destruct (pipeChunksToStream backend latency fuel textChunks concurrency w)
    as [[[]|error|] w'].
Qed.

End Runs.

End PipelineRuns.
Import PipelineRuns.

(** *** The claims on the pipeline *)

Module PipelineClaims.

(** C1: for every chunk list and every concurrency limit of at least
    one, when the synthesis calls succeed, [getVoice] cuts the chunks
    into consecutive non-empty batches of at most the limit, starts the
    calls of a batch only after the batch before has settled, and
    responds with the concatenation of the blobs in the order of the
    chunks, whatever the latencies of the calls. *)
Theorem getVoice_ordered_payload
    (backend : nat → JSString → Completion Blob) (latency : nat → nat)
    (chunks : list JSString) (concurrency : Z) (blobs : list Blob)
    (fuel : nat) (w : World) :
  1 <= concurrency →
  (length chunks < fuel)%nat →
  outcomes backend (calls w) chunks = Returned <$> blobs →
  let size := Z.to_nat concurrency in
  let jobs := number (calls w) chunks in
  concat (batches size jobs) = jobs
  ∧ Forall (λ b, (0 < length b ≤ size)%nat) (batches size jobs)
  ∧ getVoice backend latency fuel chunks concurrency w
    = (Normal (AudioResponse (concat blobs)),
       {| calls := calls w + length chunks;
          trace := trace w
                   ++ concat (zip_with
                                (λ b vs, dispatchEvents b ++ [EvBatchSettled true])
                                (batches size jobs) (batches size blobs))
                   ++ [EvResponse (AudioResponse (concat blobs))];
          writer := writer w |}).
Proof.
  intros Hc Hfuel Hok size jobs.
  split; [apply batches_concat; lia|].
  split; [apply batches_sizes; lia|].
  rewrite getVoice_run.
  change 0 with (Z.of_nat 0).
  rewrite (getVoiceLoop_success backend latency chunks concurrency (calls w)
             blobs Hc Hok) by lia.
  unfold logEvent. simpl. rewrite !drop_0. fold size jobs.
  f_equal. f_equal. rewrite <- app_assoc. by f_equal.
Qed.

Lemma getVoice_ordered_payload_witness :
  let chunks := [js "a."; js "b,"; js "c"] in
  let blobs := [[Byte.x2a]; [Byte.x2a; Byte.x2a]; [Byte.x2a; Byte.x2a; Byte.x2a]] in
  getVoice sampleBackend sampleLatency 4 chunks 2 initialWorld
  = (Normal (AudioResponse (concat blobs)),
     {| calls := 3;
        trace := [EvDispatch 0 (js "a."); EvDispatch 1 (js "b,");
                  EvBatchSettled true;
                  EvDispatch 2 (js "c"); EvBatchSettled true;
                  EvResponse (AudioResponse (concat blobs))];
        writer := Writable |}).
Proof.
  intros chunks blobs.
  refine (proj2 (proj2 (getVoice_ordered_payload sampleBackend sampleLatency
                          chunks 2 blobs 4 initialWorld _ _ _))).
  - lia.
  - simpl. lia.
  - reflexivity.
Defined.

(** C2: when the call made for chunk [j] is the first to fail, with a
    concurrency limit of at least one, the calls started are those of
    the chunks up to the end of the batch of [j] and no other; [getVoice]
    answers with an error; [pipeChunksToStream] throws, has written the
    blobs of the batches before that batch only, and has aborted the
    writer before it closes it, which leaves the stream errored;
    [streamVoice] answers with an error. *)
Theorem pipeline_fails_fast
    (backend : nat → JSString → Completion Blob) (latency : nat → nat)
    (chunks : list JSString) (concurrency : Z) (j : nat) (reason : Error)
    (vs : list Blob) (fuel : nat) (w : World) :
  1 <= concurrency →
  (length chunks < fuel)%nat →
  outcomes backend (calls w) chunks !! j = Some (Thrown reason) →
  take j (outcomes backend (calls w) chunks) = Returned <$> vs →
  writer w = Writable →
  let size := Z.to_nat concurrency in
  let K := (j / size)%nat in
  let started := take (K * size + size) (number (calls w) chunks) in
  ∃ reason',
    Thrown reason'
    ∈ take size (drop (K * size) (outcomes backend (calls w) chunks))
    ∧ (∃ w',
         getVoice backend latency fuel chunks concurrency w
         = (Normal (ErrorResponse reason' 500 (js "tts_generation_error")), w')
         ∧ dispatched (trace w') = dispatched (trace w) ++ started)
    ∧ (∃ w',
         pipeChunksToStream backend latency fuel chunks concurrency w
         = (Throw reason', w')
         ∧ dispatched (trace w') = dispatched (trace w) ++ started
         ∧ written (trace w') = written (trace w) ++ take (K * size) vs
         ∧ writer w' = Errored reason'
         ∧ ∃ tr, trace w' = tr ++ [EvAbort reason'; EvClose])
    ∧ (streamVoice backend latency fuel chunks concurrency w).1
      = Normal (ErrorResponse reason' 500 (js "tts_generation_error")).
Proof.
  intros Hc Hfuel Hfail Hbefore Hwriter size K started.
  assert (0 < size)%nat as Hsize by lia.
  assert (K * size ≤ j < K * size + size)%nat as HK.
  { pose proof (Nat.div_mod_eq j size) as Hdiv.
    pose proof (Nat.mod_upper_bound j size) as Hmod. fold K in Hdiv. lia. }
  assert (j < length chunks)%nat as Hj.
  { apply lookup_lt_Some in Hfail. unfold outcomes in Hfail.
    by rewrite length_fmap, number_length in Hfail. }
  destruct (promiseAll_rejected latency
              (promisesOf backend (calls w + K * size)
                 (take size (drop (K * size) chunks))) reason)
    as (reason' & Hrej & Hin).
  { rewrite promisesOf_outcomes, outcomes_window.
    apply list_elem_of_lookup. exists (j - K * size)%nat.
    rewrite lookup_take_lt by lia. rewrite lookup_drop.
    by replace (K * size + (j - K * size))%nat with j by lia. }
  rewrite promisesOf_outcomes, outcomes_window in Hin.
  exists reason'. split; [done|]. split; [|split].
  - destruct (getVoiceLoop_failure backend latency chunks concurrency (calls w)
                j K reason vs Hc Hfail Hbefore HK reason' Hrej fuel 0%nat [] w)
      as (w' & Hrun & _ & Hdisp & _); [lia|nia|lia|].
    rewrite getVoice_run.
    replace (Z.of_nat (0 * Z.to_nat concurrency)) with 0 in Hrun by lia.
    rewrite Hrun.
    eexists. split; [done|].
    unfold logEvent. simpl. rewrite dispatched_app, Hdisp. simpl.
    by rewrite app_nil_r, drop_0.
  - destruct (pipeLoop_failure backend latency chunks concurrency (calls w)
                j K reason vs Hc Hfail Hbefore HK reason' Hrej fuel 0%nat w)
      as (w' & Hrun & _ & Hdisp & Hwrit & Hwr); [lia|nia|lia|].
    rewrite pipeChunksToStream_run.
    replace (Z.of_nat (0 * Z.to_nat concurrency)) with 0 in Hrun by lia.
    rewrite Hrun.
    eexists. split; [done|]. simpl.
    rewrite !dispatched_app, !written_app, Hdisp, Hwrit, Hwr, Hwriter. simpl.
    rewrite !app_nil_r, !drop_0.
    split; [done|]. split; [done|]. split; [done|].
    exists (trace w'). by rewrite <- app_assoc.
  - destruct (pipeLoop_failure backend latency chunks concurrency (calls w)
                j K reason vs Hc Hfail Hbefore HK reason' Hrej fuel 0%nat w)
      as (w' & Hrun & _); [lia|nia|lia|].
    rewrite streamVoice_run, pipeChunksToStream_run.
    replace (Z.of_nat (0 * Z.to_nat concurrency)) with 0 in Hrun by lia.
    by rewrite Hrun.
Qed.

Lemma pipeline_fails_fast_witness :
  let chunks := [js "a."; js "b,"; js "c;"; js "d:"; js "e"] in
  let backend := failingBackend 2 in
  ∃ reason',
    Thrown reason'
    ∈ take 2 (drop (1 * 2) (outcomes backend 0 chunks))
    ∧ (∃ w',
         getVoice backend sampleLatency 6 chunks 2 initialWorld
         = (Normal (ErrorResponse reason' 500 (js "tts_generation_error")), w')
         ∧ dispatched (trace w')
           = [] ++ take (1 * 2 + 2) (number 0 chunks))
    ∧ (∃ w',
         pipeChunksToStream backend sampleLatency 6 chunks 2 initialWorld
         = (Throw reason', w')
         ∧ dispatched (trace w')
           = [] ++ take (1 * 2 + 2) (number 0 chunks)
         ∧ written (trace w')
           = [] ++ take (1 * 2) [[Byte.x2a]; [Byte.x2a; Byte.x2a]]
         ∧ writer w' = Errored reason'
         ∧ ∃ tr, trace w' = tr ++ [EvAbort reason'; EvClose])
    ∧ (streamVoice backend sampleLatency 6 chunks 2 initialWorld).1
      = Normal (ErrorResponse reason' 500 (js "tts_generation_error")).
Proof.
  intros chunks backend.
  refine (pipeline_fails_fast backend sampleLatency chunks 2 2
            (js "Edge TTS API error: 500") [[Byte.x2a]; [Byte.x2a; Byte.x2a]]
            6 initialWorld _ _ _ _ _).
  - lia.
  - simpl. lia.
  - reflexivity.
  - reflexivity.
  - reflexivity.
Defined.

Lemma batchesTrace_no_response (stream : bool) (size : nat)
    (jobs : list (nat * JSString)) (vs : list Blob) :
  Forall (λ ev, isResponse ev = false) (batchesTrace stream size jobs vs).
Proof.
  unfold batchesTrace. apply Forall_concat.
  generalize (batches size jobs) (batches size vs).
  induction l as [|b l IH]; intros [|v l0]; simpl; try by constructor.
  constructor; [|apply IH].
  unfold batchEvents, dispatchEvents.
  rewrite !Forall_app. split; [|split].
  - apply Forall_fmap, Forall_forall. by intros [n text] _.
  - by constructor.
  - destruct stream; [|done]. apply Forall_fmap, Forall_forall. by intros x _.
Qed.

Lemma respondsBeforeLastBatch_at_end (tr : list Event) (response : Response) :
  Forall (λ ev, isResponse ev = false) tr →
  respondsBeforeLastBatch (tr ++ [EvResponse response]) = false.
Proof.
  induction 1 as [|ev tr Hev Htr IH]; [done|].
  simpl. by destruct ev.
Qed.

(** C5, as the specification states it, does not hold: with two chunks
    and a concurrency of one, in streaming mode, no batch settles after
    the [Response] is produced; the [Response] is the last event of the
    run. *)
Lemma streamVoice_responds_after_all_batches :
  ¬ (∀ (backend : nat → JSString → Completion Blob) (latency : nat → nat)
       (chunks : list JSString) (concurrency : Z) (blobs : list Blob)
       (fuel : nat) (w : World),
       chunks ≠ [] → 1 <= concurrency → (length chunks < fuel)%nat →
       outcomes backend (calls w) chunks = Returned <$> blobs →
       respondsBeforeLastBatch
         (trace (streamVoice backend latency fuel chunks concurrency w).2)
       = true).
Proof.
  intros H.
  specialize (H sampleBackend sampleLatency [js "a."; js "b"] 1
                [[Byte.x2a]; [Byte.x2a; Byte.x2a]] 3%nat initialWorld).
  assert (respondsBeforeLastBatch
            (trace (streamVoice sampleBackend sampleLatency 3
                      [js "a."; js "b"] 1 initialWorld).2) = true) as Hclaim.
  { apply H; [done|lia|simpl; lia|reflexivity]. }
  vm_compute in Hclaim. discriminate.
Qed.

(** C5, amended: in streaming mode, with a concurrency limit of at least
    one and calls that succeed, the blobs of each batch are written, in
    the order of the chunks, as soon as the batch has settled and before
    any call of the next batch is started; the [Response] is produced
    after the last batch has settled and been written and the writer has
    been closed, never before. *)
Theorem streamVoice_writes_batches_then_responds
    (backend : nat → JSString → Completion Blob) (latency : nat → nat)
    (chunks : list JSString) (concurrency : Z) (blobs : list Blob)
    (fuel : nat) (w : World) :
  1 <= concurrency →
  (length chunks < fuel)%nat →
  outcomes backend (calls w) chunks = Returned <$> blobs →
  let size := Z.to_nat concurrency in
  let jobs := number (calls w) chunks in
  let events :=
    concat (zip_with
              (λ b vs, dispatchEvents b ++ [EvBatchSettled true]
                       ++ (EvWrite <$> vs))
              (batches size jobs) (batches size blobs))
    ++ [EvClose; EvResponse StreamResponse] in
  streamVoice backend latency fuel chunks concurrency w
  = (Normal StreamResponse,
     {| calls := calls w + length chunks;
        trace := trace w ++ events;
        writer := match writer w with Writable => Closed | s => s end |})
  ∧ respondsBeforeLastBatch events = false.
Proof.
  intros Hc Hfuel Hok size jobs events. split.
  - rewrite streamVoice_run, pipeChunksToStream_run.
    change 0 with (Z.of_nat 0).
    rewrite (pipeLoop_success backend latency chunks concurrency (calls w)
               blobs Hc Hok) by lia.
    unfold logEvent. simpl. rewrite !drop_0. fold size jobs.
    f_equal. f_equal. by rewrite <- !app_assoc.
  - subst events.
    change [EvClose; EvResponse StreamResponse]
      with ([EvClose] ++ [EvResponse StreamResponse]).
    rewrite app_assoc. apply respondsBeforeLastBatch_at_end.
    apply Forall_app. split; [|by constructor].
    apply (batchesTrace_no_response true).
Qed.

Lemma streamVoice_writes_batches_then_responds_witness :
  let chunks := [js "a."; js "b,"; js "c"] in
  let events :=
    [EvDispatch 0 (js "a."); EvDispatch 1 (js "b,"); EvBatchSettled true;
     EvWrite [Byte.x2a]; EvWrite [Byte.x2a; Byte.x2a];
     EvDispatch 2 (js "c"); EvBatchSettled true;
     EvWrite [Byte.x2a; Byte.x2a; Byte.x2a];
     EvClose; EvResponse StreamResponse] in
  streamVoice sampleBackend sampleLatency 4 chunks 2 initialWorld
  = (Normal StreamResponse,
     {| calls := 3; trace := events; writer := Closed |})
  ∧ respondsBeforeLastBatch events = false.
Proof.
  intros chunks events.
  refine (streamVoice_writes_batches_then_responds sampleBackend sampleLatency
            chunks 2 [[Byte.x2a]; [Byte.x2a; Byte.x2a];
                      [Byte.x2a; Byte.x2a; Byte.x2a]] 4 initialWorld _ _ _).
  - lia.
  - simpl. lia.
  - reflexivity.
Defined.

(** The request handler hands the request's [concurrency] to the
    pipeline as it is. *)
Lemma handleSpeechRequest_passes_concurrency
    (backend : nat → JSString → Completion Blob) (latency : nat → nat)
    (cleanText : JSString → JSString) (fuel : nat)
    (requestBody : RequestBody) (concurrency : Z) (textChunks : list JSString) :
  body_input requestBody ≠ [] →
  body_concurrency requestBody = Some concurrency →
  smartChunkText (cleanText (body_input requestBody))
    (default DEFAULT_CHUNK_SIZE (body_chunk_size requestBody))
  = Some textChunks →
  handleSpeechRequest backend latency cleanText fuel requestBody
  = if default false (body_stream requestBody)
    then streamVoice backend latency fuel textChunks concurrency
    else getVoice backend latency fuel textChunks concurrency.
Proof.
  intros Hinput Hconc Hchunks. unfold handleSpeechRequest.
  apply truthy_true in Hinput. rewrite Hinput. cbv zeta.
  by rewrite Hchunks, Hconc.
Qed.

(** A request with a concurrency of -1 whose first synthesis call
    fails: the handler answers with an error. *)
Example handleSpeechRequest_negative_concurrency :
  (handleSpeechRequest (failingBackend 0) sampleLatency trim 1
     {| body_input := js "a. b"; body_stream := None;
        body_concurrency := Some (-1); body_chunk_size := Some 2 |}
     initialWorld).1
  = Normal (ErrorResponse (js "Edge TTS API error: 500") 500
              (js "tts_generation_error")).
Proof. by vm_compute. Qed.

(** C10, as stated, does not hold: with the chunks [a.] and [b], a
    concurrency of -1 and a first synthesis call that fails, the loop of
    [getVoice] ends in its first turn. *)
Lemma getVoice_ends_with_negative_concurrency :
  ¬ (∀ (backend : nat → JSString → Completion Blob) (latency : nat → nat)
       (chunks : list JSString) (concurrency : Z) (w : World),
       chunks ≠ [] → concurrency <= 0 →
       neverTerminates
         (λ fuel, getVoice backend latency fuel chunks concurrency) w).
Proof.
  intros H.
  specialize (H (failingBackend 0) sampleLatency [js "a."; js "b"] (-1)
                initialWorld).
  assert (neverTerminates
            (λ fuel, getVoice (failingBackend 0) sampleLatency fuel
                       [js "a."; js "b"] (-1)) initialWorld) as Hclaim.
  { apply H; [done|lia]. }
  specialize (Hclaim 1%nat). vm_compute in Hclaim. discriminate.
Qed.

(** C10, amended: the loops of [getVoice] and [pipeChunksToStream] end
    when the chunk list is empty or the concurrency is at least one.
    With a non-empty chunk list and a concurrency of zero or less they
    never end when the calls of the first batch, [chunks.slice(0,
    concurrency)], succeed, which they do when the concurrency is zero,
    that batch being empty; they end, by the error path, when one of
    these calls fails. *)
Theorem batch_loops_termination
    (backend : nat → JSString → Completion Blob) (latency : nat → nat)
    (chunks : list JSString) (concurrency : Z) (w : World) :
  let runGetVoice := λ fuel, getVoice backend latency fuel chunks concurrency in
  let runPipe :=
    λ fuel, pipeChunksToStream backend latency fuel chunks concurrency in
  let first := outcomes backend (calls w) (slice chunks 0 concurrency) in
  (chunks = [] ∨ 1 <= concurrency →
   terminates runGetVoice w ∧ terminates runPipe w)
  ∧ (chunks ≠ [] → concurrency <= 0 → (∃ vs, first = Returned <$> vs) →
     neverTerminates runGetVoice w ∧ neverTerminates runPipe w)
  ∧ (chunks ≠ [] → concurrency = 0 →
     neverTerminates runGetVoice w ∧ neverTerminates runPipe w)
  ∧ (chunks ≠ [] → concurrency <= 0 → (∃ reason, Thrown reason ∈ first) →
     terminates runGetVoice w ∧ terminates runPipe w).
Proof.
  intros runGetVoice runPipe first.
  assert (chunks ≠ [] → concurrency <= 0 → (∃ vs, first = Returned <$> vs) →
          neverTerminates runGetVoice w ∧ neverTerminates runPipe w) as Hnever.
  { intros Hne Hc Hok. split; intros fuel.
    - unfold runGetVoice. rewrite getVoice_run.
      pose proof (proj1 (getVoiceLoop_nonpositive backend latency chunks
                           concurrency w Hne Hc) Hok fuel) as Hloop.
      by destruct (getVoiceLoop backend latency fuel chunks concurrency 0 [] w)
        as [[?|?|] ?]; simplify_eq/=.
    - unfold runPipe. rewrite pipeChunksToStream_run.
      pose proof (proj1 (pipeLoop_nonpositive backend latency chunks
                           concurrency w Hne Hc) Hok fuel) as Hloop.
      by destruct (pipeLoop backend latency fuel chunks concurrency 0 w)
        as [[?|?|] ?]; simplify_eq/=. }
  split; [|split; [done|split]].
  - intros [->|Hc].
    + split; exists 1%nat; by vm_compute.
    + split; exists (S (length chunks)).
      * unfold runGetVoice. rewrite getVoice_run.
        pose proof (getVoiceLoop_ends backend latency chunks concurrency Hc
                      (S (length chunks)) 0%nat [] w) as Hloop.
        change (Z.of_nat 0) with 0 in Hloop.
        destruct (getVoiceLoop backend latency (S (length chunks)) chunks
                    concurrency 0 [] w) as [[?|?|] ?]; try done.
        simpl in Hloop. exfalso. apply Hloop; [lia|done].
      * unfold runPipe. rewrite pipeChunksToStream_run.
        pose proof (pipeLoop_ends backend latency chunks concurrency Hc
                      (S (length chunks)) 0%nat w) as Hloop.
        change (Z.of_nat 0) with 0 in Hloop.
        destruct (pipeLoop backend latency (S (length chunks)) chunks
                    concurrency 0 w) as [[?|?|] ?]; try done.
        simpl in Hloop. exfalso. apply Hloop; [lia|done].
  - intros Hne ->. apply Hnever; [done|lia|].
    exists []. subst first.
    assert (slice chunks 0 0 = []) as Hs.
    { apply (slice_none chunks 0 0); [lia|lia|by right]. }
    by rewrite Hs.
  - intros Hne Hc Hfail. split; exists 1%nat.
    + unfold runGetVoice. rewrite getVoice_run.
      destruct (proj2 (getVoiceLoop_nonpositive backend latency chunks
                         concurrency w Hne Hc) Hfail 0%nat)
        as (reason' & w' & ->).
      done.
    + unfold runPipe. rewrite pipeChunksToStream_run.
      destruct (proj2 (pipeLoop_nonpositive backend latency chunks
                         concurrency w Hne Hc) Hfail 0%nat)
        as (reason' & w' & ->).
      done.
Qed.

Lemma batch_loops_termination_witness :
  let chunks := [js "a."; js "b"] in
  (terminates (λ fuel, getVoice sampleBackend sampleLatency fuel chunks 1)
     initialWorld
   ∧ terminates
       (λ fuel, pipeChunksToStream sampleBackend sampleLatency fuel chunks 1)
       initialWorld)
  ∧ (neverTerminates (λ fuel, getVoice sampleBackend sampleLatency fuel chunks 0)
       initialWorld
     ∧ neverTerminates
         (λ fuel, pipeChunksToStream sampleBackend sampleLatency fuel chunks 0)
         initialWorld)
  ∧ (neverTerminates
       (λ fuel, getVoice sampleBackend sampleLatency fuel chunks (-1))
       initialWorld
     ∧ neverTerminates
         (λ fuel, pipeChunksToStream sampleBackend sampleLatency fuel chunks (-1))
         initialWorld)
  ∧ (terminates
       (λ fuel, getVoice (failingBackend 0) sampleLatency fuel chunks (-1))
       initialWorld
     ∧ terminates
         (λ fuel,
            pipeChunksToStream (failingBackend 0) sampleLatency fuel chunks (-1))
         initialWorld).
Proof.
  intros chunks. split; [|split; [|split]].
  - refine (proj1 (batch_loops_termination sampleBackend sampleLatency
                     chunks 1 initialWorld) _).
    right. lia.
  - refine (proj1 (proj2 (proj2 (batch_loops_termination sampleBackend
                                   sampleLatency chunks 0 initialWorld))) _ _).
    + discriminate.
    + reflexivity.
  - refine (proj1 (proj2 (batch_loops_termination sampleBackend sampleLatency
                            chunks (-1) initialWorld)) _ _ _).
    + discriminate.
    + lia.
    + exists [[Byte.x2a]]. reflexivity.
  - refine (proj2 (proj2 (proj2 (batch_loops_termination (failingBackend 0)
                                   sampleLatency chunks (-1) initialWorld)))
              _ _ _).
    + discriminate.
    + lia.
    + exists (js "Edge TTS API error: 500").
      apply (list_elem_of_here
               (Thrown (js "Edge TTS API error: 500") : Completion Blob) []).
Defined.

End PipelineClaims.

(** * Further properties *)

(** ** The segmenter *)

Module SegmenterExtra.

Lemma trimStart_idem (s : JSString) : trimStart (trimStart s) = trimStart s.
Proof.
  induction s as [|c s IH]; [done|].
  simpl. destruct (isWhiteSpace c) eqn:E; [done|]. simpl. by rewrite E.
Qed.

Lemma trimStart_prefix (t trail : JSString) :
  trimStart (t ++ trail) = t ++ trail → trimStart t = t.
Proof.
  destruct t as [|c t]; [done|].
  simpl. destruct (isWhiteSpace c); [|done].
  intros H. pose proof (trimStart_length (t ++ trail)) as Hlen.
  rewrite H in Hlen. simpl in Hlen. lia.
Qed.

(** Trimming twice is trimming once. *)
Lemma trim_idem (s : JSString) : trim (trim s) = trim s.
Proof.
  unfold trim at 1.
  assert (trimStart (trim s) = trim s) as ->.
  { destruct (trimStart_split (reverse (trimStart s))) as (rtrail & Hr & _).
    apply (trimStart_prefix _ (reverse rtrail)).
    unfold trim, trimEnd. rewrite <- reverse_app, <- Hr, reverse_involutive.
    apply trimStart_idem. }
  unfold trim, trimEnd. by rewrite reverse_involutive, trimStart_idem.
Qed.

Lemma splitScan_alternating (s : JSString) :
  ∀ piece,
    (plainPart piece → alternating (splitScan s piece false))
    ∧ (boundaryRun piece →
       ∃ r rest, splitScan s piece true = r :: rest
                 ∧ boundaryRun r ∧ alternating rest).
Proof.
  unfold plainPart, boundaryRun.
  induction s as [|c s IH]; intros piece; simpl.
  - split.
    + intros H. by apply Forall_reverse.
    + intros [Hne H]. exists (reverse piece), [[]].
      split; [done|]. split; [|by constructor].
      split; [|by apply Forall_reverse].
      intros Hr%(f_equal reverse). by rewrite reverse_involutive in Hr.
  - destruct (isBoundary c) eqn:E; split.
    + intros H.
      destruct (proj2 (IH [c])) as (r & rest & -> & Hr & Hrest).
      { split; [done|]. by repeat constructor. }
      split; [by apply Forall_reverse|]. done.
    + intros [Hne H]. apply (proj2 (IH (c :: piece))).
      split; [done|]. by constructor.
    + intros H. apply (proj1 (IH (c :: piece))). by constructor.
    + intros [Hne H]. exists (reverse piece), (splitScan s [c] false).
      split; [done|]. split.
      * split; [|by apply Forall_reverse].
        intros Hr%(f_equal reverse). by rewrite reverse_involutive in Hr.
      * apply (proj1 (IH [c])). by repeat constructor.
Qed.

(** X1: the parts of the split, put back together, are the text, and
    they are a plain part followed by runs of boundary characters and
    plain parts in turn: a boundary run is a part of its own. *)
Theorem split_parts (text : JSString) :
  concat (split text) = text ∧ alternating (split text).
Proof.
  split; [apply concat_split|].
  apply (proj1 (splitScan_alternating text [])). by constructor.
Qed.

Lemma filter_all {A} (P : A → Prop) `{∀ x, Decision (P x)} (l : list A) :
  Forall P l → filter P l = l.
Proof.
  induction 1 as [|x l Hx Hl IH]; [done|].
  by rewrite filter_cons_True, IH.
Qed.

(** X2: a text that is not empty never comes back as no chunk at all. *)
Theorem smartChunkText_nonempty_output (text : JSString) (maxChunkLength : Z) :
  text ≠ [] → 0 < maxChunkLength →
  ∃ chunks, smartChunkText text maxChunkLength = Some chunks ∧ chunks ≠ [].
Proof.
  intros Htext Hmax.
  destruct (smartChunkText_paths text maxChunkLength Hmax) as (chunks & Hrun & Hpath).
  eexists. split; [exact Hrun|].
  destruct (fallbackTaken text maxChunkLength) eqn:Ef.
  - destruct Hpath as [Hcat Hall].
    rewrite filter_all.
    + intros ->. by simpl in Hcat.
    + eapply Forall_impl; [exact Hall|]. simpl. intros c Hc. lia.
  - subst chunks. rewrite filter_all.
    + intros Hnil.
      pose proof (proj2 (fallbackTaken_true text maxChunkLength)
                    (conj Hnil Htext)) as Ht.
      congruence.
    + eapply Forall_impl; [apply boundaryPass_trims|]. simpl.
      intros [|x c] Hc; [done|]. unfold jslength. simpl. lia.
Qed.

Lemma smartChunkText_nonempty_output_witness :
  ∃ chunks, smartChunkText (js "   ") 2 = Some chunks ∧ chunks ≠ [].
Proof.
  apply (smartChunkText_nonempty_output (js "   ") 2); [discriminate|lia].
Defined.

Lemma fold_fits (maxChunkLength : Z) (parts : list JSString) :
  ∀ currentChunk,
    jslength currentChunk + jslength (concat parts) <= maxChunkLength →
    fold_left (chunkStep maxChunkLength) parts ([], currentChunk)
    = ([], currentChunk ++ concat parts).
Proof.
  induction parts as [|part parts IH]; intros currentChunk Hfit; simpl.
  - by rewrite app_nil_r.
  - simpl in Hfit. rewrite jslength_app in Hfit.
    pose proof (jslength_nonneg (concat parts)).
    destruct (Z.leb_spec (jslength currentChunk + jslength part) maxChunkLength);
      [|lia].
    rewrite IH by (rewrite jslength_app; lia). by rewrite <- app_assoc.
Qed.

(** X3: a text no longer than the maximum comes back as one chunk, the
    text trimmed. *)
Theorem smartChunkText_single_chunk (text : JSString) (maxChunkLength : Z) :
  jslength text <= maxChunkLength → stripWhiteSpace text ≠ [] →
  smartChunkText text maxChunkLength = Some [trim text].
Proof.
  intros Hfit Hnws.
  assert (text ≠ []) as Htext by (by intros ->).
  assert (trim text ≠ []) as Htrim by (by rewrite trim_nil).
  assert (boundaryPass text maxChunkLength = [trim text]) as Hpass.
  { unfold boundaryPass. rewrite fold_fits.
    - simpl. rewrite concat_split. unfold pushTrimmed.
      by apply truthy_true in Htrim as ->.
    - rewrite concat_split. unfold jslength at 1. simpl. lia. }
  unfold smartChunkText, smartChunkTextFuel.
  apply truthy_true in Htext as ->. cbn [negb].
  unfold fallbackTaken. rewrite Hpass. simpl.
  rewrite filter_cons_True; [done|].
  destruct (trim text); [done|]. unfold jslength. simpl. lia.
Qed.

Lemma smartChunkText_single_chunk_witness :
  smartChunkText (js " Hi, you. ") 10 = Some [trim (js " Hi, you. ")].
Proof.
  apply (smartChunkText_single_chunk (js " Hi, you. ") 10);
    [by vm_compute|discriminate].
Defined.

Lemma pushTrimmed_trimmed (chunks : list JSString) (currentChunk : JSString) :
  Forall (λ c, trim c = c) chunks →
  Forall (λ c, trim c = c) (pushTrimmed chunks currentChunk).
Proof.
  intros H. unfold pushTrimmed.
  destruct (truthy (trim currentChunk)); [|done].
  apply Forall_app. split; [done|].
  constructor; [apply trim_idem|done].
Qed.

Lemma boundaryPass_trimmed (text : JSString) (maxChunkLength : Z) :
  Forall (λ c, trim c = c) (boundaryPass text maxChunkLength).
Proof.
  unfold boundaryPass.
  pose proof (fold_left_invariant
    (λ st : list JSString * JSString, Forall (λ c, trim c = c) st.1)
    (chunkStep maxChunkLength) (split text)) as H.
  destruct (fold_left (chunkStep maxChunkLength) (split text) ([], []))
    as [chunks currentChunk] eqn:E.
  apply pushTrimmed_trimmed.
  specialize (H) with (s := ([] : list JSString, [] : JSString)).
  rewrite E in H. apply H; [|by constructor].
  intros [chunks' cur'] part _ Hc. simpl in *.
  destruct (jslength cur' + jslength part <=? maxChunkLength); simpl; [done|].
  by apply pushTrimmed_trimmed.
Qed.

(** X4: when the text has a character that is not whitespace, no chunk
    starts or ends with whitespace: every chunk is its own trimmed
    form. *)
Theorem smartChunkText_chunks_trimmed (text : JSString) (maxChunkLength : Z) :
  0 < maxChunkLength → stripWhiteSpace text ≠ [] →
  ∃ chunks,
    smartChunkText text maxChunkLength = Some chunks
    ∧ Forall (λ c, trim c = c) chunks.
Proof.
  intros Hmax Hnws.
  destruct (smartChunkText_paths text maxChunkLength Hmax) as (chunks & Hrun & Hpath).
  eexists. split; [exact Hrun|].
  destruct (fallbackTaken text maxChunkLength) eqn:Ef.
  - by apply fallbackTaken_whitespace in Ef.
  - subst chunks.
    apply Forall_forall. intros c [_ Hc]%list_elem_of_filter.
    pose proof (boundaryPass_trimmed text maxChunkLength) as Hall.
    rewrite Forall_forall in Hall. by apply Hall.
Qed.

Lemma smartChunkText_chunks_trimmed_witness :
  ∃ chunks,
    smartChunkText (js " a , b . c ") 4 = Some chunks
    ∧ Forall (λ c, trim c = c) chunks.
Proof.
  apply (smartChunkText_chunks_trimmed (js " a , b . c ") 4);
    [lia|discriminate].
Defined.

Lemma pushTrimmed_app (chunks : list JSString) (currentChunk : JSString) :
  pushTrimmed chunks currentChunk = chunks ++ ownChunks [currentChunk].
Proof.
  unfold pushTrimmed, ownChunks. simpl.
  destruct (truthy (trim currentChunk)); simpl; by rewrite ?app_nil_r.
Qed.

Lemma ownChunks_cons (part : JSString) (parts : list JSString) :
  ownChunks (part :: parts) = ownChunks [part] ++ ownChunks parts.
Proof. unfold ownChunks. simpl. by destruct (truthy (trim part)). Qed.

Lemma fold_nonpositive (maxChunkLength : Z) (parts : list JSString) :
  maxChunkLength <= 0 →
  ∀ chunks currentChunk,
    let st := fold_left (chunkStep maxChunkLength) parts (chunks, currentChunk) in
    pushTrimmed st.1 st.2
    = chunks ++ ownChunks [currentChunk] ++ ownChunks parts.
Proof.
  intros Hmax. induction parts as [|part parts IH]; intros chunks currentChunk.
  - simpl. by rewrite pushTrimmed_app, app_nil_r.
  - cbn [fold_left chunkStep].
    destruct (Z.leb_spec (jslength currentChunk + jslength part) maxChunkLength)
      as [Hle|Hgt].
    + assert (currentChunk = [] ∧ part = []) as [-> ->].
      { destruct currentChunk, part; unfold jslength in Hle; simpl in Hle;
          try lia; done. }
      cbv zeta in IH. rewrite IH. done.
    + cbv zeta in IH. rewrite IH, pushTrimmed_app, <- !app_assoc.
      by rewrite (ownChunks_cons part parts).
Qed.

Lemma boundaryPass_nonpositive (text : JSString) (maxChunkLength : Z) :
  maxChunkLength <= 0 →
  boundaryPass text maxChunkLength = ownChunks (split text).
Proof.
  intros Hmax. unfold boundaryPass.
  pose proof (fold_nonpositive maxChunkLength (split text) Hmax [] []) as H.
  cbv zeta in H.
  by destruct (fold_left (chunkStep maxChunkLength) (split text) ([], [])).
Qed.

(** X5: with a maximum of zero or less, and a text that has a character
    other than whitespace, every part of the split that does not trim to
    nothing becomes a chunk of its own, trimmed, whatever its length. *)
Theorem smartChunkText_nonpositive_maximum (text : JSString)
    (maxChunkLength : Z) (fuel : nat) :
  maxChunkLength <= 0 → stripWhiteSpace text ≠ [] →
  smartChunkTextFuel fuel text maxChunkLength = Some (ownChunks (split text)).
Proof.
  intros Hmax Hnws.
  assert (text ≠ []) as Htext by (by intros ->).
  pose proof (boundaryPass_nonpositive text maxChunkLength Hmax) as Hpass.
  assert (boundaryPass text maxChunkLength ≠ []) as Hne.
  { intros Hnil. apply Hnws.
    by rewrite <- (strip_boundaryPass text maxChunkLength), Hnil. }
  unfold smartChunkTextFuel.
  apply truthy_true in Htext as ->. cbn [negb].
  assert (fallbackTaken text maxChunkLength = false) as ->.
  { unfold fallbackTaken.
    destruct (boundaryPass text maxChunkLength); [done|]. done. }
  simpl. f_equal. rewrite <- Hpass. apply filter_all.
  eapply Forall_impl; [apply boundaryPass_trims|]. simpl.
  intros [|x c] Hc; [done|]. unfold jslength. simpl. lia.
Qed.

Lemma smartChunkText_nonpositive_maximum_witness :
  smartChunkTextFuel 0 (js "ab, cd. e") (-3)
  = Some (ownChunks (split (js "ab, cd. e"))).
Proof.
  apply (smartChunkText_nonpositive_maximum (js "ab, cd. e") (-3) 0);
    [lia|discriminate].
Defined.

Lemma fallbackLoop_spins (text : JSString) (maxChunkLength : Z) :
  text ≠ [] → maxChunkLength <= 0 →
  ∀ fuel i chunks,
    i <= 0 → fallbackLoop fuel text maxChunkLength i chunks = None.
Proof.
  intros Htext Hmax. induction fuel as [|fuel IH]; intros i chunks Hi; [done|].
  simpl. destruct (Z.ltb_spec i (jslength text)) as [_|Hge].
  - apply IH. lia.
  - destruct text; [done|]. unfold jslength in Hge. simpl in Hge. lia.
Qed.

(** X6: with a maximum of zero or less, on a text that is not empty and
    is all whitespace, the segmenter never returns: the fallback loop
    does not advance. *)
Theorem smartChunkText_nonpositive_hangs (text : JSString)
    (maxChunkLength : Z) :
  maxChunkLength <= 0 → text ≠ [] → stripWhiteSpace text = [] →
  ∀ fuel, smartChunkTextFuel fuel text maxChunkLength = None.
Proof.
  intros Hmax Htext Hws fuel.
  assert (boundaryPass text maxChunkLength = []) as Hpass.
  { pose proof (strip_boundaryPass text maxChunkLength) as Hs.
    pose proof (boundaryPass_trims text maxChunkLength) as Ht.
    destruct (boundaryPass text maxChunkLength) as [|c chunks]; [done|].
    apply Forall_inv in Ht. rewrite trim_nil in Ht.
    simpl in Hs. rewrite strip_app, Hws in Hs.
    by apply app_eq_nil in Hs as [? _]. }
  unfold smartChunkTextFuel.
  assert (fallbackTaken text maxChunkLength = true) as ->.
  { apply fallbackTaken_true. by split. }
  apply truthy_true in Htext as Htruthy. rewrite Htruthy. cbn [negb].
  by rewrite fallbackLoop_spins.
Qed.

Lemma smartChunkText_nonpositive_hangs_witness :
  smartChunkTextFuel 1000 (js "  ") 0 = None.
Proof.
  apply (smartChunkText_nonpositive_hangs (js "  ") 0);
    [lia|discriminate|reflexivity].
Defined.

End SegmenterExtra.
Import SegmenterExtra.

(** ** The credential cache *)

Module CredentialExtra.

Lemma cacheFresh_test (tokenInfo : TokenInfo) (nowMs : Z) :
  cacheFresh tokenInfo nowMs ↔
  tokenTruthy (token tokenInfo) && numberTruthy (expiredAt tokenInfo)
  && beforeRefresh nowMs (expiredAt tokenInfo) = true.
Proof.
  unfold cacheFresh, tokenTruthy, numberTruthy, beforeRefresh,
    TOKEN_REFRESH_BEFORE_EXPIRY.
  split.
  - intros (tok & exp & -> & Htok & -> & Hexp & Hnow).
    apply truthy_true in Htok as ->.
    apply Z.eqb_neq in Hexp as ->. by apply Z.ltb_lt in Hnow as ->.
  - destruct (token tokenInfo) as [tok|]; [|done].
    destruct (expiredAt tokenInfo) as [exp|]; [|by rewrite andb_false_r].
    rewrite !andb_true_iff, negb_true_iff, Z.eqb_neq, Z.ltb_lt, truthy_true.
    intros [[Htok Hexp] Hnow]. by exists tok, exp.
Qed.

Lemma cacheStale_test (tokenInfo : TokenInfo) (nowMs : Z) :
  ¬ cacheFresh tokenInfo nowMs →
  tokenTruthy (token tokenInfo) && numberTruthy (expiredAt tokenInfo)
  && beforeRefresh nowMs (expiredAt tokenInfo) = false.
Proof.
  rewrite cacheFresh_test. by destruct (_ && _ && _).
Qed.

(** X7: a call fetches nothing exactly when a non-empty token is cached
    with a non-zero expiry and the time is strictly before the expiry
    minus five minutes; in every other case, that of a call made at that
    very instant included, it asks the identity service once. *)
Theorem getEndpoint_fetches_unless_fresh (tokenInfo : TokenInfo) (nowMs : Z)
    (net : Exchange) :
  (cacheFresh tokenInfo nowMs → fetched (getEndpoint tokenInfo nowMs net) = [])
  ∧ (¬ cacheFresh tokenInfo nowMs →
     fetched (getEndpoint tokenInfo nowMs net) = [endpointUrl]).
Proof.
  split.
  - intros Hfresh%cacheFresh_test. unfold getEndpoint. by rewrite Hfresh.
  - intros Hstale%cacheStale_test. unfold getEndpoint. rewrite Hstale.
    by destruct net.
Qed.

Lemma getEndpoint_fetches_unless_fresh_witness :
  let data := {| r := js "eastus"; t := js "h.p.s" |} in
  let tokenInfo :=
    {| endpoint := Some data; token := Some (js "h.p.s");
       expiredAt := Some 2000 |} in
  fetched (getEndpoint tokenInfo 1699999 (ExchangeFailed (js "offline"))) = []
  ∧ fetched (getEndpoint tokenInfo 1700000 (ExchangeFailed (js "offline")))
    = [endpointUrl].
Proof.
  intros data tokenInfo. split.
  - refine (proj1 (getEndpoint_fetches_unless_fresh tokenInfo 1699999
                     (ExchangeFailed (js "offline"))) _).
    exists (js "h.p.s"), 2000.
    split; [reflexivity|]. split; [discriminate|].
    split; [reflexivity|]. split; [discriminate|lia].
  - refine (proj2 (getEndpoint_fetches_unless_fresh tokenInfo 1700000
                     (ExchangeFailed (js "offline"))) _).
    intros (tok & exp & _ & _ & Hexp & _ & Hnow).
    injection Hexp as <-. lia.
Defined.

(** X8: a credential obtained by a refresh is served from the cache,
    without a fetch and without a change of [tokenInfo], by every later
    call made before its expiry minus five minutes. *)
Theorem getEndpoint_refresh_then_hit (tokenInfo : TokenInfo) (nowMs nowMs' : Z)
    (data : Endpoint) (exp : Z) (net' : Exchange) :
  ¬ cacheFresh tokenInfo nowMs →
  t data ≠ [] → 0 <= nowMs' → nowMs' < (exp - 5 * 60) * 1000 →
  let first := getEndpoint tokenInfo nowMs (ExchangeOk data (Some exp)) in
  result first = Returned (Some data)
  ∧ fetched first = [endpointUrl]
  ∧ getEndpoint (cache first) nowMs' net'
    = {| result := Returned (Some data); cache := cache first; fetched := [] |}.
Proof.
  intros Hstale%cacheStale_test Htok Hnow0 Hnow first.
  assert (first = {| result := Returned (Some data);
                     cache := {| endpoint := Some data; token := Some (t data);
                                 expiredAt := Some exp |};
                     fetched := [endpointUrl] |}) as ->.
  { subst first. unfold getEndpoint. by rewrite Hstale. }
  split; [done|]. split; [done|].
  unfold getEndpoint. simpl.
  apply truthy_true in Htok as ->.
  assert (exp ≠ 0) as Hexp by lia.
  apply Z.eqb_neq in Hexp as ->.
  unfold TOKEN_REFRESH_BEFORE_EXPIRY. by apply Z.ltb_lt in Hnow as ->.
Qed.

Lemma getEndpoint_refresh_then_hit_witness :
  let data := {| r := js "eastus"; t := js "h.p.s" |} in
  let first := getEndpoint initialTokenInfo 1000 (ExchangeOk data (Some 2000)) in
  result first = Returned (Some data)
  ∧ fetched first = [endpointUrl]
  ∧ getEndpoint (cache first) 1699999 (ExchangeFailed (js "offline"))
    = {| result := Returned (Some data); cache := cache first; fetched := [] |}.
Proof.
  intros data.
  refine (getEndpoint_refresh_then_hit initialTokenInfo 1000 1699999 data 2000
            (ExchangeFailed (js "offline")) _ _ _ _).
  - intros (tok & exp & Htok & _). discriminate.
  - discriminate.
  - lia.
  - lia.
Defined.

Lemma getEndpoint_coherent (tokenInfo : TokenInfo) (nowMs : Z) (net : Exchange) :
  coherent tokenInfo →
  coherent (cache (getEndpoint tokenInfo nowMs net))
  ∧ result (getEndpoint tokenInfo nowMs net) ≠ Returned None.
Proof.
  unfold coherent, getEndpoint. intros Hco.
  destruct (endpoint tokenInfo) as [data|] eqn:Eend,
           (token tokenInfo) as [tok|] eqn:Etok; try done; simpl.
  - destruct (truthy tok && numberTruthy (expiredAt tokenInfo)
              && beforeRefresh nowMs (expiredAt tokenInfo)); simpl.
    + by rewrite Eend, Etok.
    + destruct net as [error|data' exp']; simpl.
      * rewrite Eend, Etok. by destruct (truthy tok).
      * done.
  - destruct net as [error|data' exp']; simpl; [|done].
    by rewrite Eend, Etok.
Qed.

(** X9: through any sequence of calls from the initial state, whatever
    the times and the exchanges, [tokenInfo] stays coherent (its token is
    the token of its endpoint, nothing is half written) and no call
    returns [null]: a call returns an endpoint or throws. *)
Theorem getEndpoint_never_returns_null (callList : list (Z * Exchange)) :
  Forall (λ run, coherent (cache run) ∧ result run ≠ Returned None)
    (getEndpointRuns initialTokenInfo callList).
Proof.
  assert (∀ tokenInfo, coherent tokenInfo →
          Forall (λ run, coherent (cache run) ∧ result run ≠ Returned None)
            (getEndpointRuns tokenInfo callList)) as Hgen.
  { induction callList as [|[nowMs net] rest IH]; intros tokenInfo Hco;
      [by constructor|].
    simpl. pose proof (getEndpoint_coherent tokenInfo nowMs net Hco) as [H1 H2].
    constructor; [done|]. by apply IH. }
  by apply Hgen.
Qed.

End CredentialExtra.

(** ** The text cleaning *)

Module CleaningExtra.

Lemma trimStart_no_whitespace (s : JSString) :
  Forall (λ c, isWhiteSpace c = false) s → trimStart s = s.
Proof. destruct 1 as [|c s Hc _]; [done|]. simpl. by rewrite Hc. Qed.

Lemma trim_no_whitespace (s : JSString) :
  Forall (λ c, isWhiteSpace c = false) s → trim s = s.
Proof.
  intros H. unfold trim, trimEnd.
  rewrite (trimStart_no_whitespace s H).
  rewrite trimStart_no_whitespace by (by apply Forall_reverse).
  apply reverse_involutive.
Qed.

Lemma stripWhiteSpace_no_whitespace (s : JSString) :
  Forall (λ c, isWhiteSpace c = false) (stripWhiteSpace s).
Proof.
  apply Forall_forall. by intros c [Hc _]%list_elem_of_filter.
Qed.

(** X10: whatever the options and the stages before, the cleaned text
    neither starts nor ends with whitespace, and is empty or has a
    character that is not whitespace. *)
Theorem cleanText_trimmed (stages : Stages) (text : JSString)
    (options : CleaningOptions) :
  let cleaned := cleanText stages text options in
  trim cleaned = cleaned ∧ (cleaned = [] ∨ stripWhiteSpace cleaned ≠ []).
Proof.
  unfold cleanText. cbv zeta.
  match goal with |- context [trim (trim ?s)] => generalize s end.
  intros s. split; [apply trim_idem|].
  destruct (trim s) eqn:E; [by left|right].
  rewrite <- E, strip_trim, <- trim_nil. by rewrite E.
Qed.

(** X11: with [remove_line_breaks] on, as it is unless the request
    switches it off, the cleaned text has no whitespace character left at
    all, blanks between words included. *)
Theorem cleanText_removes_all_whitespace (stages : Stages) (text : JSString)
    (options : CleaningOptions) :
  remove_line_breaks options = true →
  Forall (λ c, isWhiteSpace c = false) (cleanText stages text options).
Proof.
  intros Hopt. unfold cleanText. cbv zeta. rewrite Hopt.
  match goal with |- context [stripWhiteSpace ?s] => generalize s end.
  intros s. rewrite trim_no_whitespace; apply stripWhiteSpace_no_whitespace.
Qed.

Lemma cleanText_removes_all_whitespace_witness :
  let stages := {| stripUrls := id; stripMarkdown := id;
                   stripKeywords := λ _, id; stripEmoji := id;
                   stripCitations := id |} in
  let request := {| req_remove_markdown := None; req_remove_emoji := None;
                    req_remove_urls := None; req_remove_line_breaks := None;
                    req_remove_citation_numbers := None;
                    req_custom_keywords := None |} in
  Forall (λ c, isWhiteSpace c = false)
    (cleanText stages (js " Hello  world. ") (finalCleaningOptions request)).
Proof.
  intros stages request.
  apply (cleanText_removes_all_whitespace stages (js " Hello  world. ")
           (finalCleaningOptions request)).
  reflexivity.
Defined.

End CleaningExtra.

(** ** One synthesis call in full *)

Module SynthesisExtra.

(** X12: a call whose credential cannot be had, the cache being empty
    and the exchange failing, throws the error of the exchange and sends
    nothing to the speech service. *)
Theorem getAudioChunk_no_credential_no_request (tokenInfo : TokenInfo)
    (nowMs : Z) (error : Error) (reply : TtsReply)
    (text voiceName rate pitch style outputFormat : JSString) :
  tokenTruthy (token tokenInfo) = false →
  let run := getAudioChunkFull tokenInfo nowMs (ExchangeFailed error) reply
               text voiceName rate pitch style outputFormat in
  audio run = Thrown error ∧ requests run = [] ∧ tokenAfter run = tokenInfo
  ∧ credentialFetches run = [endpointUrl].
Proof.
  intros Htok. unfold getAudioChunkFull, getEndpoint. by rewrite Htok.
Qed.

Lemma getAudioChunk_no_credential_no_request_witness :
  let run := getAudioChunkFull initialTokenInfo 1000
               (ExchangeFailed (js "offline"))
               (HttpReply 200 (js "OK") [] [Byte.x2a])
               (js "Hi.") (js "v") (js "0") (js "0") (js "general") (js "mp3") in
  audio run = Thrown (js "offline") ∧ requests run = []
  ∧ tokenAfter run = initialTokenInfo
  ∧ credentialFetches run = [endpointUrl].
Proof.
  apply (getAudioChunk_no_credential_no_request initialTokenInfo 1000
           (js "offline") (HttpReply 200 (js "OK") [] [Byte.x2a])
           (js "Hi.") (js "v") (js "0") (js "0") (js "general") (js "mp3")).
  reflexivity.
Defined.

(** X13: when the refresh fails and a credential is cached, however long
    expired, the call still goes to the speech service, once, with the
    cached token as authorization and the cached region in the URL. *)
Theorem getAudioChunk_uses_stale_credential (tokenInfo : TokenInfo)
    (nowMs : Z) (data : Endpoint) (error : Error) (reply : TtsReply)
    (text voiceName rate pitch style outputFormat : JSString) :
  endpoint tokenInfo = Some data → token tokenInfo = Some (t data) →
  t data ≠ [] →
  requests (getAudioChunkFull tokenInfo nowMs (ExchangeFailed error) reply
              text voiceName rate pitch style outputFormat)
  = [{| req_url := js "https://" ++ r data
                   ++ js ".tts.speech.microsoft.com/cognitiveservices/v1";
        req_authorization := t data;
        req_outputFormat := outputFormat;
        req_body := getSsml text voiceName rate pitch style |}].
Proof.
  intros Hend Htok Hne. unfold getAudioChunkFull, getEndpoint.
  rewrite Hend, Htok. simpl. apply truthy_true in Hne as ->. simpl.
  by destruct (numberTruthy (expiredAt tokenInfo)
               && beforeRefresh nowMs (expiredAt tokenInfo)).
Qed.

Lemma getAudioChunk_uses_stale_credential_witness :
  let data := {| r := js "eastus"; t := js "h.p.s" |} in
  let tokenInfo := {| endpoint := Some data; token := Some (js "h.p.s");
                      expiredAt := Some 10 |} in
  requests (getAudioChunkFull tokenInfo 5000000 (ExchangeFailed (js "offline"))
              (FetchRejected (js "reset"))
              (js "Hi.") (js "v") (js "0") (js "0") (js "general") (js "mp3"))
  = [{| req_url := js "https://" ++ js "eastus"
                   ++ js ".tts.speech.microsoft.com/cognitiveservices/v1";
        req_authorization := js "h.p.s";
        req_outputFormat := js "mp3";
        req_body := getSsml (js "Hi.") (js "v") (js "0") (js "0") (js "general") |}].
Proof.
  intros data tokenInfo.
  apply (getAudioChunk_uses_stale_credential tokenInfo 5000000 data
           (js "offline") (FetchRejected (js "reset"))
           (js "Hi.") (js "v") (js "0") (js "0") (js "general") (js "mp3"));
    [reflexivity|reflexivity|discriminate].
Defined.

(** X14: a call returns audio only when the speech service answered with
    a status from 200 to 299, the audio being the body of that answer;
    it sends at most one request and never a second one after a
    failure. *)
Theorem getAudioChunk_audio_only_on_ok (tokenInfo : TokenInfo) (nowMs : Z)
    (net : Exchange) (reply : TtsReply)
    (text voiceName rate pitch style outputFormat : JSString) :
  let run := getAudioChunkFull tokenInfo nowMs net reply
               text voiceName rate pitch style outputFormat in
  (length (requests run) ≤ 1)%nat
  ∧ ∀ blob, audio run = Returned blob →
      length (requests run) = 1%nat
      ∧ ∃ status statusText bodyText,
          reply = HttpReply status statusText bodyText blob
          ∧ 200 <= status <= 299.
Proof.
  unfold getAudioChunkFull.
  destruct (result (getEndpoint tokenInfo nowMs net)) as [[data|]|error];
    simpl; (split; [lia|]); try done.
  intros blob. destruct reply as [error|status statusText bodyText bodyBlob];
    [done|].
  unfold statusOk.
  destruct (Z.leb_spec 200 status), (Z.leb_spec status 299); simpl; try done.
  intros [= ->]. split; [done|]. by exists status, statusText, bodyText.
Qed.

End SynthesisExtra.

(** ** The pipeline, further *)

Module PipelineExtra.

Lemma slice_length_le {A} (a : list A) (i c : Z) :
  0 <= c → (length (slice a i (i + c)) ≤ Z.to_nat c)%nat.
Proof.
  intros Hc. unfold slice, relIndex.
  pose proof (jslength_nonneg a) as Hlen.
  rewrite length_take.
  destruct (Z.ltb_spec i 0), (Z.ltb_spec (i + c) 0); lia.
Qed.

Lemma slice_elem_of {A} (a : list A) (i j : Z) (x : A) :
  x ∈ slice a i j → x ∈ a.
Proof.
  unfold slice. intros H. by apply subseteq_take, subseteq_drop in H.
Qed.

Lemma dispatchRuns_dispatches (jobs : list (nat * JSString))
    (rest : list Event) (current : nat) :
  dispatchRuns (dispatchEvents jobs ++ rest) current
  = dispatchRuns rest (current + length jobs).
Proof.
  revert current. induction jobs as [|job jobs IH]; intros current; simpl.
  - by rewrite Nat.add_0_r.
  - change (dispatchEvents jobs) with
      ((λ job : nat * JSString, EvDispatch job.1 job.2) <$> jobs) in IH.
    rewrite IH. f_equal. lia.
Qed.

Lemma dispatchRuns_writes (vs : list Blob) (rest : list Event) (current : nat) :
  dispatchRuns ((EvWrite <$> vs) ++ rest) current = dispatchRuns rest current.
Proof. induction vs as [|v vs IH]; simpl; done. Qed.

(** Events that neither start a call nor settle a batch. *)
Lemma dispatchRuns_neutral (evs rest : list Event) (current : nat) :
  Forall (λ ev, match ev with
                | EvDispatch _ _ | EvBatchSettled _ => False
                | _ => True
                end) rest →
  dispatchRuns (evs ++ rest) current = dispatchRuns evs current.
Proof.
  intros Hrest. revert current.
  induction evs as [|ev evs IH]; intros current; simpl.
  - induction Hrest as [|ev rest Hev Hrest IH]; [done|].
    destruct ev; simpl; done.
  - destruct ev; simpl; by rewrite ?IH.
Qed.

Lemma dispatched_neutral (rest : list Event) :
  Forall (λ ev, match ev with
                | EvDispatch _ _ | EvBatchSettled _ => False
                | _ => True
                end) rest →
  dispatched rest = [].
Proof.
  induction 1 as [|ev rest Hev Hrest IH]; [done|]. by destruct ev.
Qed.

Lemma loopEvents_refl (chunks : list JSString) (concurrency : Z) (w : World) :
  loopEvents chunks concurrency w w.
Proof.
  exists []. rewrite app_nil_r. repeat split; try done; simpl; lia.
Qed.

Lemma dispatchEvents_for (chunks : list JSString) (i j : Z) (base : nat) :
  Forall (λ job : nat * JSString, job.2 ∈ chunks) (number base (slice chunks i j)).
Proof.
  apply (proj1 (Forall_fmap snd (λ text : JSString, text ∈ chunks) _)).
  rewrite number_snd. apply Forall_forall. intros x. apply slice_elem_of.
Qed.

Lemma dispatchEvents_shape (jobs : list (nat * JSString)) :
  Forall (λ ev, match ev with
                | EvDispatch _ _ | EvBatchSettled _ | EvWrite _ => True
                | _ => False
                end) (dispatchEvents jobs).
Proof. unfold dispatchEvents. apply Forall_fmap, Forall_forall. by intros ? _. Qed.

Lemma writes_shape (vs : list Blob) :
  Forall (λ ev, match ev with
                | EvDispatch _ _ | EvBatchSettled _ | EvWrite _ => True
                | _ => False
                end) (EvWrite <$> vs).
Proof. apply Forall_fmap, Forall_forall. by intros ? _. Qed.

(** The calls of a batch are started and nothing settles. *)
Lemma loopEvents_pending (chunks : list JSString) (concurrency i : Z)
    (w w' : World) :
  trace w' = trace w
             ++ dispatchEvents (number (calls w) (slice chunks i (i + concurrency))) →
  writer w' = writer w →
  loopEvents chunks concurrency w w'.
Proof.
  intros Htr Hwr. eexists. split; [exact Htr|]. split; [done|].
  split; [|split].
  - rewrite dispatched_dispatchEvents. apply dispatchEvents_for.
  - intros Hc. rewrite <- (app_nil_r (dispatchEvents _)).
    rewrite dispatchRuns_dispatches. simpl.
    rewrite number_length. by apply slice_length_le.
  - apply dispatchEvents_shape.
Qed.

(** One turn, then what follows it. *)
Lemma loopEvents_step (chunks : list JSString) (concurrency i : Z)
    (fulfilled : bool) (vs : list Blob) (w w2 w' : World) :
  trace w2 = trace w
             ++ dispatchEvents (number (calls w) (slice chunks i (i + concurrency)))
             ++ [EvBatchSettled fulfilled] ++ (EvWrite <$> vs) →
  writer w2 = writer w →
  loopEvents chunks concurrency w2 w' →
  loopEvents chunks concurrency w w'.
Proof.
  intros Htr Hwr (evs & Htr' & Hwr' & Hdisp & Hruns & Hshape).
  eexists. split; [|split; [by rewrite Hwr', Hwr|]].
  { rewrite Htr', Htr, <- app_assoc. reflexivity. }
  split; [|split].
  - rewrite !dispatched_app, dispatched_dispatchEvents, dispatched_settled,
      dispatched_writes.
    simpl. rewrite app_nil_r.
    apply Forall_app. split; [apply dispatchEvents_for|done].
  - intros Hc. rewrite <- !app_assoc, dispatchRuns_dispatches. simpl.
    rewrite dispatchRuns_writes, number_length.
    pose proof (slice_length_le chunks i concurrency Hc).
    specialize (Hruns Hc). lia.
  - rewrite !Forall_app. split; [|done].
    split; [apply dispatchEvents_shape|].
    split; [by repeat constructor|apply writes_shape].
Qed.

Section Any.

Variable backend : nat → JSString → Completion Blob.
Variable latency : nat → nat.
Variable chunks : list JSString.
Variable concurrency : Z.

Lemma getVoiceLoop_events :
  ∀ fuel i acc w,
    loopEvents chunks concurrency w
      (getVoiceLoop backend latency fuel chunks concurrency i acc w).2.
Proof.
  induction fuel as [|fuel IH]; intros i acc w; [apply loopEvents_refl|].
  cbn [getVoiceLoop].
  destruct (i <? jslength chunks); [|apply loopEvents_refl].
  cbv zeta. rewrite batch_turn.
  destruct (promiseAll latency _) as [vs|reason|].
  - eapply (loopEvents_step chunks concurrency i true []); [| |apply IH].
    + unfold logEvent. simpl. by rewrite <- app_assoc.
    + done.
  - eapply (loopEvents_step chunks concurrency i false []);
      [| |apply loopEvents_refl].
    + unfold logEvent. simpl. by rewrite <- app_assoc.
    + done.
  - by apply (loopEvents_pending chunks concurrency i).
Qed.

Lemma pipeLoop_events :
  ∀ fuel i w,
    loopEvents chunks concurrency w
      (pipeLoop backend latency fuel chunks concurrency i w).2.
Proof.
  induction fuel as [|fuel IH]; intros i w; [apply loopEvents_refl|].
  cbn [pipeLoop].
  destruct (i <? jslength chunks); [|apply loopEvents_refl].
  cbv zeta. rewrite batch_turn.
  destruct (promiseAll latency _) as [vs|reason|].
  - rewrite bind_run.
    match goal with
    | |- context [mapM writerWrite vs ?w1] =>
        destruct (mapM_writerWrite vs w1) as [units ->]
    end.
    eapply (loopEvents_step chunks concurrency i true vs); [| |apply IH].
    + unfold logEvent. simpl. by rewrite <- !app_assoc.
    + done.
  - eapply (loopEvents_step chunks concurrency i false []);
      [| |apply loopEvents_refl].
    + unfold logEvent. simpl. by rewrite <- app_assoc.
    + done.
  - by apply (loopEvents_pending chunks concurrency i).
Qed.

End Any.

(** X15: with a concurrency of at least one, whatever the backend does
    and however long the run, [getVoice] and [streamVoice] never start
    more than [concurrency] calls without a batch settling in between. *)
Theorem pipeline_bounds_calls_in_flight
    (backend : nat → JSString → Completion Blob) (latency : nat → nat)
    (chunks : list JSString) (concurrency : Z) (fuel : nat) (w : World) :
  1 <= concurrency →
  (∃ evs,
     trace (getVoice backend latency fuel chunks concurrency w).2
     = trace w ++ evs
     ∧ (longestDispatchRun evs ≤ Z.to_nat concurrency)%nat)
  ∧ (∃ evs,
       trace (streamVoice backend latency fuel chunks concurrency w).2
       = trace w ++ evs
       ∧ (longestDispatchRun evs ≤ Z.to_nat concurrency)%nat).
Proof.
  intros Hc. unfold longestDispatchRun. split.
  - rewrite getVoice_run.
    destruct (getVoiceLoop_events backend latency chunks concurrency fuel 0 [] w)
      as (evs & Htr & _ & _ & Hruns & _).
    specialize (Hruns ltac:(lia)).
    destruct (getVoiceLoop backend latency fuel chunks concurrency 0 [] w)
      as [[blobs|error|] w']; simpl in *.
    + exists (evs ++ [EvResponse (AudioResponse (concat blobs))]).
      rewrite Htr, <- app_assoc. split; [done|].
      rewrite dispatchRuns_neutral; [done|by repeat constructor].
    + eexists (evs ++ [EvResponse _]).
      rewrite Htr, <- app_assoc. split; [done|].
      rewrite dispatchRuns_neutral; [done|by repeat constructor].
    + by exists evs.
  - rewrite streamVoice_run, pipeChunksToStream_run.
    destruct (pipeLoop_events backend latency chunks concurrency fuel 0 w)
      as (evs & Htr & _ & _ & Hruns & _).
    specialize (Hruns ltac:(lia)).
    destruct (pipeLoop backend latency fuel chunks concurrency 0 w)
      as [[[]|error|] w']; simpl in *.
    + exists (evs ++ [EvClose; EvResponse StreamResponse]).
      rewrite Htr, <- !app_assoc. split; [done|].
      rewrite dispatchRuns_neutral; [done|by repeat constructor].
    + eexists (evs ++ [EvAbort error; EvClose; EvResponse _]).
      rewrite Htr, <- !app_assoc. split; [done|].
      rewrite dispatchRuns_neutral; [done|by repeat constructor].
    + by exists evs.
Qed.

Lemma pipeline_bounds_calls_in_flight_witness :
  let chunks := [js "a."; js "b,"; js "c;"; js "d:"; js "e"] in
  (∃ evs,
     trace (getVoice (failingBackend 3) sampleLatency 9 chunks 2 initialWorld).2
     = [] ++ evs
     ∧ (longestDispatchRun evs ≤ 2)%nat)
  ∧ (∃ evs,
       trace (streamVoice (failingBackend 3) sampleLatency 9 chunks 2
                initialWorld).2
       = [] ++ evs
       ∧ (longestDispatchRun evs ≤ 2)%nat).
Proof.
  intros chunks.
  apply (pipeline_bounds_calls_in_flight (failingBackend 3) sampleLatency
           chunks 2 9 initialWorld).
  lia.
Defined.

(** X16: [pipeChunksToStream] closes the writer on every way out: when
    the loop ends normally the writer, written to and never aborted, is
    closed; when it throws the writer is aborted with the error and then
    closed, which leaves the stream errored.  [writer.close()] is the
    last event in both cases. *)
Theorem pipeChunksToStream_always_closes
    (backend : nat → JSString → Completion Blob) (latency : nat → nat)
    (chunks : list JSString) (concurrency : Z) (fuel : nat) (w : World) :
  writer w = Writable →
  let run := pipeChunksToStream backend latency fuel chunks concurrency w in
  match run.1 with
  | Normal _ =>
      writer run.2 = Closed
      ∧ ∃ evs, trace run.2 = trace w ++ evs ++ [EvClose]
               ∧ Forall (λ ev, match ev with
                               | EvDispatch _ _ | EvBatchSettled _
                               | EvWrite _ => True
                               | _ => False
                               end) evs
  | Throw error =>
      writer run.2 = Errored error
      ∧ ∃ evs, trace run.2 = trace w ++ evs ++ [EvAbort error; EvClose]
               ∧ Forall (λ ev, match ev with
                               | EvDispatch _ _ | EvBatchSettled _
                               | EvWrite _ => True
                               | _ => False
                               end) evs
  | Diverge => writer run.2 = Writable
  end.
Proof.
  intros Hw run. subst run. rewrite pipeChunksToStream_run.
  destruct (pipeLoop_events backend latency chunks concurrency fuel 0 w)
    as (evs & Htr & Hwr & _ & _ & Hshape).
  destruct (pipeLoop backend latency fuel chunks concurrency 0 w)
    as [[[]|error|] w']; simpl in *; rewrite Hwr, Hw.
  - split; [done|]. exists evs. by rewrite Htr, <- app_assoc.
  - split; [done|]. exists evs. by rewrite Htr, <- !app_assoc.
  - done.
Qed.

Lemma pipeChunksToStream_always_closes_witness :
  let run := pipeChunksToStream (failingBackend 1) sampleLatency 5
               [js "a."; js "b"] 1 initialWorld in
  match run.1 with
  | Normal _ =>
      writer run.2 = Closed
      ∧ ∃ evs, trace run.2 = [] ++ evs ++ [EvClose]
               ∧ Forall (λ ev, match ev with
                               | EvDispatch _ _ | EvBatchSettled _
                               | EvWrite _ => True
                               | _ => False
                               end) evs
  | Throw error =>
      writer run.2 = Errored error
      ∧ ∃ evs, trace run.2 = [] ++ evs ++ [EvAbort error; EvClose]
               ∧ Forall (λ ev, match ev with
                               | EvDispatch _ _ | EvBatchSettled _
                               | EvWrite _ => True
                               | _ => False
                               end) evs
  | Diverge => writer run.2 = Writable
  end.
Proof.
  apply (pipeChunksToStream_always_closes (failingBackend 1) sampleLatency
           [js "a."; js "b"] 1 5 initialWorld).
  reflexivity.
Defined.

Lemma batchesTrace_projections (stream : bool) (size : nat)
    (jobs : list (nat * JSString)) :
  (1 ≤ size)%nat →
  ∀ vs : list Blob,
    length jobs = length vs →
    dispatched (batchesTrace stream size jobs vs) = jobs
    ∧ written (batchesTrace stream size jobs vs) = (if stream then vs else []).
Proof.
  intros Hsize. pattern jobs. apply (batches_ind size); [done| |].
  - intros [|v vs] Hlen; [|done]. rewrite batchesTrace_nil. by destruct stream.
  - clear jobs. intros jobs Hne IH vs Hlen.
    assert (vs ≠ []) as Hvs by (intros ->; by destruct jobs).
    rewrite batchesTrace_cons by done.
    destruct (IH (drop size vs)) as [IHd IHw].
    { by rewrite !length_drop, Hlen. }
    unfold batchEvents.
    rewrite !dispatched_app, !written_app, IHd, IHw,
      dispatched_dispatchEvents, written_dispatchEvents,
      dispatched_settled, written_settled.
    destruct stream; simpl.
    + rewrite dispatched_writes, written_writes, app_nil_r.
      by rewrite !take_drop.
    + rewrite app_nil_r. by rewrite take_drop.
Qed.

(** X17: in streaming mode, with a concurrency of at least one and
    calls that succeed, one call is started for every chunk, in the order
    of the chunks, and the stream is written the blobs of the chunks in
    that same order, each once. *)
Theorem streamVoice_stream_in_chunk_order
    (backend : nat → JSString → Completion Blob) (latency : nat → nat)
    (chunks : list JSString) (concurrency : Z) (blobs : list Blob)
    (fuel : nat) (w : World) :
  1 <= concurrency →
  (length chunks < fuel)%nat →
  outcomes backend (calls w) chunks = Returned <$> blobs →
  let w' := (streamVoice backend latency fuel chunks concurrency w).2 in
  dispatched (trace w') = dispatched (trace w) ++ number (calls w) chunks
  ∧ written (trace w') = written (trace w) ++ blobs.
Proof.
  intros Hc Hfuel Hok w'. subst w'.
  rewrite streamVoice_run, pipeChunksToStream_run.
  change 0 with (Z.of_nat 0).
  rewrite (pipeLoop_success backend latency chunks concurrency (calls w)
             blobs Hc Hok) by lia.
  unfold logEvent. simpl. rewrite !drop_0.
  destruct (batchesTrace_projections true (Z.to_nat concurrency)
              (number (calls w) chunks) ltac:(lia) blobs) as [Hd Hw].
  { rewrite number_length. symmetry.
    apply (blobs_length backend chunks (calls w) blobs Hok). }
  rewrite !dispatched_app, !written_app, Hd, Hw. simpl.
  by rewrite !app_nil_r.
Qed.

Lemma streamVoice_stream_in_chunk_order_witness :
  let chunks := [js "a."; js "b,"; js "c"] in
  let w' := (streamVoice sampleBackend sampleLatency 4 chunks 2 initialWorld).2 in
  dispatched (trace w') = [] ++ number 0 chunks
  ∧ written (trace w')
    = [] ++ [[Byte.x2a]; [Byte.x2a; Byte.x2a]; [Byte.x2a; Byte.x2a; Byte.x2a]].
Proof.
  intros chunks.
  refine (streamVoice_stream_in_chunk_order sampleBackend sampleLatency chunks 2
            [[Byte.x2a]; [Byte.x2a; Byte.x2a]; [Byte.x2a; Byte.x2a; Byte.x2a]]
            4 initialWorld _ _ _).
  - lia.
  - simpl. lia.
  - reflexivity.
Defined.





End PipelineExtra.
Import PipelineExtra.

(** ** The entry point *)

Module RouterExtra.

Lemma jsEq_true (a b : JSString) : jsEq a b = true ↔ a = b.
Proof.
  revert b. induction a as [|x a IH]; intros [|y b]; simpl; try done.
  rewrite andb_true_iff, N.eqb_eq, IH. split; [by intros [-> ->]|].
  by intros [= -> ->].
Qed.

Lemma jsEq_false (a b : JSString) : jsEq a b = false ↔ a ≠ b.
Proof.
  rewrite <- jsEq_true. by destruct (jsEq a b).
Qed.

Lemma startsWith_true (p s : JSString) :
  startsWith p s = true ↔ ∃ rest, s = p ++ rest.
Proof.
  revert s. induction p as [|a p IH]; intros s; simpl.
  - split; [by exists s|done].
  - destruct s as [|b s]; [split; [done|by intros [? ?]]|].
    rewrite andb_true_iff, N.eqb_eq, IH. split.
    + intros [-> [rest ->]]. by exists rest.
    + intros [rest [= -> ->]]. split; [done|by exists rest].
Qed.

(** The header passes exactly when it is [Bearer ] followed by the key. *)
Lemma authorized_true (apiKey : JSString) (authHeader : option JSString) :
  authorized apiKey authHeader = true ↔ authHeader = Some (js "Bearer " ++ apiKey).
Proof.
  unfold authorized. destruct authHeader as [h|]; [|done].
  rewrite !andb_true_iff, jsEq_true, startsWith_true, truthy_true. split.
  - intros [[_ [rest ->]] Hkey]. f_equal. f_equal.
    change (drop 7 (js "Bearer " ++ rest)) with rest in Hkey. done.
  - intros [= ->]. split; [split|]; [done|by exists apiKey|done].
Qed.

(** How the cleaned text of the handler looks, whatever the stages. *)
Lemma cleanText_shape (stages : Stages) (text : JSString)
    (options : CleaningOptions) :
  cleanText stages text options = []
  ∨ stripWhiteSpace (cleanText stages text options) ≠ [].
Proof.
  unfold cleanText. cbv zeta.
  match goal with |- context [trim ?s] => generalize s end.
  intros s. destruct (trim s) eqn:E; [by left|right].
  rewrite <- E, strip_trim, <- trim_nil. by rewrite E.
Qed.

(** On a text that is empty or has a character other than whitespace
    the segmenter returns, whatever the maximum and the fuel, chunks that
    are trimmed and not empty. *)
Lemma smartChunkText_on_cleaned (text : JSString) (maxChunkLength : Z)
    (fuel : nat) :
  text = [] ∨ stripWhiteSpace text ≠ [] →
  ∃ chunks,
    smartChunkTextFuel fuel text maxChunkLength = Some chunks
    ∧ Forall (λ c, trim c = c ∧ c ≠ []) chunks.
Proof.
  intros [->|Hnws]; [by exists []|].
  assert (text ≠ []) as Htext by (by intros ->).
  assert (fallbackTaken text maxChunkLength = false) as Hfb.
  { destruct (fallbackTaken text maxChunkLength) eqn:E; [|done].
    by apply fallbackTaken_whitespace in E. }
  unfold smartChunkTextFuel.
  apply truthy_true in Htext as ->. cbn [negb]. rewrite Hfb. simpl.
  eexists. split; [done|].
  apply Forall_forall. intros c [Hc Hin]%list_elem_of_filter. split.
  - pose proof (boundaryPass_trimmed text maxChunkLength) as Hall.
    rewrite Forall_forall in Hall. by apply Hall.
  - intros ->. unfold jslength in Hc. simpl in Hc. lia.
Qed.

Section Worker.

Variable backend : nat → JSString → Completion Blob.
Variable latency : nat → nat.
Variable stages : Stages.

(** A request that gets past the method and key checks to the speech
    route with a body that parses is answered by the rest of
    [handleSpeechRequest]. *)
Lemma handleRequest_speech (API_KEY : option JSString) (fuel : nat)
    (request : HttpRequest) (requestBody : SpeechBody) (w : World) :
  http_method request = js "POST" →
  http_pathname request = js "/v1/audio/speech" →
  http_json request = Returned requestBody →
  match API_KEY with
  | Some key => key = [] ∨ http_authorization request = Some (js "Bearer " ++ key)
  | None => True
  end →
  handleRequest backend latency stages API_KEY fuel request w
  = match handleSpeechRequest backend latency
            (λ text, cleanText stages text
                       (finalCleaningOptions (speech_cleaning requestBody)))
            fuel (speech_fields requestBody) w with
    | (Normal response, w') => (Normal (Plain response), w')
    | (Throw error, w') =>
        (Normal (Plain (ErrorResponse error 500 (js "internal_server_error"))),
         logEvent
           (EvResponse (ErrorResponse error 500 (js "internal_server_error"))) w')
    | (Diverge, w') => (Diverge, w')
    end.
Proof.
  intros Hmethod Hpath Hjson Hkey.
  unfold handleRequest, handleSpeechRequestEntry.
  rewrite Hmethod, Hpath, Hjson.
  change (jsEq (js "POST") (js "OPTIONS")) with false.
  change (jsEq (js "POST") (js "POST")) with true.
  change (jsEq (js "/v1/audio/speech") (js "/v1/audio/speech")) with true.
  cbn [negb].
  assert (match API_KEY with
          | Some key =>
              truthy key && negb (authorized key (http_authorization request))
          | None => false
          end = false) as ->.
  { destruct API_KEY as [key|]; [|done].
    destruct Hkey as [->|Hauth]; [done|].
    apply authorized_true in Hauth as ->. apply andb_false_r. }
  cbv zeta. rewrite bind_run. unfold tryCatch. rewrite !bind_run.
  by destruct (handleSpeechRequest backend latency _ fuel
                 (speech_fields requestBody) w) as [[response|error|] w'].
Qed.

(** The events [getVoice] and [streamVoice] add start calls for texts of
    the chunk list only. *)
Lemma getVoice_dispatches (fuel : nat) (chunks : list JSString)
    (concurrency : Z) (w : World) :
  ∃ evs,
    trace (getVoice backend latency fuel chunks concurrency w).2 = trace w ++ evs
    ∧ Forall (λ job : nat * JSString, job.2 ∈ chunks) (dispatched evs).
Proof.
  rewrite getVoice_run.
  destruct (getVoiceLoop_events backend latency chunks concurrency fuel 0 [] w)
    as (evs & Htr & _ & Hdisp & _).
  destruct (getVoiceLoop backend latency fuel chunks concurrency 0 [] w)
    as [[blobs|error|] w']; simpl in *.
  - eexists (evs ++ [EvResponse _]). rewrite Htr, <- app_assoc.
    split; [done|]. rewrite dispatched_app. simpl. by rewrite app_nil_r.
  - eexists (evs ++ [EvResponse _]). rewrite Htr, <- app_assoc.
    split; [done|]. rewrite dispatched_app. simpl. by rewrite app_nil_r.
  - by exists evs.
Qed.

Lemma streamVoice_dispatches (fuel : nat) (chunks : list JSString)
    (concurrency : Z) (w : World) :
  ∃ evs,
    trace (streamVoice backend latency fuel chunks concurrency w).2
    = trace w ++ evs
    ∧ Forall (λ job : nat * JSString, job.2 ∈ chunks) (dispatched evs).
Proof.
  rewrite streamVoice_run, pipeChunksToStream_run.
  destruct (pipeLoop_events backend latency chunks concurrency fuel 0 w)
    as (evs & Htr & _ & Hdisp & _).
  destruct (pipeLoop backend latency fuel chunks concurrency 0 w)
    as [[[]|error|] w']; simpl in *.
  - eexists (evs ++ [EvClose; EvResponse _]). rewrite Htr, <- !app_assoc.
    split; [done|]. rewrite dispatched_app. simpl. by rewrite app_nil_r.
  - eexists (evs ++ [EvAbort error; EvClose; EvResponse _]).
    rewrite Htr, <- !app_assoc.
    split; [done|]. rewrite dispatched_app. simpl. by rewrite app_nil_r.
  - by exists evs.
Qed.

(** [getVoice] and [streamVoice] end normally or not at all. *)
Lemma getVoice_no_throw (fuel : nat) (chunks : list JSString)
    (concurrency : Z) (w : World) (error : Error) :
  (getVoice backend latency fuel chunks concurrency w).1 ≠ Throw error.
Proof.
  rewrite getVoice_run.
  by destruct (getVoiceLoop backend latency fuel chunks concurrency 0 [] w)
    as [[?|?|] ?].
Qed.

Lemma streamVoice_no_throw (fuel : nat) (chunks : list JSString)
    (concurrency : Z) (w : World) (error : Error) :
  (streamVoice backend latency fuel chunks concurrency w).1 ≠ Throw error.
Proof.
  rewrite streamVoice_run, pipeChunksToStream_run.
  by destruct (pipeLoop backend latency fuel chunks concurrency 0 w)
    as [[[]|?|] ?].
Qed.

Lemma handleSpeechRequest_dispatches (cleaner : JSString → JSString)
    (fuel : nat) (requestBody : RequestBody) (w : World) :
  (∀ text, cleaner text = [] ∨ stripWhiteSpace (cleaner text) ≠ []) →
  ∃ evs,
    trace (handleSpeechRequest backend latency cleaner fuel requestBody w).2
    = trace w ++ evs
    ∧ Forall (λ job : nat * JSString, trim job.2 = job.2 ∧ job.2 ≠ [])
        (dispatched evs).
Proof.
  intros Hclean. unfold handleSpeechRequest.
  destruct (truthy (body_input requestBody)); cbn [negb].
  - cbv zeta.
    destruct (smartChunkText_on_cleaned (cleaner (body_input requestBody))
                (default DEFAULT_CHUNK_SIZE (body_chunk_size requestBody))
                (S (length (cleaner (body_input requestBody)))) (Hclean _))
      as (chunks & Hrun & Hall).
    unfold smartChunkText. rewrite Hrun.
    rewrite Forall_forall in Hall.
    destruct (default false (body_stream requestBody)).
    + destruct (streamVoice_dispatches fuel chunks
                  (default DEFAULT_CONCURRENCY (body_concurrency requestBody)) w)
        as (evs & Htr & Hdisp).
      exists evs. split; [done|].
      eapply Forall_impl; [exact Hdisp|]. intros job Hjob. by apply Hall.
    + destruct (getVoice_dispatches fuel chunks
                  (default DEFAULT_CONCURRENCY (body_concurrency requestBody)) w)
        as (evs & Htr & Hdisp).
      exists evs. split; [done|].
      eapply Forall_impl; [exact Hdisp|]. intros job Hjob. by apply Hall.
  - eexists [EvResponse _]. by split.
Qed.

End Worker.

(** X19: a request that is not a preflight is held at the key check
    exactly when a key is configured and the [authorization] header is
    not [Bearer ] followed by that key: it then gets the 401 response and
    nothing else happens; a preflight request is answered before the key
    is looked at, with the requested headers handed back as they came,
    [null] when there were none; and with the right header the worker
    behaves as it does without a key. *)
Theorem handleRequest_key_check
    (backend : nat → JSString → Completion Blob) (latency : nat → nat)
    (stages : Stages) (key : JSString) (fuel : nat) (request : HttpRequest)
    (w : World) :
  key ≠ [] →
  (http_method request = js "OPTIONS" →
   handleRequest backend latency stages (Some key) fuel request w
   = (Normal (Preflight (http_requestHeaders request)), w))
  ∧ (http_method request ≠ js "OPTIONS" →
     http_authorization request ≠ Some (js "Bearer " ++ key) →
     handleRequest backend latency stages (Some key) fuel request w
     = (Normal (Plain (ErrorResponse (js "Invalid API key.") 401
                         (js "invalid_api_key"))),
        logEvent (EvResponse (ErrorResponse (js "Invalid API key.") 401
                                (js "invalid_api_key"))) w))
  ∧ (http_authorization request = Some (js "Bearer " ++ key) →
     handleRequest backend latency stages (Some key) fuel request w
     = handleRequest backend latency stages None fuel request w).
Proof.
  intros Hkey. apply truthy_true in Hkey. unfold handleRequest.
  split; [|split].
  - intros ->. done.
  - intros Hmethod%jsEq_false Hauth. rewrite Hmethod, Hkey.
    assert (authorized key (http_authorization request) = false) as ->; [|done].
    destruct (authorized key (http_authorization request)) eqn:E; [|done].
    by apply authorized_true in E.
  - intros Hauth%authorized_true. by rewrite Hkey, Hauth.
Qed.

Lemma handleRequest_key_check_witness :
  let stages := {| stripUrls := id; stripMarkdown := id;
                   stripKeywords := λ _, id; stripEmoji := id;
                   stripCitations := id |} in
  let request := {| http_method := js "POST";
                    http_authorization := Some (js "Bearer wrong");
                    http_pathname := js "/v1/audio/speech";
                    http_requestHeaders := None;
                    http_json := Thrown (js "Unexpected end of JSON input") |} in
  handleRequest sampleBackend sampleLatency stages (Some (js "secret")) 3
    request initialWorld
  = (Normal (Plain (ErrorResponse (js "Invalid API key.") 401
                      (js "invalid_api_key"))),
     logEvent (EvResponse (ErrorResponse (js "Invalid API key.") 401
                             (js "invalid_api_key"))) initialWorld).
Proof.
  intros stages request.
  refine (proj1 (proj2 (handleRequest_key_check sampleBackend sampleLatency
                          stages (js "secret") 3 request initialWorld _)) _ _);
    discriminate.
Defined.

(** X20: what a request that passes the key check and is not a
    preflight gets when it does not reach the pipeline: 404 on a path
    that is neither of the two routes; 405 on the speech route with a
    method other than POST; 500, with the message of the parse error, on
    a body that is not JSON; 400 on an empty input; on the models route,
    whatever the method, the eight model ids.  No synthesis call is
    started in any of these cases. *)
Theorem handleRequest_statuses
    (backend : nat → JSString → Completion Blob) (latency : nat → nat)
    (stages : Stages) (fuel : nat) (request : HttpRequest) (w : World) :
  http_method request ≠ js "OPTIONS" →
  let run := handleRequest backend latency stages None fuel request w in
  let answers response :=
    run = (Normal (Plain response), logEvent (EvResponse response) w) in
  (http_pathname request ≠ js "/v1/audio/speech" →
   http_pathname request ≠ js "/v1/models" →
   answers (ErrorResponse (js "Not Found") 404 (js "not_found")))
  ∧ (http_pathname request = js "/v1/audio/speech" →
     http_method request ≠ js "POST" →
     answers (ErrorResponse (js "Method Not Allowed") 405
                (js "method_not_allowed")))
  ∧ (∀ error,
       http_pathname request = js "/v1/audio/speech" →
       http_method request = js "POST" →
       http_json request = Thrown error →
       answers (ErrorResponse error 500 (js "internal_server_error")))
  ∧ (∀ requestBody,
       http_pathname request = js "/v1/audio/speech" →
       http_method request = js "POST" →
       http_json request = Returned requestBody →
       body_input (speech_fields requestBody) = [] →
       answers (ErrorResponse (js "'input' is a required parameter.") 400
                  (js "invalid_request_error")))
  ∧ (http_pathname request = js "/v1/models" →
     run = (Normal (Models [js "tts-1"; js "tts-1-hd"; js "tts-1-shimmer";
                            js "tts-1-alloy"; js "tts-1-fable"; js "tts-1-onyx";
                            js "tts-1-nova"; js "tts-1-echo"]), w)).
Proof.
  intros Hoptions%jsEq_false run answers. subst run answers.
  unfold handleRequest. rewrite Hoptions. cbv zeta beta.
  split; [|split; [|split; [|split]]].
  - intros Hspeech%jsEq_false Hmodels%jsEq_false.
    by rewrite Hspeech, Hmodels.
  - intros Hpath Hmethod%jsEq_false. rewrite Hpath.
    unfold handleSpeechRequestEntry. by rewrite Hmethod.
  - intros error Hpath Hmethod Hjson. rewrite Hpath.
    unfold handleSpeechRequestEntry. by rewrite Hmethod, Hjson.
  - intros requestBody Hpath Hmethod Hjson Hinput. rewrite Hpath.
    unfold handleSpeechRequestEntry, handleSpeechRequest.
    by rewrite Hmethod, Hjson, Hinput.
  - intros Hpath. by rewrite Hpath.
Qed.

Lemma handleRequest_statuses_witness :
  let stages := {| stripUrls := id; stripMarkdown := id;
                   stripKeywords := λ _, id; stripEmoji := id;
                   stripCitations := id |} in
  let request := {| http_method := js "GET";
                    http_authorization := None;
                    http_pathname := js "/v1/audio/speech";
                    http_requestHeaders := None;
                    http_json := Thrown (js "Unexpected end of JSON input") |} in
  handleRequest sampleBackend sampleLatency stages None 3 request initialWorld
  = (Normal (Plain (ErrorResponse (js "Method Not Allowed") 405
                      (js "method_not_allowed"))),
     logEvent (EvResponse (ErrorResponse (js "Method Not Allowed") 405
                             (js "method_not_allowed"))) initialWorld).
Proof.
  intros stages request.
  refine (proj1 (proj2 (handleRequest_statuses sampleBackend sampleLatency stages
                          3 request initialWorld _)) _ _);
    [discriminate|reflexivity|discriminate].
Defined.

(** X21: whatever the request, the key, the backend and the fuel, the
    calls the worker starts are made for texts that are trimmed and not
    empty, whatever the [chunk_size] of the request. *)
Theorem handleRequest_dispatches_clean_chunks
    (backend : nat → JSString → Completion Blob) (latency : nat → nat)
    (stages : Stages) (API_KEY : option JSString) (fuel : nat)
    (request : HttpRequest) (w : World) :
  ∃ evs,
    trace (handleRequest backend latency stages API_KEY fuel request w).2
    = trace w ++ evs
    ∧ Forall (λ text, trim text = text ∧ text ≠ []) (dispatchTexts evs).
Proof.
  assert (∀ response : Response,
            Forall (λ text, trim text = text ∧ text ≠ [])
              (dispatchTexts [EvResponse response])) as Hresp by done.
  unfold handleRequest.
  destruct (jsEq (http_method request) (js "OPTIONS")).
  { exists []. by rewrite app_nil_r. }
  cbv zeta.
  destruct (match API_KEY with
            | Some key =>
                truthy key && negb (authorized key (http_authorization request))
            | None => false
            end).
  { by eexists [EvResponse _]. }
  rewrite bind_run. unfold tryCatch.
  destruct (jsEq (http_pathname request) (js "/v1/audio/speech")).
  - rewrite bind_run. unfold handleSpeechRequestEntry.
    destruct (jsEq (http_method request) (js "POST")); cbn [negb];
      [|by eexists [EvResponse _]].
    destruct (http_json request) as [requestBody|error].
    + rewrite bind_run.
      destruct (handleSpeechRequest_dispatches backend latency
                  (λ text, cleanText stages text
                             (finalCleaningOptions (speech_cleaning requestBody)))
                  fuel (speech_fields requestBody) w) as (evs & Htr & Hdisp).
      { intros text. apply cleanText_shape. }
      assert (Forall (λ text, trim text = text ∧ text ≠ []) (dispatchTexts evs))
        as Htexts.
      { unfold dispatchTexts. by apply Forall_fmap. }
      destruct (handleSpeechRequest backend latency _ fuel
                  (speech_fields requestBody) w) as [[response|error|] w'];
        simpl in *.
      * by exists evs.
      * eexists (evs ++ [EvResponse _]). rewrite Htr, <- app_assoc.
        split; [done|]. unfold dispatchTexts in *.
        rewrite dispatched_app. simpl. by rewrite app_nil_r.
      * by exists evs.
    + by eexists [EvResponse _].
  - destruct (jsEq (http_pathname request) (js "/v1/models")).
    + exists []. by rewrite app_nil_r.
    + by eexists [EvResponse _].
Qed.

(** X22: a speech request that passes the checks and asks for a
    concurrency of at least one, or for none, is always answered: the
    worker neither hangs nor lets an exception out, whatever the backend
    does and whatever the other fields of the body. *)
Theorem handleRequest_always_answers
    (backend : nat → JSString → Completion Blob) (latency : nat → nat)
    (stages : Stages) (request : HttpRequest) (requestBody : SpeechBody)
    (w : World) :
  http_method request = js "POST" →
  http_pathname request = js "/v1/audio/speech" →
  http_json request = Returned requestBody →
  1 <= default DEFAULT_CONCURRENCY (body_concurrency (speech_fields requestBody)) →
  ∃ fuel response w',
    handleRequest backend latency stages None fuel request w
    = (Normal (Plain response), w').
Proof.
  intros Hmethod Hpath Hjson Hc.
  set (cleaner := λ text, cleanText stages text
                            (finalCleaningOptions (speech_cleaning requestBody))).
  set (fields := speech_fields requestBody) in *.
  destruct (smartChunkText_on_cleaned (cleaner (body_input fields))
              (default DEFAULT_CHUNK_SIZE (body_chunk_size fields))
              (S (length (cleaner (body_input fields)))))
    as (chunks & Hrun & _); [apply cleanText_shape|].
  exists (S (length chunks)).
  rewrite (handleRequest_speech backend latency stages None _ request
             requestBody w Hmethod Hpath Hjson I).
  fold cleaner fields. unfold handleSpeechRequest.
  destruct (truthy (body_input fields)); cbn [negb]; [|by eexists _, _].
  cbv zeta. unfold smartChunkText. rewrite Hrun.
  destruct (default false (body_stream fields)).
  - rewrite streamVoice_run, pipeChunksToStream_run.
    pose proof (pipeLoop_ends backend latency chunks _ Hc (S (length chunks))
                  0%nat w ltac:(lia)) as Hends.
    change (Z.of_nat 0) with 0 in Hends.
    destruct (pipeLoop backend latency (S (length chunks)) chunks _ 0 w)
      as [[[]|error|] w']; [by eexists _, _..|done].
  - rewrite getVoice_run.
    pose proof (getVoiceLoop_ends backend latency chunks _ Hc (S (length chunks))
                  0%nat [] w ltac:(lia)) as Hends.
    change (Z.of_nat 0) with 0 in Hends.
    destruct (getVoiceLoop backend latency (S (length chunks)) chunks _ 0 [] w)
      as [[blobs|error|] w']; [by eexists _, _..|done].
Qed.

Lemma handleRequest_always_answers_witness :
  let stages := {| stripUrls := id; stripMarkdown := id;
                   stripKeywords := λ _, id; stripEmoji := id;
                   stripCitations := id |} in
  let requestBody :=
    {| speech_fields := {| body_input := js "Hi there. Bye.";
                           body_stream := Some true;
                           body_concurrency := None;
                           body_chunk_size := Some (-4) |};
       speech_cleaning := {| req_remove_markdown := None;
                             req_remove_emoji := None;
                             req_remove_urls := None;
                             req_remove_line_breaks := Some false;
                             req_remove_citation_numbers := None;
                             req_custom_keywords := None |} |} in
  let request := {| http_method := js "POST";
                    http_authorization := None;
                    http_pathname := js "/v1/audio/speech";
                    http_requestHeaders := None;
                    http_json := Returned requestBody |} in
  ∃ fuel response w',
    handleRequest (failingBackend 1) sampleLatency stages None fuel request
      initialWorld
    = (Normal (Plain response), w').
Proof.
  intros stages requestBody request.
  refine (handleRequest_always_answers (failingBackend 1) sampleLatency stages
            request requestBody initialWorld _ _ _ _);
    [reflexivity|reflexivity|reflexivity|by vm_compute].
Defined.

(** X23: an input that is not empty but is cleaned to nothing, a blank
    one for instance, is not an error: whatever the concurrency, no call
    is started; without [stream] the answer is an audio response with an
    empty body, with [stream] a stream that is closed without a write. *)
Theorem handleSpeechRequest_nothing_to_say
    (backend : nat → JSString → Completion Blob) (latency : nat → nat)
    (cleaner : JSString → JSString) (fuel : nat) (requestBody : RequestBody)
    (w : World) :
  body_input requestBody ≠ [] →
  cleaner (body_input requestBody) = [] →
  handleSpeechRequest backend latency cleaner (S fuel) requestBody w
  = if default false (body_stream requestBody)
    then (Normal StreamResponse,
          {| calls := calls w;
             trace := (trace w ++ [EvClose]) ++ [EvResponse StreamResponse];
             writer := match writer w with Writable => Closed | s => s end |})
    else (Normal (AudioResponse []),
          logEvent (EvResponse (AudioResponse [])) w).
Proof.
  intros Hinput Hclean. unfold handleSpeechRequest.
  apply truthy_true in Hinput as ->. cbn [negb]. cbv zeta. rewrite Hclean.
  change (smartChunkText [] _) with (Some ([] : list JSString)). cbv iota beta.
  by destruct (default false (body_stream requestBody)).
Qed.

Lemma handleSpeechRequest_nothing_to_say_witness :
  handleSpeechRequest sampleBackend sampleLatency trim 1
    {| body_input := js "   "; body_stream := None;
       body_concurrency := Some 0; body_chunk_size := None |} initialWorld
  = (Normal (AudioResponse []),
     logEvent (EvResponse (AudioResponse [])) initialWorld).
Proof.
  apply (handleSpeechRequest_nothing_to_say sampleBackend sampleLatency trim 0
           {| body_input := js "   "; body_stream := None;
              body_concurrency := Some 0; body_chunk_size := None |}
           initialWorld);
    [discriminate|reflexivity].
Defined.

End RouterExtra.

(** ** Base64 *)

Module Base64Extra.

















End Base64Extra.
